(** * AI-Bot: retrieval-augmented chat backend (server.js)

    A shallow embedding of [src/server.js]: the cosine-similarity helpers
    ([dot], [norm], [cosineSim]), the brute-force ranking inside the
    [/api/chat] handler, the document store behind [/api/docs], and the
    request pipelines of the three handlers, followed by the properties
    stated about them. Beside the server stand the key checks of
    [src/server.js] and [src/scripts/check-secret.js], and the page script
    [src/public/app.js] with the conversation it keeps and the requests it
    sends.

    JavaScript numbers are IEEE 754 binary64 values; they are modelled by
    Rocq's primitive floats, whose operations are specified by
    [FloatAxioms] against [SpecFloat]. *)

From Stdlib Require Import List Sorted Permutation ZArith Bool String Ascii Lia Floats.
From Stdlib Require Import DecimalString Decimal.
From Stdlib Require Import Reals Lra.
Import ListNotations.

Local Set Warnings "-inexact-float,-register-all".

(* ================================================================= *)
(** ** Arithmetic of the similarity helpers *)

(** The operations [dot], [norm] and [cosineSim] use: the literal [0], [+],
    [*], [/], [Math.sqrt], the test [x === 0], and the number an
    out-of-range read [b[i]] contributes to a product ([undefined]
    converted to a number). *)
Class Arith (F : Type) : Type := {
  num0 : F;
  fadd : F -> F -> F;
  fmul : F -> F -> F;
  fdiv : F -> F -> F;
  fsqrt : F -> F;
  is_zero : F -> bool;
  of_undefined : F
}.

(** The arithmetic the program runs on: binary64, [undefined] converts to
    NaN, and [===] is IEEE equality (so [-0 === 0] and NaN equals
    nothing). *)
#[export] Instance binary64 : Arith float := {|
  num0 := 0%float;
  fadd := PrimFloat.add;
  fmul := PrimFloat.mul;
  fdiv := PrimFloat.div;
  fsqrt := PrimFloat.sqrt;
  is_zero := fun x => PrimFloat.eqb x 0%float;
  of_undefined := nan
|}.

(** Exact real arithmetic, the reading under which a cosine is a cosine.
    There is no NaN among the reals: [of_undefined] is only read when the
    second vector is shorter than the first, and no statement about this
    instance covers that case. *)
#[export] Instance exact_reals : Arith R := {|
  num0 := 0%R;
  fadd := Rplus;
  fmul := Rmult;
  fdiv := Rdiv;
  fsqrt := R_sqrt.sqrt;
  is_zero := fun x => if Req_dec_T x 0%R then true else false;
  of_undefined := 0%R
|}.

Section Similarity.
Context {F : Type} `{Arith F}.

(** [for (let i = 0; i < a.length; i++) s += a[i] * b[i];] with [i] the
    loop index, [n] the iterations left and [s] the accumulator. *)
Fixpoint dot_loop (a b : list F) (i n : nat) (s : F) : F :=
  match n with
  | O => s
  | S n' =>
      dot_loop a b (S i) n'
        (fadd s (fmul (nth i a of_undefined) (nth i b of_undefined)))
  end.

Definition dot (a b : list F) : F := dot_loop a b 0 (List.length a) num0.

Definition norm (a : list F) : F := fsqrt (dot a a).

(** The two ways out of [cosineSim]: the guard returns the literal [0], or
    the quotient [dot(a, b) / (na * nb)] is computed. *)
Inductive SimPath : Type :=
| ReturnZero
| Divide (numerator divisor : F).

Definition cosineSim_path (a b : list F) : SimPath :=
  let na := norm a in
  let nb := norm b in
  if is_zero na || is_zero nb then ReturnZero
  else Divide (dot a b) (fmul na nb).

Definition cosineSim (a b : list F) : F :=
  match cosineSim_path a b with
  | ReturnZero => num0
  | Divide p q => fdiv p q
  end.

(** The same loop read off the lists: the head of [a] against the head of
    [b], or against [undefined] once [b] is exhausted. *)
Fixpoint dot_acc (s : F) (a b : list F) : F :=
  match a with
  | [] => s
  | x :: a' =>
      dot_acc (fadd s (fmul x (hd of_undefined b))) a' (tl b)
  end.
End Similarity.

(* ================================================================= *)
(** ** JavaScript values, exceptions *)

Open Scope string_scope.

(** What [express.json()] and [JSON.parse] produce, plus [undefined]. An
    object is the list of its own properties. *)
Inductive JValue : Type :=
| JUndefined
| JNull
| JBool (b : bool)
| JNum (x : float)
| JStr (s : string)
| JArr (items : list JValue)
| JObj (props : list (string * JValue)).

(** A call either returns or throws; the thrown value is kept as the text
    [String(err)] gives. *)
Inductive Result (A : Type) : Type :=
| Ok (a : A)
| Throw (err : string).
Arguments Ok {A} a.
Arguments Throw {A} err.

Fixpoint lookup (k : string) (props : list (string * JValue)) : JValue :=
  match props with
  | [] => JUndefined
  | (k', v) :: rest => if String.eqb k k' then v else lookup k rest
  end.

(** [v.k] for the property names the server reads ([messages], [model],
    [title], [content], [role]); none of them is inherited from a
    prototype, and reading a property of [undefined] or [null] throws. *)
Definition get_prop (v : JValue) (k : string) : Result JValue :=
  match v with
  | JUndefined =>
      Throw ("TypeError: Cannot read properties of undefined (reading '" ++ k ++ "')")
  | JNull =>
      Throw ("TypeError: Cannot read properties of null (reading '" ++ k ++ "')")
  | JObj props => Ok (lookup k props)
  | _ => Ok JUndefined
  end.

(** ToBoolean. *)
Definition truthy (v : JValue) : bool :=
  match v with
  | JUndefined | JNull => false
  | JBool b => b
  | JNum x => negb (PrimFloat.eqb x 0%float || PrimFloat.is_nan x)
  | JStr s => negb (String.eqb s "")
  | JArr _ | JObj _ => true
  end.

Definition isArray (v : JValue) : bool :=
  match v with JArr _ => true | _ => false end.

(** [typeof v === "string"]. *)
Definition is_string (v : JValue) : bool :=
  match v with JStr _ => true | _ => false end.

(** [v === s] for a string literal [s]. *)
Definition strict_eq_str (v : JValue) (s : string) : bool :=
  match v with JStr s' => String.eqb s' s | _ => false end.

(** [v ?? d]. *)
Definition nullish_or (v d : JValue) : JValue :=
  match v with JUndefined | JNull => d | _ => v end.

(** [v || d]. *)
Definition or_else (v d : JValue) : JValue := if truthy v then v else d.

Definition nl : string := String (ascii_of_nat 10) EmptyString.

Fixpoint join (sep : string) (parts : list string) : string :=
  match parts with
  | [] => ""
  | [p] => p
  | p :: rest => p ++ sep ++ join sep rest
  end.

Definition string_of_nat (n : nat) : string :=
  NilEmpty.string_of_uint (Nat.to_uint n).

(* ================================================================= *)
(** ** Stable sorting *)

(** The sorter behind [ORDER BY] hands back rows with equal keys in scan
    order: a stable sort, modelled by an insertion sort. [before y x] says
    that [y] must come strictly before [x]; an element stays in front of
    every later element that is not strictly before it. *)
Section StableSort.
Context {A : Type}.
Variable before : A -> A -> bool.

Fixpoint insert (x : A) (sorted : list A) : list A :=
  match sorted with
  | [] => [x]
  | y :: ys => if before y x then y :: insert x ys else x :: y :: ys
  end.

Definition stable_sort (l : list A) : list A := fold_right insert [] l.

(** [x] put in front of the first element it is strictly before, behind
    everything else: the place a left-to-right insertion gives it. *)
Fixpoint insert_after (x : A) (sorted : list A) : list A :=
  match sorted with
  | [] => [x]
  | y :: ys => if before x y then x :: y :: ys else y :: insert_after x ys
  end.
End StableSort.

(** [SortCompare]: the comparator's answer, with NaN read as [+0]. *)
Definition sort_compare {A : Type} (comparefn : A -> A -> float) (x y : A) : float :=
  let v := comparefn x y in
  if PrimFloat.is_nan v then 0%float else v.

(** [Array.prototype.sort] as Node's engine runs it on an array of fewer
    than 64 elements: the run at the front of the array is found (a
    strictly descending one is reversed), and every later element is put
    into the sorted front by a binary search. [lt0 x y] is
    [SortCompare(x, y) < 0]. *)
Section EngineSort.
Context {A : Type}.
Variable lt0 : A -> A -> bool.

(** The loop [while (left < right)] of the binary search for the place of
    [pivot]; the interval shrinks in every round, so its length is fuel
    enough. *)
Fixpoint binary_search (pivot : A) (sorted : list A) (left right fuel : nat) : nat :=
  match fuel with
  | O => left
  | S fuel' =>
      if (left <? right)%nat then
        let mid := (left + (right - left) / 2)%nat in
        match nth_error sorted mid with
        | Some e =>
            if lt0 pivot e then binary_search pivot sorted left mid fuel'
            else binary_search pivot sorted (S mid) right fuel'
        | None => left
        end
      else left
  end.

Definition binary_insert (sorted : list A) (pivot : A) : list A :=
  let left := binary_search pivot sorted 0 (List.length sorted) (List.length sorted) in
  (firstn left sorted ++ pivot :: skipn left sorted)%list.

(** The run goes on while the next element compares with the one before
    it as the first two did: below zero in a descending run, not below
    zero in an ascending one. The result is the rest of the run and what
    follows it. *)
Fixpoint extend_run (descending : bool) (previous : A) (rest : list A)
  : list A * list A :=
  match rest with
  | [] => ([], [])
  | current :: rest' =>
      if Bool.eqb (lt0 current previous) descending then
        let (run, others) := extend_run descending current rest' in
        (current :: run, others)
      else ([], rest)
  end.

Definition count_and_make_run (arr : list A) : list A * list A :=
  match arr with
  | first :: second :: rest =>
      let descending := lt0 second first in
      let (run, others) := extend_run descending second rest in
      let whole := first :: second :: run in
      (if descending then List.rev whole else whole, others)
  | _ => (arr, [])
  end.

Definition engine_sort (arr : list A) : list A :=
  let (run, others) := count_and_make_run arr in
  fold_left binary_insert others run.
End EngineSort.

(** [arr.sort(comparefn)]. With a comparator that is consistent on the
    elements this is the stable sort the language asks for, whatever the
    length. With one that is not (one that answers NaN, here) the language
    leaves the order to the engine, and the order given is the engine's
    for arrays of fewer than 64 elements; longer arrays, which the engine
    sorts by merging several runs, are then outside the model. *)
Definition array_sort {A : Type} (comparefn : A -> A -> float) (arr : list A) : list A :=
  engine_sort (fun x y => PrimFloat.ltb (sort_compare comparefn x y) 0%float) arr.

(* ================================================================= *)
(** ** Documents and ranking *)

(** The [embedding] column is text; [JSON.parse] of it either throws or
    gives the stored vector. A [null] among its entries, which every use
    converts to [+0], is kept as [0]. *)
Inductive EmbeddingText : Type :=
| Malformed
| Vector (v : list float).

(** A number as it comes back from [JSON.stringify] and [JSON.parse]: NaN
    and the infinities are written as [null], [-0] as [0], every other
    number so that it is read back unchanged. *)
Definition json_number (x : float) : float :=
  if PrimFloat.is_nan x || PrimFloat.is_infinity x then 0%float
  else if PrimFloat.eqb x 0%float then 0%float
  else x.

(** [JSON.stringify(embedding)], as the text of the column. *)
Definition JSON_stringify (embedding : list float) : EmbeddingText :=
  Vector (map json_number embedding).

Definition JSON_parse (t : EmbeddingText) : Result (list float) :=
  match t with
  | Malformed => Throw "SyntaxError: Unexpected token in JSON"
  | Vector v => Ok v
  end.

(** A row of [documents]; [created_at] is [CURRENT_TIMESTAMP], which has a
    resolution of one second, counted here in seconds. *)
Record Row : Type := {
  id : Z;
  title : option string;
  content : string;
  embedding : EmbeddingText;
  created_at : Z
}.

Record Scored : Type := {
  s_id : Z;
  s_title : option string;
  s_content : string;
  score : float
}.

(** The [for (const r of rows)] loop: a row whose embedding does not parse
    is skipped, every other row is pushed with its score. *)
Fixpoint score_rows (qEmbedding : list float) (rows : list Row) : list Scored :=
  match rows with
  | [] => []
  | r :: rest =>
      match JSON_parse (embedding r) with
      | Throw _ => score_rows qEmbedding rest
      | Ok docEmb =>
          {| s_id := id r; s_title := title r; s_content := content r;
             score := cosineSim qEmbedding docEmb |}
          :: score_rows qEmbedding rest
      end
  end.

Definition K : nat := 3.
Definition T : float := 0.65%float.

(** [(a, b) => b.score - a.score]. *)
Definition by_score_desc (a b : Scored) : float :=
  PrimFloat.sub (score b) (score a).

(** [scored.sort(...)] then [scored.slice(0, 3).filter(s => s.score > 0.65)]. *)
Definition top_of (scored : list Scored) : list Scored :=
  filter (fun s => PrimFloat.ltb T (score s)) (firstn K (array_sort by_score_desc scored)).

Definition rank (qEmbedding : list float) (rows : list Row) : list Scored :=
  top_of (score_rows qEmbedding rows).

(** The ranking as the specification words it: sort, then return the first
    [K] entries whose score exceeds [T]. *)
Definition rank_spec (scored : list Scored) : list Scored :=
  firstn K (filter (fun s => PrimFloat.ltb T (score s)) (array_sort by_score_desc scored)).

(* ================================================================= *)
(** ** The server's surroundings *)

(** What the code reads of a moderation reply: [mod.results?.[0]], and
    whether its [flagged] is truthy. *)
Record Moderation : Type := { first_result : option bool }.

(** Everything a request handler gets from outside: the configuration read
    at start-up, the replies of the three remote calls (each may throw),
    faults of the database layer, the row id the database's random search
    settles on when the largest id is taken (none when it gives up), the
    clock behind [CURRENT_TIMESTAMP], and the two number formatters of the
    runtime. *)
Record World : Type := {
  OPENAI_KEY : option string;
  MODEL : string;
  moderations_create : JValue -> Result Moderation;
  embeddings_create : JValue -> Result (list float);
  chat_completions_create : JValue -> list JValue -> Result (option string);
  select_fault : option string;
  insert_fault : option string;
  random_rowid : option Z;
  now : Z;
  toFixed3 : float -> string;
  number_text : float -> string
}.

(** Calls that leave the process or touch the table, in the order made. *)
Inductive Event : Type :=
| ModerationCall (input : JValue)
| EmbeddingCall (input : JValue)
| SelectDocuments
| SelectListing
| InsertDocument (r : Row)
| CompletionCall (model : JValue) (messages : list JValue).

(** The table in row-id order, and the calls made so far. *)
Record Machine : Type := {
  db : list Row;
  log : list Event
}.

Inductive Body : Type :=
| ErrorBody (error : string) (details : option string)
| ReplyBody (reply : string)
| AddedBody (new_id : Z)
| ListBody (data : list (Z * option string * string * Z)).

Record Response : Type := { status : nat; body : Body }.

(** A step of a handler continues with a value, throws, or has sent the
    response and returned from the handler ([return res.status(..).json(..)]). *)
Inductive Flow (A : Type) : Type :=
| Next (a : A)
| Raise (err : string)
| Return (r : Response).
Arguments Next {A} a.
Arguments Raise {A} err.
Arguments Return {A} r.

Definition M (A : Type) : Type := Machine -> Flow A * Machine.

Definition ret {A} (a : A) : M A := fun m => (Next a, m).
Definition raise {A} (e : string) : M A := fun m => (Raise e, m).
Definition respond {A} (r : Response) : M A := fun m => (Return r, m).

Definition bind {A B} (c : M A) (k : A -> M B) : M B :=
  fun m =>
    match c m with
    | (Next a, m') => k a m'
    | (Raise e, m') => (Raise e, m')
    | (Return r, m') => (Return r, m')
    end.

Notation "x <- c ;; k" := (bind c (fun x => k))
  (at level 61, c at next level, right associativity).

(** [try { c } catch (err) { h }]: a [return] inside the block is not caught. *)
Definition try_catch {A} (c : M A) (h : string -> M A) : M A :=
  fun m =>
    match c m with
    | (Raise e, m') => h e m'
    | other => other
    end.

Definition lift {A} (r : Result A) : M A :=
  match r with Ok a => ret a | Throw e => raise e end.

Definition emit (e : Event) : M unit :=
  fun m => (Next tt, {| db := db m; log := log m ++ [e] |}).

Definition call_moderation (w : World) (input : JValue) : M Moderation :=
  _ <- emit (ModerationCall input) ;; lift (moderations_create w input).

Definition call_embedding (w : World) (input : JValue) : M (list float) :=
  _ <- emit (EmbeddingCall input) ;; lift (embeddings_create w input).

Definition call_completion (w : World) (model : JValue) (messages : list JValue)
  : M (option string) :=
  _ <- emit (CompletionCall model messages) ;;
  lift (chat_completions_create w model messages).

(** [db.prepare("SELECT id, title, content, embedding FROM documents").all()]. *)
Definition select_documents (w : World) : M (list Row) :=
  _ <- emit SelectDocuments ;;
  match select_fault w with
  | Some e => raise e
  | None => fun m => (Next (db m), m)
  end.

(** The largest row id there is, [2^63 - 1]. *)
Definition max_rowid : Z := 9223372036854775807.

(** One more than the largest row id in use, [1] in an empty table. *)
Definition next_id (rows : list Row) : Z :=
  match rows with
  | [] => 1%Z
  | r :: rest => (1 + fold_right (fun r' acc => Z.max (id r') acc) (id r) rest)%Z
  end.

Definition in_use (i : Z) (rows : list Row) : bool :=
  existsb (fun r => Z.eqb (id r) i) rows.

(** The row id of an [INTEGER PRIMARY KEY] left out of an insert:
    [next_id] while that is a row id; once the largest id is taken, a
    positive id not in use found by a random search, or the error of a
    full table when the search gives up. *)
Definition new_rowid (w : World) (rows : list Row) : Result Z :=
  if (next_id rows <=? max_rowid)%Z then Ok (next_id rows)
  else
    match random_rowid w with
    | Some i =>
        if (0 <? i)%Z && (i <=? max_rowid)%Z && negb (in_use i rows) then Ok i
        else Throw "SqliteError: database or disk is full"
    | None => Throw "SqliteError: database or disk is full"
    end.

(** The table is kept in row-id order: a new row goes in front of the
    first row with a larger id. *)
Fixpoint place (r : Row) (rows : list Row) : list Row :=
  match rows with
  | [] => [r]
  | x :: rest => if (id r <? id x)%Z then r :: x :: rest else x :: place r rest
  end.

(** A row id as the driver hands it to JavaScript: the nearest binary64
    number, ties to even, given here by its integer value. Ids of
    magnitude below [2^53] are unchanged. *)
Definition js_number (i : Z) : Z :=
  let a := Z.abs i in
  if (a <? 2 ^ 53)%Z then i
  else
    let k := (Z.log2 a - 52)%Z in
    let q := (a / 2 ^ k)%Z in
    let r := (a mod 2 ^ k)%Z in
    let half := (2 ^ (k - 1))%Z in
    let q' := if (half <? r)%Z || ((r =? half)%Z && Z.odd q) then (q + 1)%Z else q in
    (Z.sgn i * (q' * 2 ^ k))%Z.

(** [stmt.run(title, content, embedding)]: one atomic insert; the new row
    takes a new id and the current second, and [info.lastInsertRowid] is
    the id as a number. In the log a failed insert carries the id it
    aimed at. *)
Definition insert_document (w : World) (t : option string) (c : string)
    (e : EmbeddingText) : M Z :=
  fun m =>
    let row := fun i => {| id := i; title := t; content := c; embedding := e;
                           created_at := now w |} in
    let aimed := {| db := db m; log := log m ++ [InsertDocument (row (next_id (db m)))] |} in
    match insert_fault w with
    | Some err => (Raise err, aimed)
    | None =>
        match new_rowid w (db m) with
        | Throw err => (Raise err, aimed)
        | Ok i =>
            (Next (js_number i),
             {| db := place (row i) (db m); log := log m ++ [InsertDocument (row i)] |})
        end
    end.

(** The characters in front of the first U+0000. *)
Fixpoint up_to_nul (c : string) : string :=
  match c with
  | EmptyString => EmptyString
  | String ch rest =>
      if Ascii.eqb ch Ascii.zero then EmptyString else String ch (up_to_nul rest)
  end.

(** [substr(content, 1, 800)]: the database reads a text up to its first
    U+0000. *)
Definition snippet (c : string) : string := String.substring 0 800 (up_to_nul c).

(** [SELECT id, title, substr(content,1,800) as snippet, created_at FROM
    documents ORDER BY created_at DESC]: a scan in row-id order through a
    stable sorter on the timestamp; ids come back as numbers. *)
Definition select_listing (w : World) : M (list (Z * option string * string * Z)) :=
  _ <- emit SelectListing ;;
  match select_fault w with
  | Some e => raise e
  | None =>
      fun m =>
        (Next (map (fun r => (js_number (id r), title r, snippet (content r),
                              created_at r))
                   (stable_sort (fun y x => Z.ltb (created_at x) (created_at y)) (db m))),
         m)
  end.

(** A handler run to its response: the value it ends with or the response
    it returned early. The handlers catch everything, so [Raise] does not
    reach this point; it is mapped to the framework's own 500. *)
Definition run (h : M Response) (m : Machine) : Response * Machine :=
  match h m with
  | (Next r, m') => (r, m')
  | (Return r, m') => (r, m')
  | (Raise e, m') => ({| status := 500; body := ErrorBody e None |}, m')
  end.

(* ================================================================= *)
(** ** POST /api/docs and GET /api/docs *)

(** What the driver binds for one value in a TEXT column: a string as it
    is, a number as its text, [null] as NULL; anything else is refused. *)
Definition bind_value (w : World) (v : JValue) : Result (option string) :=
  match v with
  | JNull => Ok None
  | JStr s => Ok (Some s)
  | JNum x => Ok (Some (number_text w x))
  | _ => Throw "TypeError: SQLite3 can only bind numbers, strings, bigints, buffers, and null"
  end.

(** The error of an array of two or more values in the place of the
    title: its values are bound to the statement's three parameters one
    after the other, [position] counting them; a value that cannot be
    bound is refused as such, and otherwise there is one value too many,
    in the array or with the content and the embedding behind it. *)
Fixpoint bind_too_many (w : World) (position : nat) (vs : list JValue) : string :=
  match vs with
  | [] => "RangeError: Too many parameter values were provided"
  | v :: rest =>
      match bind_value w v with
      | Throw e => e
      | Ok _ =>
          if (3 <? position)%nat
          then "RangeError: Too many parameter values were provided"
          else bind_too_many w (S position) rest
      end
  end.

(** What [stmt.run(title || null, content, ..)] binds for the title. The
    driver takes an array as a list of values for as many parameters and
    an object as named parameters, of which the statement has none: an
    array of one value stands for that value, an empty array and an object
    leave the statement a value short. *)
Definition bind_title (w : World) (t : JValue) : Result (option string) :=
  match or_else t JNull with
  | JArr [] => Throw "RangeError: Too few parameter values were provided"
  | JArr [v] => bind_value w v
  | JArr vs => Throw (bind_too_many w 1 vs)
  | JObj _ => Throw "RangeError: Too few parameter values were provided"
  | v => bind_value w v
  end.

Definition text_of (v : JValue) : string :=
  match v with JStr s => s | _ => "" end.

Definition post_docs (w : World) (req_body : list (string * JValue)) : M Response :=
  try_catch
    (let title := lookup "title" req_body in
     let content := lookup "content" req_body in
     if negb (truthy content) || negb (is_string content) then
       respond {| status := 400; body := ErrorBody "content is required" None |}
     else
       embedding <- call_embedding w content ;;
       t <- lift (bind_title w title) ;;
       new_id <- insert_document w t (text_of content) (JSON_stringify embedding) ;;
       ret {| status := 200; body := AddedBody new_id |})
    (fun err =>
       ret {| status := 500;
              body := ErrorBody "failed to add document" (Some err) |}).

Definition get_docs (w : World) : M Response :=
  try_catch
    (rows <- select_listing w ;;
     ret {| status := 200; body := ListBody rows |})
    (fun _ =>
       ret {| status := 500; body := ErrorBody "failed to list documents" None |}).

(* ================================================================= *)
(** ** POST /api/chat *)

(** [arr.find(m => m.role === "user")]. *)
Fixpoint find_user (ms : list JValue) : Result JValue :=
  match ms with
  | [] => Ok JUndefined
  | m :: rest =>
      match get_prop m "role" with
      | Throw e => Throw e
      | Ok r => if strict_eq_str r "user" then Ok m else find_user rest
      end
  end.

(** [lastUser?.content ?? ""]. *)
Definition last_content (lastUser : JValue) : Result JValue :=
  match lastUser with
  | JUndefined | JNull => Ok (JStr "")
  | _ =>
      match get_prop lastUser "content" with
      | Throw e => Throw e
      | Ok c => Ok (nullish_or c (JStr ""))
      end
  end.

(** [messages.filter(m => m.role !== "system")]. *)
Fixpoint filter_not_system (ms : list JValue) : Result (list JValue) :=
  match ms with
  | [] => Ok []
  | m :: rest =>
      match get_prop m "role" with
      | Throw e => Throw e
      | Ok r =>
          match filter_not_system rest with
          | Throw e => Throw e
          | Ok kept => Ok (if strict_eq_str r "system" then kept else m :: kept)
          end
      end
  end.

Definition forbidden : Response :=
  {| status := 403; body := ErrorBody "Content flagged by moderation" None |}.

(** Step 1: the moderation check; a failing call is not fatal. *)
Definition moderate (w : World) (lastContent : JValue) : M unit :=
  try_catch
    (md <- call_moderation w lastContent ;;
     match first_result md with
     | Some true => respond forbidden
     | _ => ret tt
     end)
    (fun _ => ret tt).

Fixpoint mapi_from {A B} (f : A -> nat -> B) (i : nat) (l : list A) : list B :=
  match l with
  | [] => []
  | x :: rest => f x i :: mapi_from f (S i) rest
  end.

Definition document_block (w : World) (t : Scored) (i : nat) : string :=
  "--- DOCUMENT " ++ string_of_nat (i + 1) ++ " ("
    ++ match s_title t with Some x => x | None => "untitled" end
    ++ ", score=" ++ toFixed3 w (score t) ++ ") ---" ++ nl ++ s_content t.

Definition context_of (w : World) (top : list Scored) : string :=
  match top with
  | [] => ""
  | _ => join (nl ++ nl) (mapi_from (document_block w) 0 top)
  end.

(** Step 2: embed the last user message, score every stored document,
    keep the top ones. *)
Definition retrieval_steps (w : World) (lastContent : JValue) : M string :=
  qEmbedding <- call_embedding w lastContent ;;
  rows <- select_documents w ;;
  ret (context_of w (rank qEmbedding rows)).

(** The [try] around step 2: any failure leaves [contextText] empty. *)
Definition retrieve (w : World) (lastContent : JValue) : M string :=
  try_catch (retrieval_steps w lastContent) (fun _ => ret "").

Definition systemPromptParts : list string :=
  [ "You are an extremely capable, safe, and concise AI assistant. Help the user solve problems across many domains: programming, writing, math, planning, troubleshooting, and general knowledge. When appropriate:";
    "- Ask clarifying questions before assuming.";
    "- Provide step-by-step plans, example code, and explanation in simple terms.";
    "- If an answer requires external resources or current events beyond your knowledge, say so and offer a plan to find the info.";
    "- If multiple reasonable options exist, list them with pros/cons.";
    "- Keep answers factual, avoid hallucinations, and cite the provided documents when they are used." ].

Definition context_header : string :=
  "The following documents were retrieved from the user's knowledge base and may be relevant. Use them to inform your answer and cite them inline when referenced:" ++ nl.

(** Step 3: the fixed parts, and the retrieved context when there is some. *)
Definition systemPrompt (contextText : string) : string :=
  join (nl ++ nl)
    (if String.eqb contextText "" then systemPromptParts
     else systemPromptParts ++ [context_header ++ contextText]).

Definition system_message (contextText : string) : JValue :=
  JObj [("role", JStr "system"); ("content", JStr (systemPrompt contextText))].

(** [!OPENAI_KEY]: the variable is unset or empty. *)
Definition key_missing (w : World) : bool :=
  match OPENAI_KEY w with
  | None => true
  | Some k => String.eqb k ""
  end.

Definition elements (v : JValue) : list JValue :=
  match v with JArr items => items | _ => [] end.

Definition post_chat (w : World) (req_body : list (string * JValue)) : M Response :=
  try_catch
    (if key_missing w then
       respond {| status := 500;
                  body := ErrorBody "Server not configured with OPENAI_API_KEY" None |}
     else
       let messages := lookup "messages" req_body in
       let model := or_else (lookup "model" req_body) (JStr (MODEL w)) in
       if negb (truthy messages) || negb (isArray messages) then
         respond {| status := 400; body := ErrorBody "messages must be an array" None |}
       else
         lastUser <- lift (find_user (List.rev (elements messages))) ;;
         lastContent <- lift (last_content lastUser) ;;
         _ <- moderate w lastContent ;;
         contextText <- retrieve w lastContent ;;
         kept <- lift (filter_not_system (elements messages)) ;;
         let finalMessages := system_message contextText :: kept in
         content <- call_completion w model finalMessages ;;
         ret {| status := 200;
                body := ReplyBody match content with Some s => s | None => "" end |})
    (fun err =>
       ret {| status := 500; body := ErrorBody "Internal server error" (Some err) |}).

(** One request served on a given table: the response, the table after,
    and the calls made. *)
Definition serve (h : M Response) (store : list Row) : Response * list Row * list Event :=
  let (r, m) := run h {| db := store; log := [] |} in (r, db m, log m).


(* ================================================================= *)
(** ** Sample surroundings and requests *)

Definition user_says (text : string) : JValue :=
  JObj [("role", JStr "user"); ("content", JStr text)].

Definition demo_world : World := {|
  OPENAI_KEY := Some "sk-demo";
  MODEL := "gpt-4";
  moderations_create := fun _ => Ok {| first_result := Some false |};
  embeddings_create := fun _ => Ok [1%float; 0%float];
  chat_completions_create := fun _ _ => Ok (Some "Hello!");
  select_fault := None;
  insert_fault := None;
  random_rowid := None;
  now := 1700000000%Z;
  toFixed3 := fun _ => "1.000";
  number_text := fun _ => "0"
|}.

(** The embedding service is down. *)
Definition offline_world : World := {|
  OPENAI_KEY := OPENAI_KEY demo_world;
  MODEL := MODEL demo_world;
  moderations_create := moderations_create demo_world;
  embeddings_create := fun _ => Throw "Error: connect ECONNREFUSED";
  chat_completions_create := chat_completions_create demo_world;
  select_fault := None;
  insert_fault := None;
  random_rowid := None;
  now := now demo_world;
  toFixed3 := toFixed3 demo_world;
  number_text := number_text demo_world
|}.

Definition demo_chat : list (string * JValue) :=
  [("messages",
    JArr [ JObj [("role", JStr "system"); ("content", JStr "Be brief.")];
           user_says "hi";
           JObj [("role", JStr "assistant"); ("content", JStr "hello")];
           user_says "what is in my notes?" ])].

Definition demo_row (i : Z) (t : Z) (v : list float) : Row :=
  {| id := i; title := Some "note"; content := "text"; embedding := Vector v;
     created_at := t |}.

(* ================================================================= *)
(** ** Magnitudes of binary64 values *)

(** The number of binary digits of an integer mantissa. *)
Definition bits (m : Z) : Z := Zdigits2 m.

(** A value whose magnitude is at least [2^-537], or an infinity, or NaN:
    what a square root that is not a zero always is. *)
Definition far_from_zero (x : spec_float) : Prop :=
  match x with
  | S754_zero _ => False
  | S754_finite _ m e => (-536 <= bits (Zpos m) + e)%Z
  | S754_infinity _ | S754_nan => True
  end.

Definition is_a_zero (x : spec_float) : bool :=
  match x with S754_zero _ => true | _ => false end.

(** The order of binary64 values that are not NaN, as a lexicographic
    order on three integers: the class (infinities outermost, the zeros in
    the middle), then exponent and mantissa, both negated for negative
    values. *)
Definition order_key (x : spec_float) : Z * Z * Z :=
  match x with
  | S754_infinity true => (-2, 0, 0)%Z
  | S754_finite true m e => (-1, - e, - Zpos m)%Z
  | S754_zero _ | S754_nan => (0, 0, 0)%Z
  | S754_finite false m e => (1, e, Zpos m)%Z
  | S754_infinity false => (2, 0, 0)%Z
  end.

Definition key_lt (a b : Z * Z * Z) : Prop :=
  let '(a1, a2, a3) := a in
  let '(b1, b2, b3) := b in
  (a1 < b1 \/ (a1 = b1 /\ (a2 < b2 \/ (a2 = b2 /\ a3 < b3))))%Z.

Definition not_nan (x : spec_float) : Prop :=
  match x with S754_nan => False | _ => True end.

(** The value of a mantissa aligned to a lower exponent, signed. *)
Definition aligned (s : bool) (m : positive) (e ez : Z) : Z :=
  cond_Zopp s (Zpos m * 2 ^ (e - ez))%Z.

(** A value that is not a zero and not NaN, of sign [s]. *)
Definition signed_nonzero (s : bool) (r : spec_float) : Prop :=
  match r with
  | S754_infinity s' | S754_finite s' _ _ => s' = s
  | S754_zero _ | S754_nan => False
  end.

(* ================================================================= *)
(** ** Closed forms of the pipeline's steps *)

(** The moderation step rejects: the call returns a first result whose
    [flagged] is truthy. *)
Definition flagged (w : World) (lastContent : JValue) : bool :=
  match moderations_create w lastContent with
  | Ok {| first_result := Some true |} => true
  | _ => false
  end.

(** What the retrieval step leaves behind on a table [rows]: the context
    text, and the calls it made. *)
Definition retrieval_outcome (w : World) (lastContent : JValue) (rows : list Row)
  : string * list Event :=
  match embeddings_create w lastContent with
  | Throw _ => ("", [EmbeddingCall lastContent])
  | Ok qEmbedding =>
      match select_fault w with
      | Some _ => ("", [EmbeddingCall lastContent; SelectDocuments])
      | None =>
          (context_of w (rank qEmbedding rows),
           [EmbeddingCall lastContent; SelectDocuments])
      end
  end.

(** The response to the outcome of the chat-completion call:
    [res.json({ reply })], or the outer [catch]. *)
Definition completion_response (r : Result (option string)) : Response :=
  match r with
  | Ok content =>
      {| status := 200;
         body := ReplyBody match content with Some s => s | None => "" end |}
  | Throw err =>
      {| status := 500; body := ErrorBody "Internal server error" (Some err) |}
  end.

(** A world that differs in the moderation service only. *)
Definition with_moderation (w : World) (f : JValue -> Result Moderation) : World := {|
  OPENAI_KEY := OPENAI_KEY w;
  MODEL := MODEL w;
  moderations_create := f;
  embeddings_create := embeddings_create w;
  chat_completions_create := chat_completions_create w;
  select_fault := select_fault w;
  insert_fault := insert_fault w;
  random_rowid := random_rowid w;
  now := now w;
  toFixed3 := toFixed3 w;
  number_text := number_text w
|}.

(** [JSON.parse] gives a vector for this row's embedding. *)
Definition parses (r : Row) : bool :=
  match embedding r with Vector _ => true | Malformed => false end.

(** The projection [GET /api/docs] selects. *)
Definition listed (r : Row) : Z * option string * string * Z :=
  (js_number (id r), title r, snippet (content r), created_at r).

(** A moderation service that flags one text and nothing else, and a
    conversation in which that text is the user's and an answer follows
    it. *)
Definition flags_only (text : string) (input : JValue) : Result Moderation :=
  Ok {| first_result := Some (strict_eq_str input text) |}.

Definition wary_world : World := with_moderation demo_world (flags_only "bad").

Definition answered_chat : list (string * JValue) :=
  [("messages",
    JArr [ user_says "bad";
           JObj [("role", JStr "assistant"); ("content", JStr "ok")] ])].

Definition internal_error (err : string) : Response :=
  {| status := 500; body := ErrorBody "Internal server error" (Some err) |}.

(** The chat handler without the plumbing: what one request is answered
    with, the table after it, and the calls made, read off the oracles. *)
Definition chat_outcome (w : World) (req_body : list (string * JValue)) (store : list Row)
  : Response * list Row * list Event :=
  if key_missing w then
    ({| status := 500;
        body := ErrorBody "Server not configured with OPENAI_API_KEY" None |}, store, [])
  else
    let messages := lookup "messages" req_body in
    let model := or_else (lookup "model" req_body) (JStr (MODEL w)) in
    if negb (truthy messages) || negb (isArray messages) then
      ({| status := 400; body := ErrorBody "messages must be an array" None |}, store, [])
    else
      match find_user (List.rev (elements messages)) with
      | Throw e => (internal_error e, store, [])
      | Ok lastUser =>
          match last_content lastUser with
          | Throw e => (internal_error e, store, [])
          | Ok lastContent =>
              if flagged w lastContent then
                (forbidden, store, [ModerationCall lastContent])
              else
                let contextText := fst (retrieval_outcome w lastContent store) in
                let retrieval := snd (retrieval_outcome w lastContent store) in
                match filter_not_system (elements messages) with
                | Throw e =>
                    (internal_error e, store, ModerationCall lastContent :: retrieval)
                | Ok kept =>
                    let finalMessages := system_message contextText :: kept in
                    (completion_response
                       (chat_completions_create w model finalMessages),
                     store,
                     ModerationCall lastContent
                       :: retrieval ++ [CompletionCall model finalMessages])
                end
          end
      end.

(** A value above zero: positive and finite, or [+Infinity]. *)
Definition SFpositive (x : spec_float) : bool :=
  match x with
  | S754_infinity false | S754_finite false _ _ => true
  | _ => false
  end.

(* ================================================================= *)
(** ** Start-up and the key check of continuous integration *)

(** The variables of [process.env] the program reads, each a string or
    unset. *)
Record Env : Type := {
  OPENAI_API_KEY : option string;
  GITHUB_ACTIONS : option string;
  NODE_ENV : option string;
  OPENAI_MODEL : option string
}.

(** ToBoolean of a variable: set and not empty. *)
Definition env_truthy (v : option string) : bool :=
  match v with
  | Some s => negb (String.eqb s "")
  | None => false
  end.

(** [v === s]. *)
Definition env_is (v : option string) (s : string) : bool :=
  match v with
  | Some x => String.eqb x s
  | None => false
  end.

(** [dotenv.config()]: a variable that the [.env] file defines is set,
    unless the environment has it already, be it as the empty string.
    [file] holds what the file defines. *)
Definition dotenv_config (file env : Env) : Env :=
  let pick := fun (v f : option string) => match v with Some _ => v | None => f end in
  {| OPENAI_API_KEY := pick (OPENAI_API_KEY env) (OPENAI_API_KEY file);
     GITHUB_ACTIONS := pick (GITHUB_ACTIONS env) (GITHUB_ACTIONS file);
     NODE_ENV := pick (NODE_ENV env) (NODE_ENV file);
     OPENAI_MODEL := pick (OPENAI_MODEL env) (OPENAI_MODEL file) |}.

(** What the program's own code prints, and the report of an error that
    nothing caught, which holds the error's message. *)
Inductive Console : Type :=
| ConsoleLog (line : string)
| ConsoleWarn (line : string)
| ConsoleError (line : string)
| Uncaught (message : string).

(** The top of [server.js] from the key check to the construction of the
    client, on the environment [dotenv.config()] has left: the process
    exits, or goes on to open the database and to listen, with a key
    (possibly the empty one) and a model name. *)
Inductive Startup : Type :=
| Exited (code : Z) (console : list Console)
| Configured (console : list Console) (key : option string) (model : string).

Definition missing_key_error : string :=
  "ERROR: OPENAI_API_KEY is not set. In CI/production this is required. Please add it as a repository secret (OPENAI_API_KEY) or set NODE_ENV accordingly.".

Definition missing_key_warning : string :=
  "WARNING: OPENAI_API_KEY is not set. Set it in your .env file for local development, or as a repository secret for Actions/production.".

(** What [new OpenAI({ apiKey })] throws when [apiKey] is [undefined] and
    the variable is unset. *)
Definition missing_key_exception : string :=
  "OpenAIError: The OPENAI_API_KEY environment variable is missing or empty; either provide it, or instantiate the OpenAI client with an apiKey option, like new OpenAI({ apiKey: 'My API Key' }).".

(** [new OpenAI({ apiKey: OPENAI_KEY })]: the client is made for every
    key that is a string, the empty one too, and the constructor throws
    for a key that is unset. *)
Definition new_OpenAI (key : option string) : Result unit :=
  match key with
  | Some _ => Ok tt
  | None => Throw missing_key_exception
  end.

Definition startup (env : Env) : Startup :=
  let key := OPENAI_API_KEY env in
  let runningInCI := env_is (GITHUB_ACTIONS env) "true" in
  let runningInProd := env_is (NODE_ENV env) "production" in
  let model := if env_truthy (OPENAI_MODEL env)
               then match OPENAI_MODEL env with Some m => m | None => "gpt-4" end
               else "gpt-4" in
  let console := if negb (env_truthy key) then [ConsoleWarn missing_key_warning]
                 else [] in
  if negb (env_truthy key) && (runningInCI || runningInProd) then
    Exited 1 [ConsoleError missing_key_error]
  else
    match new_OpenAI key with
    | Throw err => Exited 1 (console ++ [Uncaught err])
    | Ok _ => Configured console key model
    end.

(** The handlers' surroundings once start-up has chosen key and model. *)
Definition configured (w : World) (key : option string) (model : string) : World := {|
  OPENAI_KEY := key;
  MODEL := model;
  moderations_create := moderations_create w;
  embeddings_create := embeddings_create w;
  chat_completions_create := chat_completions_create w;
  select_fault := select_fault w;
  insert_fault := insert_fault w;
  random_rowid := random_rowid w;
  now := now w;
  toFixed3 := toFixed3 w;
  number_text := number_text w
|}.

(** [scripts/check-secret.js]: the exit code and what is printed. *)
Definition check_secret (env : Env) : Z * list Console :=
  if env_truthy (OPENAI_API_KEY env) then
    (0%Z, [ConsoleLog "OPENAI_API_KEY is set (value redacted)."])
  else
    (1%Z, [ConsoleError "ERROR: OPENAI_API_KEY is not set in the environment.";
           ConsoleError "Please add it in repository Settings → Secrets and variables → Actions → New repository secret (name: OPENAI_API_KEY)."]).

(** What a run of the start-up shows: its exit code, if it exits, and the
    lines it prints. *)
Definition startup_shows (s : Startup) : option Z * list Console :=
  match s with
  | Exited code console => (Some code, console)
  | Configured console _ _ => (None, console)
  end.

(* ================================================================= *)
(** ** The page: public/app.js *)

(** The script of the page keeps the conversation in the array [messages],
    shows it in [chatEl], and talks to the two endpoints with [fetch].
    Strings are sequences of code units below 256. An [async] function runs
    without interruption up to an [await] and again after it, so
    [sendMessage] is two steps: one that ends by issuing the request, one
    that runs when the request has settled. *)
Module App.

(** An entry of [messages]: [{ role, content }]. *)
Record Message : Type := { role : string; content : string }.

Definition system_prompt : Message :=
  {| role := "system";
     content := "You are a helpful, concise, and friendly AI assistant. Ask clarifying questions when needed." |}.

(** A child of [chatEl]. *)
Record Div : Type := { classList : list string; textContent : string }.

(** The children [renderMessages] leaves in [chatEl]: one per entry of
    [messages.slice(1)]. *)
Definition renderMessages (msgs : list Message) : list Div :=
  map (fun m =>
         {| classList := ["message";
                          if String.eqb (role m) "user" then "user" else "assistant"];
            textContent := content m |})
      (skipn 1 msgs).

(** White space and line terminators among the code units below 256. *)
Definition is_space (c : ascii) : bool :=
  let n := nat_of_ascii c in
  ((9 <=? n) && (n <=? 13) || (n =? 32) || (n =? 160))%nat.

Fixpoint trim_start (s : string) : string :=
  match s with
  | EmptyString => EmptyString
  | String c rest => if is_space c then trim_start rest else s
  end.

Fixpoint trim_end (s : string) : string :=
  match s with
  | EmptyString => EmptyString
  | String c rest =>
      match trim_end rest with
      | EmptyString => if is_space c then EmptyString else String c EmptyString
      | kept => String c kept
      end
  end.

(** [s.trim()]. *)
Definition trim (s : string) : string := trim_end (trim_start s).

Record Page : Type := {
  messages : list Message;
  chatEl : list Div;
  input : string;
  modelInput : string
}.

(** The page once the script has run: only the system prompt, nothing
    shown, the two boxes as the document has them. *)
Definition loaded (input_value model_value : string) : Page :=
  {| messages := [system_prompt];
     chatEl := renderMessages [system_prompt];
     input := input_value;
     modelInput := model_value |}.

Definition push (m : Message) (p : Page) : Page :=
  {| messages := messages p ++ [m]; chatEl := chatEl p;
     input := input p; modelInput := modelInput p |}.

(** [messages.pop()]. *)
Definition pop (p : Page) : Page :=
  {| messages := removelast (messages p); chatEl := chatEl p;
     input := input p; modelInput := modelInput p |}.

Definition render (p : Page) : Page :=
  {| messages := messages p; chatEl := renderMessages (messages p);
     input := input p; modelInput := modelInput p |}.

Definition set_input (v : string) (p : Page) : Page :=
  {| messages := messages p; chatEl := chatEl p;
     input := v; modelInput := modelInput p |}.

Definition set_model (v : string) (p : Page) : Page :=
  {| messages := messages p; chatEl := chatEl p;
     input := input p; modelInput := v |}.

Definition typing : Message := {| role := "assistant"; content := "..." |}.

Definition to_json (m : Message) : JValue :=
  JObj [("role", JStr (role m)); ("content", JStr (content m))].

(** [{ messages }], with [model] when the model box is not blank; this is
    what [JSON.stringify] writes and [express.json()] reads back. *)
Definition payload (msgs : list Message) (modelVal : string) : list (string * JValue) :=
  ("messages", JArr (map to_json msgs))
  :: (if String.eqb modelVal "" then [] else [("model", JStr modelVal)]).

(** [sendMessage] up to [fetch]: the page after, and the body posted to
    [/api/chat]. *)
Definition sendMessage_request (text : string) (p : Page)
  : Page * list (string * JValue) :=
  let p1 := render (push {| role := "user"; content := text |} p) in
  let p2 := render (push typing p1) in
  (p2, payload (messages p2) (trim (modelInput p2))).

(** How a request settles: [fetch] or [res.json()] rejects with an error
    of the given message, or the body parses to [data] and [res.ok] is
    known. *)
Inductive Fetched : Type :=
| Rejected (message : string)
| Resolved (ok : bool) (data : JValue).

(** What the page leaves to the browser: [String(v)] of a value that is
    not a string, and the message of the [TypeError] that
    [data.reply.trim()] throws on a given [data]. *)
Record Browser : Type := {
  String_of : JValue -> string;
  type_error : JValue -> string
}.

(** [data?.error]. *)
Definition optional_error (data : JValue) : JValue :=
  match data with
  | JObj props => lookup "error" props
  | _ => JUndefined
  end.

(** The message of [new Error(data?.error || "Server error")]. *)
Definition error_message (b : Browser) (data : JValue) : string :=
  match or_else (optional_error data) (JStr "Server error") with
  | JStr s => s
  | v => String_of b v
  end.

(** [data.reply.trim()], when it does not throw. *)
Definition reply_of (data : JValue) : option string :=
  match data with
  | JObj props =>
      match lookup "reply" props with
      | JStr r => Some (trim r)
      | _ => None
      end
  | _ => None
  end.

Definition says (text : string) : Message := {| role := "assistant"; content := text |}.

(** [sendMessage] from the settled request on. When [data.reply.trim()]
    throws, [messages.pop()] has already run once and the [catch] block
    runs it again. *)
Definition sendMessage_settle (b : Browser) (f : Fetched) (p : Page) : Page :=
  match f with
  | Rejected message => render (push (says ("Error: " ++ message)) (pop p))
  | Resolved false data =>
      render (push (says ("Error: " ++ error_message b data)) (pop p))
  | Resolved true data =>
      match reply_of data with
      | Some reply => render (push (says reply) (pop p))
      | None => render (push (says ("Error: " ++ type_error b data)) (pop (pop p)))
      end
  end.

(** [sendMessage] with nothing else happening before the request
    settles. *)
Definition sendMessage (b : Browser) (fetch : list (string * JValue) -> Fetched)
    (text : string) (p : Page) : Page :=
  let (p', body) := sendMessage_request text p in
  sendMessage_settle b (fetch body) p'.

(** The [submit] listener of the form: the page after, and the body
    posted, if any. *)
Definition submit (p : Page) : Page * option (list (string * JValue)) :=
  let text := trim (input p) in
  if String.eqb text "" then (p, None)
  else
    let (p', body) := sendMessage_request text (set_input "" p) in
    (p', Some body).

(** The [click] listener of the add button, up to [fetch]: the body posted
    to [/api/docs], or none when the text is blank. *)
Definition add_doc_request (docTitle docContent : string)
  : option (list (string * JValue)) :=
  let title := trim docTitle in
  let content := trim docContent in
  if String.eqb content "" then None
  else Some [("title", JStr title); ("content", JStr content)].

(** What can happen on the page: the user edits a box or submits the form,
    or a request in flight settles. *)
Inductive Action : Type :=
| Typed (value : string)
| ModelTyped (value : string)
| Submit
| Settled (f : Fetched).

Record Session : Type := { page : Page; in_flight : nat }.

Definition act (b : Browser) (s : Session) (a : Action) : Session :=
  match a with
  | Typed v => {| page := set_input v (page s); in_flight := in_flight s |}
  | ModelTyped v => {| page := set_model v (page s); in_flight := in_flight s |}
  | Submit =>
      match submit (page s) with
      | (p, Some _) => {| page := p; in_flight := S (in_flight s) |}
      | (p, None) => {| page := p; in_flight := in_flight s |}
      end
  | Settled f =>
      match in_flight s with
      | O => s
      | S n => {| page := sendMessage_settle b f (page s); in_flight := n |}
      end
  end.

Definition session (b : Browser) (input_value model_value : string)
    (actions : list Action) : Session :=
  fold_left (act b) actions
    {| page := loaded input_value model_value; in_flight := 0 |}.

(** What holds of the page at every moment: the system prompt comes first
    and is the only entry that is not the user's or the assistant's, every
    request in flight has two entries behind the prompt, and the chat
    shows what [renderMessages] made of the conversation. *)
Definition in_order (s : Session) : Prop :=
  exists rest,
    messages (page s) = system_prompt :: rest
    /\ Forall (fun m => role m = "user" \/ role m = "assistant") rest
    /\ (2 * in_flight s <= List.length rest)%nat
    /\ chatEl (page s) = renderMessages (messages (page s)).

End App.

(* ================================================================= *)
(** ** The page against the server *)

(** [res.ok]. *)
Definition response_ok (r : Response) : bool :=
  ((200 <=? status r) && (status r <=? 299))%nat.

(** An integer as a number. *)
Definition number_of_Z (z : Z) : float :=
  SF2Prim (binary_normalize prec emax z 0 false).

(** The body [res.json(..)] writes. Row ids are numbers; [date_text] is the
    text the database gives for a creation time. *)
Definition body_json (date_text : Z -> string) (b : Body) : JValue :=
  match b with
  | ErrorBody error None => JObj [("error", JStr error)]
  | ErrorBody error (Some details) =>
      JObj [("error", JStr error); ("details", JStr details)]
  | ReplyBody reply => JObj [("reply", JStr reply)]
  | AddedBody new_id =>
      JObj [("ok", JBool true); ("id", JNum (number_of_Z new_id))]
  | ListBody data =>
      JObj [("data",
             JArr (map (fun '(i, t, s, c) =>
                          JObj [("id", JNum (number_of_Z i));
                                ("title", match t with Some x => JStr x | None => JNull end);
                                ("snippet", JStr s);
                                ("created_at", JStr (date_text c))])
                       data))]
  end.

(** [fetch("/api/chat", ..)] answered by the chat handler on a table. *)
Definition fetch_chat (date_text : Z -> string) (w : World) (store : list Row)
    (req_body : list (string * JValue)) : App.Fetched :=
  let resp := fst (fst (serve (post_chat w req_body) store)) in
  App.Resolved (response_ok resp) (body_json date_text (body resp)).

(* ================================================================= *)
(** * Properties *)

(** ** The dot-product loop *)

Section DotLoop.
Context {F : Type} `{Arith F}.

Lemma dot_loop_shift (x : F) (a b : list F) (n i : nat) (s : F) :
  dot_loop (x :: a) b (S i) n s = dot_loop a (tl b) i n s.
Proof.
  revert i s. induction n as [|n IH]; intros i s; simpl; [reflexivity|].
  rewrite IH. f_equal. f_equal. f_equal.
  destruct b as [|y b]; simpl; [destruct i; reflexivity|reflexivity].
Qed.

Lemma dot_loop_is_dot_acc (a b : list F) (s : F) :
  dot_loop a b 0 (List.length a) s = dot_acc s a b.
Proof.
  revert b s. induction a as [|x a IH]; intros b s; simpl; [reflexivity|].
  rewrite dot_loop_shift, IH. f_equal. f_equal. f_equal.
  destruct b; reflexivity.
Qed.

Lemma dot_is_dot_acc (a b : list F) : dot a b = dot_acc num0 a b.
Proof. apply dot_loop_is_dot_acc. Qed.

(** The loop reads [b] only below [a.length]. *)
Lemma dot_acc_prefix (a b : list F) (s : F) :
  dot_acc s a b = dot_acc s a (firstn (List.length a) b).
Proof.
  revert b s. induction a as [|x a IH]; intros b s; simpl; [reflexivity|].
  destruct b as [|y b]; simpl; [reflexivity|]. apply IH.
Qed.

Lemma dot_prefix (a b : list F) : dot a b = dot a (firstn (List.length a) b).
Proof. rewrite !dot_is_dot_acc. apply dot_acc_prefix. Qed.
End DotLoop.

(** ** Binary64 facts: NaN *)

Local Open Scope float_scope.

Lemma mul_nan_r (x : float) : x * nan = nan.
Proof.
  apply Prim2SF_inj. rewrite mul_spec.
  change (Prim2SF nan) with S754_nan. destruct (Prim2SF x); reflexivity.
Qed.

Lemma add_nan_l (x : float) : nan + x = nan.
Proof.
  apply Prim2SF_inj. rewrite add_spec.
  change (Prim2SF nan) with S754_nan. reflexivity.
Qed.

Lemma add_nan_r (x : float) : x + nan = nan.
Proof.
  apply Prim2SF_inj. rewrite add_spec.
  change (Prim2SF nan) with S754_nan. destruct (Prim2SF x); reflexivity.
Qed.

Lemma div_nan_l (x : float) : nan / x = nan.
Proof.
  apply Prim2SF_inj. rewrite div_spec.
  change (Prim2SF nan) with S754_nan. reflexivity.
Qed.

Lemma ltb_nan_r (x : float) : (x <? nan) = false.
Proof.
  rewrite ltb_spec. change (Prim2SF nan) with S754_nan.
  unfold SFltb. destruct (Prim2SF x); reflexivity.
Qed.

Lemma dot_acc_nan (a b : list float) : dot_acc nan a b = nan.
Proof.
  revert b. induction a as [|x a IH]; intros b; simpl; [reflexivity|].
  rewrite add_nan_l. apply IH.
Qed.

(** A second vector shorter than the first makes the sum NaN: the first
    read past its end multiplies by [undefined]. *)
Lemma dot_acc_short (a b : list float) (s : float) :
  (List.length b < List.length a)%nat -> dot_acc s a b = nan.
Proof.
  revert b s. induction a as [|x a IH]; intros b s Hlen; simpl in *; [lia|].
  destruct b as [|y b]; simpl in *.
  - rewrite mul_nan_r, add_nan_r. apply dot_acc_nan.
  - apply IH. lia.
Qed.

Lemma dot_short (a b : list float) :
  (List.length b < List.length a)%nat -> dot a b = nan.
Proof. intros Hlen. rewrite dot_is_dot_acc. now apply dot_acc_short. Qed.

(** ** Binary64 facts: rounding never loses a whole number

    The operations of [SpecFloat] round a positive integer mantissa [m] at
    exponent [e] through [binary_round_aux]. Writing [digits m + e] for the
    magnitude of [m * 2^e], rounding never lowers the magnitude, and the
    result is a zero only when the magnitude is below that of the smallest
    subnormal. *)

Section Rounding64.
Local Open Scope Z_scope.

Lemma digits_log2 (p : positive) :
  Zpos (digits2_pos p) = Z.log2 (Zpos p) + 1.
Proof.
  assert (Hsize : forall q, digits2_pos q = Pos.size q).
  { induction q as [q IH|q IH|]; simpl; congruence. }
  rewrite Hsize. destruct p; simpl; lia.
Qed.

Lemma bits_log2 (p : positive) : bits (Zpos p) = Z.log2 (Zpos p) + 1.
Proof. apply digits_log2. Qed.

Lemma bits_pos (p : positive) : 0 < bits (Zpos p).
Proof. rewrite bits_log2. pose proof (Z.log2_nonneg (Zpos p)). lia. Qed.

Lemma bits_mono (a b : Z) : 0 < a -> a <= b -> bits a <= bits b.
Proof.
  intros Ha Hab. destruct a as [|p|p]; try lia. destruct b as [|q|q]; try lia.
  rewrite !bits_log2.
  pose proof (Z.log2_le_mono (Zpos p) (Zpos q) Hab). lia.
Qed.

Lemma iter_pos_nat {A : Type} (f : A -> A) (p : positive) (x : A) :
  SpecFloat.iter_pos f p x = Nat.iter (Pos.to_nat p) f x.
Proof.
  revert x. induction p as [p IH|p IH|]; intros x.
  - change (SpecFloat.iter_pos f p~1 x)
      with (SpecFloat.iter_pos f p (SpecFloat.iter_pos f p (f x))).
    rewrite !IH, Pos2Nat.inj_xI, Nat.iter_succ_r.
    replace (2 * Pos.to_nat p)%nat with (Pos.to_nat p + Pos.to_nat p)%nat by lia.
    now rewrite Nat.iter_add.
  - change (SpecFloat.iter_pos f p~0 x)
      with (SpecFloat.iter_pos f p (SpecFloat.iter_pos f p x)).
    rewrite !IH, Pos2Nat.inj_xO.
    replace (2 * Pos.to_nat p)%nat with (Pos.to_nat p + Pos.to_nat p)%nat by lia.
    now rewrite Nat.iter_add.
  - reflexivity.
Qed.

Lemma shr_1_halves (r : shr_record) :
  0 <= shr_m r -> shr_m (shr_1 r) = Z.div2 (shr_m r).
Proof.
  destruct r as [m rb sb]. simpl. destruct m as [|[p|p|]|p]; simpl; intros; try reflexivity; lia.
Qed.

Lemma shr_iter_shifts (k : nat) (r : shr_record) :
  0 <= shr_m r ->
  shr_m (Nat.iter k shr_1 r) = Z.shiftr (shr_m r) (Z.of_nat k).
Proof.
  intros Hr. induction k as [|k IH].
  - simpl. now rewrite Z.shiftr_0_r.
  - rewrite Nat2Z.inj_succ. simpl Nat.iter.
    rewrite shr_1_halves; [|rewrite IH; apply Z.shiftr_nonneg; exact Hr].
    rewrite IH, Z.div2_spec, Z.shiftr_shiftr by lia. reflexivity.
Qed.

Lemma shr_record_of_loc_m (m : Z) (l : location) : shr_m (shr_record_of_loc m l) = m.
Proof. destruct l as [|[]]; reflexivity. Qed.

(** Shifting a mantissa to its canonical exponent keeps its magnitude, as
    long as that is above the smallest subnormal's. *)
Lemma shr_fexp_keeps_magnitude (p : positive) (e : Z) (l : location) :
  -1074 < bits (Zpos p) + e ->
  exists r e1 p1,
    shr_fexp prec emax (Zpos p) e l = (r, e1)
    /\ shr_m r = Zpos p1
    /\ bits (Zpos p1) + e1 = bits (Zpos p) + e.
Proof.
  intros Hmag. unfold shr_fexp, shr.
  change (Zdigits2 (Zpos p)) with (bits (Zpos p)).
  destruct (fexp prec emax (bits (Zpos p) + e) - e) as [|q|q] eqn:En.
  - exists (shr_record_of_loc (Zpos p) l), e, p.
    rewrite shr_record_of_loc_m. auto.
  - rewrite iter_pos_nat.
    assert (H0 : 0 <= shr_m (shr_record_of_loc (Zpos p) l))
      by (rewrite shr_record_of_loc_m; lia).
    pose proof (shr_iter_shifts (Pos.to_nat q) _ H0) as Hs.
    rewrite shr_record_of_loc_m, positive_nat_Z in Hs.
    assert (Hq : Zpos q <= Z.log2 (Zpos p)).
    { rewrite bits_log2 in *. unfold fexp, SpecFloat.emin, prec, emax in En. lia. }
    pose proof (Z.log2_shiftr (Zpos p) (Zpos q) eq_refl) as Hl.
    destruct (Z.shiftr (Zpos p) (Zpos q)) as [|p1|p1] eqn:Ep.
    + exfalso. apply Z.shiftr_eq_0_iff in Ep. lia.
    + exists (Nat.iter (Pos.to_nat q) shr_1 (shr_record_of_loc (Zpos p) l)),
        (e + Zpos q), p1.
      split; [reflexivity|]. split; [exact Hs|].
      rewrite !bits_log2, Hl. lia.
    + exfalso. pose proof (Z.shiftr_nonneg (Zpos p) (Zpos q)). lia.
  - exists (shr_record_of_loc (Zpos p) l), e, p.
    rewrite shr_record_of_loc_m. auto.
Qed.

Lemma round_nearest_even_grows (m : Z) (l : location) :
  m <= round_nearest_even m l <= m + 1.
Proof.
  destruct l as [|[]]; simpl; try lia. destruct (Z.even m); lia.
Qed.

(** Rounding a positive mantissa whose magnitude is above the smallest
    subnormal's gives a finite value of at least that magnitude, or an
    infinity; never a zero, never NaN, and the sign is the one asked for. *)
Lemma binary_round_aux_keeps_magnitude (s : bool) (p : positive) (e : Z) (l : location) :
  -1074 < bits (Zpos p) + e ->
  binary_round_aux prec emax s (Zpos p) e l = S754_infinity s
  \/ exists m' e',
       binary_round_aux prec emax s (Zpos p) e l = S754_finite s m' e'
       /\ bits (Zpos p) + e <= bits (Zpos m') + e'.
Proof.
  intros Hmag. unfold binary_round_aux.
  destruct (shr_fexp_keeps_magnitude p e l Hmag) as (r1 & e1 & p1 & -> & Hm1 & Hb1).
  rewrite Hm1.
  pose proof (round_nearest_even_grows (Zpos p1) (loc_of_shr_record r1)) as Hr.
  destruct (round_nearest_even (Zpos p1) (loc_of_shr_record r1)) as [|p2|p2] eqn:E2;
    try lia.
  assert (Hb2 : bits (Zpos p1) <= bits (Zpos p2)) by (apply bits_mono; lia).
  destruct (shr_fexp_keeps_magnitude p2 e1 loc_Exact) as (r3 & e3 & p3 & -> & Hm3 & Hb3);
    [lia|].
  rewrite Hm3.
  destruct (e3 <=? emax - prec); [right|left; reflexivity].
  exists p3, e3. split; [reflexivity|lia].
Qed.

Lemma bounded_exponent (m : positive) (e : Z) :
  SpecFloat.bounded prec emax m e = true ->
  -1074 <= e /\ bits (Zpos m) <= 53 /\ (e = -1074 \/ bits (Zpos m) = 53).
Proof.
  unfold SpecFloat.bounded, canonical_mantissa, fexp, SpecFloat.emin, prec, emax.
  change (Zpos (digits2_pos m)) with (bits (Zpos m)).
  intros H. apply andb_prop in H. destruct H as [H _].
  apply Z.eqb_eq in H. lia.
Qed.

(** The integer square root taken by [SFsqrt]: of a valid positive value
    it has magnitude at least [2^-537]. *)
Lemma sqrt_core_magnitude (m : positive) (e : Z) :
  SpecFloat.bounded prec emax m e = true ->
  exists q e' l,
    SFsqrt_core_binary prec emax (Zpos m) e = (Zpos q, e', l)
    /\ -536 <= bits (Zpos q) + e'.
Proof.
  intros Hb. destruct (bounded_exponent m e Hb) as (He & _ & _).
  pose proof (bits_pos m) as Hd. unfold SFsqrt_core_binary.
  change (Zdigits2 (Zpos m)) with (bits (Zpos m)).
  set (e' := Z.min (fexp prec emax (Z.div2 (bits (Zpos m) + e + 1))) (Z.div2 e)).
  assert (He' : 2 * e' <= e).
  { pose proof (Z.le_min_r (fexp prec emax (Z.div2 (bits (Zpos m) + e + 1))) (Z.div2 e))
      as Hmin.
    fold e' in Hmin. rewrite Z.div2_div in Hmin.
    pose proof (Z.mul_div_le e 2 eq_refl). lia. }
  set (sh := e - 2 * e') in *.
  set (m' := match sh with Zpos _ => Z.shiftl (Zpos m) sh | 0 => Zpos m | Zneg _ => 0 end).
  assert (Hm' : m' = Zpos m * 2 ^ sh).
  { unfold m'. destruct sh as [|p|p] eqn:Es; try lia.
    rewrite Z.shiftl_mul_pow2; lia. }
  pose proof (Z.sqrtrem_sqrt m') as Hq.
  destruct (Z.sqrtrem m') as [q r]. simpl in Hq. subst q.
  set (L := Z.log2 (Zpos m)) in *.
  assert (HL : 0 <= L) by apply Z.log2_nonneg.
  set (k := (L + sh) / 2).
  assert (Hk : 0 <= k) by (unfold k; apply Z.div_pos; lia).
  assert (Hpow : 2 ^ k * 2 ^ k <= m').
  { rewrite <- Z.pow_add_r by lia. rewrite Hm'.
    apply Z.le_trans with (2 ^ (L + sh)).
    - apply Z.pow_le_mono_r; [lia|].
      pose proof (Z.mul_div_le (L + sh) 2 eq_refl) as Hgk. fold k in Hgk. lia.
    - rewrite Z.pow_add_r by lia. apply Z.mul_le_mono_nonneg_r; [lia|].
      apply (Z.log2_spec (Zpos m)). lia. }
  assert (Hm'pos : 0 <= m') by (rewrite Hm'; lia).
  assert (H2k : 0 < 2 ^ k) by (apply Z.pow_pos_nonneg; lia).
  apply Z.sqrt_le_square in Hpow; [|exact Hm'pos|lia].
  destruct (Z.sqrt m') as [|q|q] eqn:Eq; try lia.
  eexists q, e', _. split; [reflexivity|].
  assert (Hlog : k <= Z.log2 (Zpos q)) by (apply Z.log2_le_pow2; lia).
  rewrite bits_log2. rewrite bits_log2 in Hd. fold L in Hd.
  assert (Hhalf : L + sh - 1 <= 2 * k).
  { pose proof (Z.div_mod (L + sh) 2 ltac:(lia)) as Hdm.
    pose proof (Z.mod_pos_bound (L + sh) 2 eq_refl) as Hmb. fold k in Hdm. lia. }
  unfold sh in Hhalf. lia.
Qed.

(** A square root is a zero or far from zero. *)
Lemma SFsqrt_far_from_zero (x : spec_float) :
  valid_binary x = true ->
  is_a_zero (SF64sqrt x) = true \/ far_from_zero (SF64sqrt x).
Proof.
  destruct x as [s|[|]| |[|] m e]; simpl; auto.
  intros Hb. right.
  destruct (sqrt_core_magnitude m e Hb) as (q & e' & l & Hcore & Hmag).
  unfold SF64sqrt, SFsqrt. rewrite Hcore.
  assert (Hq : -1074 < bits (Zpos q) + e') by lia.
  destruct (binary_round_aux_keeps_magnitude false q e' l Hq) as [->|(m2 & e2 & -> & H2)].
  - exact I.
  - unfold far_from_zero. lia.
Qed.

(** The product of two values far from zero is not a zero: the smallest
    such product is the smallest subnormal. *)
Lemma SFmul_far_from_zero (x y : spec_float) :
  far_from_zero x -> far_from_zero y -> is_a_zero (SF64mul x y) = false.
Proof.
  destruct x as [sx|sx| |sx mx ex]; destruct y as [sy|sy| |sy my ey];
    unfold far_from_zero; try tauto; try reflexivity.
  intros Hx Hy. unfold SF64mul, SFmul.
  assert (Hmag : -1074 < bits (Zpos (mx * my)) + (ex + ey)).
  { rewrite bits_log2 in *.
    pose proof (Z.log2_mul_below (Zpos mx) (Zpos my) eq_refl eq_refl) as Hl.
    change (Zpos mx * Zpos my) with (Zpos (mx * my)) in Hl. lia. }
  destruct (binary_round_aux_keeps_magnitude (xorb sx sy) (mx * my) (ex + ey) loc_Exact
              Hmag) as [->|(m2 & e2 & -> & _)]; reflexivity.
Qed.
End Rounding64.

Lemma is_zero_spec (z : float) : (z =? 0) = is_a_zero (Prim2SF z).
Proof.
  rewrite eqb_spec. change (Prim2SF 0) with (S754_zero false).
  destruct (Prim2SF z) as [s|[|]| |[|] m e]; reflexivity.
Qed.

(** The divisor of [cosineSim]: the product of two square roots, neither
    of them a zero, is not a zero. *)
Lemma product_of_roots_is_not_zero (u v : float) :
  (PrimFloat.sqrt u =? 0) = false -> (PrimFloat.sqrt v =? 0) = false ->
  (PrimFloat.sqrt u * PrimFloat.sqrt v =? 0) = false.
Proof.
  rewrite !is_zero_spec, mul_spec, !sqrt_spec. intros Hu Hv.
  destruct (SFsqrt_far_from_zero (Prim2SF u) (Prim2SF_valid u)) as [Hz|Hfu];
    [congruence|].
  destruct (SFsqrt_far_from_zero (Prim2SF v) (Prim2SF_valid v)) as [Hz|Hfv];
    [congruence|].
  now apply SFmul_far_from_zero.
Qed.

(** ** Binary64 facts: order and the sign of a difference *)

Section Order64.
Local Open Scope Z_scope.

Lemma SFltb_key (x y : spec_float) :
  not_nan x -> not_nan y ->
  (SFltb x y = true <-> key_lt (order_key x) (order_key y)).
Proof.
  unfold SFltb, key_lt.
  destruct x as [sx|[|]| |[|] mx ex]; destruct y as [sy|[|]| |[|] my ey];
    simpl; try tauto; intros _ _;
    try (split; [discriminate|lia]); try (split; [lia|reflexivity]).
  - change (Pos.compare_cont Eq mx my) with (Pos.compare mx my).
    destruct (Z.compare_spec ex ey); [destruct (Pos.compare_spec mx my)| |];
      simpl; split; intros; try discriminate; try reflexivity; lia.
  - change (Pos.compare_cont Eq mx my) with (Pos.compare mx my).
    destruct (Z.compare_spec ex ey); [destruct (Pos.compare_spec mx my)| |];
      simpl; split; intros; try discriminate; try reflexivity; lia.
Qed.

Lemma SFeqb_key (x y : spec_float) :
  SFeqb x y = true -> order_key x = order_key y.
Proof.
  unfold SFeqb.
  destruct x as [sx|[|]| |[|] mx ex]; destruct y as [sy|[|]| |[|] my ey];
    simpl; try discriminate; try reflexivity.
  - change (Pos.compare_cont Eq mx my) with (Pos.compare mx my).
    destruct (Z.compare_spec ex ey); [destruct (Pos.compare_spec mx my)| |];
      simpl; try discriminate. subst. reflexivity.
  - change (Pos.compare_cont Eq mx my) with (Pos.compare mx my).
    destruct (Z.compare_spec ex ey); [destruct (Pos.compare_spec mx my)| |];
      simpl; try discriminate. subst. reflexivity.
Qed.

Lemma SFleb_key (x y : spec_float) :
  not_nan x -> not_nan y ->
  (SFleb x y = true <-> ~ key_lt (order_key y) (order_key x)).
Proof.
  unfold SFleb, key_lt.
  destruct x as [sx|[|]| |[|] mx ex]; destruct y as [sy|[|]| |[|] my ey];
    simpl; try tauto; intros _ _;
    try (split; [discriminate|lia]); try (split; [lia|reflexivity]).
  - change (Pos.compare_cont Eq mx my) with (Pos.compare mx my).
    destruct (Z.compare_spec ex ey); [destruct (Pos.compare_spec mx my)| |];
      simpl; split; intros; try discriminate; try reflexivity; lia.
  - change (Pos.compare_cont Eq mx my) with (Pos.compare mx my).
    destruct (Z.compare_spec ex ey); [destruct (Pos.compare_spec mx my)| |];
      simpl; split; intros; try discriminate; try reflexivity; lia.
Qed.
End Order64.

Section Difference64.
Local Open Scope Z_scope.

Lemma iter_xO_pow (m d : positive) :
  Zpos (Pos.iter xO m d) = Zpos m * 2 ^ Zpos d.
Proof.
  induction d as [|d IH] using Pos.peano_ind.
  - simpl. lia.
  - rewrite Pos.iter_succ, Pos2Z.inj_succ, Z.pow_succ_r by lia.
    rewrite Pos2Z.inj_xO, IH. lia.
Qed.

Lemma shl_align_fst (mx : positive) (ex ez : Z) :
  ez <= ex -> Zpos (fst (shl_align mx ex ez)) = Zpos mx * 2 ^ (ex - ez).
Proof.
  intros Hle. unfold shl_align. destruct (ez - ex) as [|d|d] eqn:Ed; simpl.
  - replace (ex - ez) with 0 by lia. rewrite Z.pow_0_r. lia.
  - lia.
  - replace (ex - ez) with (Zpos d) by lia. apply iter_xO_pow.
Qed.

Lemma shl_align_magnitude (mx : positive) (ex ez : Z) :
  bits (Zpos (fst (shl_align mx ex ez))) + snd (shl_align mx ex ez)
    = bits (Zpos mx) + ex.
Proof.
  unfold shl_align. destruct (ez - ex) as [|d|d] eqn:Ed; cbn [fst snd];
    try reflexivity.
  rewrite !bits_log2, iter_xO_pow, Z.log2_mul_pow2 by lia. lia.
Qed.

(** Rounding a non-zero integer at an exponent a valid value can have gives
    a value of the same sign: there is no underflow to zero. *)
Lemma binary_round_sign (s : bool) (m : positive) (e : Z) :
  -1074 <= e -> signed_nonzero s (binary_round prec emax s m e).
Proof.
  intros He. unfold binary_round.
  pose proof (shl_align_magnitude m e (fexp prec emax (Zpos (digits2_pos m) + e))) as Hm.
  destruct (shl_align m e (fexp prec emax (Zpos (digits2_pos m) + e))) as [mz ez].
  cbn [fst snd] in Hm. pose proof (bits_pos m) as Hp.
  assert (Hmag : -1074 < bits (Zpos mz) + ez) by lia.
  destruct (binary_round_aux_keeps_magnitude s mz ez loc_Exact Hmag)
    as [->|(m' & e' & -> & _)]; reflexivity.
Qed.

Lemma binary_normalize_sign (d e : Z) :
  -1074 <= e ->
  match d with
  | 0 => binary_normalize prec emax d e false = S754_zero false
  | Zpos _ => signed_nonzero false (binary_normalize prec emax d e false)
  | Zneg _ => signed_nonzero true (binary_normalize prec emax d e false)
  end.
Proof.
  intros He. destruct d; simpl; [reflexivity| |]; now apply binary_round_sign.
Qed.

Lemma signed_nonzero_ltb_zero (s : bool) (r : spec_float) :
  signed_nonzero s r -> r <> S754_nan /\ SFltb r (S754_zero false) = s.
Proof.
  destruct r as [s'|s'| |s' m e]; simpl; try tauto; intros ->;
    (split; [discriminate|destruct s; reflexivity]).
Qed.

(** Of two valid positive values the one with the larger exponent is the
    larger. *)
Lemma larger_exponent_is_larger (mx my : positive) (ex ey : Z) :
  SpecFloat.bounded prec emax mx ex = true ->
  SpecFloat.bounded prec emax my ey = true ->
  ex < ey -> Zpos mx < Zpos my * 2 ^ (ey - ex).
Proof.
  intros Hx Hy Hlt.
  destruct (bounded_exponent mx ex Hx) as (Hex & Hbx & _).
  destruct (bounded_exponent my ey Hy) as (_ & _ & [Hey|Hby]); [lia|].
  rewrite bits_log2 in *.
  assert (H1 : Zpos mx < 2 ^ 53) by (apply Z.log2_lt_pow2; lia).
  assert (H2 : 2 ^ 52 <= Zpos my) by (apply Z.log2_le_pow2; lia).
  assert (H3 : 2 ^ 1 <= 2 ^ (ey - ex)) by (apply Z.pow_le_mono_r; lia).
  change (2 ^ 53) with (2 ^ 52 * 2 ^ 1) in H1.
  apply Z.lt_le_trans with (2 ^ 52 * 2 ^ 1); [exact H1|].
  apply Z.mul_le_mono_nonneg; lia.
Qed.

Lemma finite_lt_aligned (sx sy : bool) (mx my : positive) (ex ey : Z) :
  SpecFloat.bounded prec emax mx ex = true ->
  SpecFloat.bounded prec emax my ey = true ->
  (SFltb (S754_finite sx mx ex) (S754_finite sy my ey) = true
   <-> aligned sx mx ex (Z.min ex ey) - aligned sy my ey (Z.min ex ey) < 0).
Proof.
  intros Hx Hy. rewrite SFltb_key by exact I.
  unfold aligned, cond_Zopp.
  destruct (Z.lt_trichotomy ex ey) as [H|[H|H]].
  - rewrite Z.min_l by lia. replace (ex - ex) with 0 by lia.
    rewrite Z.pow_0_r, Z.mul_1_r.
    pose proof (larger_exponent_is_larger mx my ex ey Hx Hy H) as Hl.
    set (Y := Zpos my * 2 ^ (ey - ex)) in *.
    destruct sx, sy; unfold key_lt, order_key; lia.
  - subst ey. rewrite Z.min_id. replace (ex - ex) with 0 by lia.
    rewrite Z.pow_0_r, !Z.mul_1_r.
    destruct sx, sy; unfold key_lt, order_key; lia.
  - rewrite Z.min_r by lia. replace (ey - ey) with 0 by lia.
    rewrite Z.pow_0_r, Z.mul_1_r.
    pose proof (larger_exponent_is_larger my mx ey ex Hy Hx H) as Hl.
    set (X := Zpos mx * 2 ^ (ex - ey)) in *.
    destruct sx, sy; unfold key_lt, order_key; lia.
Qed.

(** The sign of a difference decides the order: for values that are not
    NaN, [x < y] exactly when [x - y] is negative; the difference is NaN
    only for two equal infinities. *)
Lemma SFsub_sign (x y : spec_float) :
  valid_binary x = true -> valid_binary y = true ->
  not_nan x -> not_nan y ->
  SFltb x y = match SF64sub x y with
              | S754_nan => false
              | r => SFltb r (S754_zero false)
              end.
Proof.
  destruct x as [sx|sx| |sx mx ex]; destruct y as [sy|sy| |sy my ey];
    simpl; try tauto; intros Hx Hy _ _;
    try (destruct sx; reflexivity); try (destruct sy; reflexivity);
    try (destruct sx, sy; reflexivity).
  destruct (bounded_exponent mx ex Hx) as (Hex & _).
  destruct (bounded_exponent my ey Hy) as (Hey & _).
  unfold SF64sub, SFsub.
  rewrite !shl_align_fst by lia.
  pose proof (finite_lt_aligned sx sy mx my ex ey Hx Hy) as Hlt.
  unfold aligned in Hlt.
  set (d := cond_Zopp sx (Zpos mx * 2 ^ (ex - Z.min ex ey))
            - cond_Zopp sy (Zpos my * 2 ^ (ey - Z.min ex ey))) in *.
  assert (Hez : -1074 <= Z.min ex ey) by lia.
  pose proof (binary_normalize_sign d (Z.min ex ey) Hez) as Hn.
  destruct d as [|p|p].
  - rewrite Hn. simpl.
    destruct (SFltb (S754_finite sx mx ex) (S754_finite sy my ey)); [|reflexivity].
    exfalso. destruct Hlt as [Hlt _]. specialize (Hlt eq_refl). lia.
  - apply signed_nonzero_ltb_zero in Hn. destruct Hn as [Hnan Hs].
    destruct (binary_normalize prec emax (Zpos p) (Z.min ex ey) false) eqn:Er;
      try congruence; rewrite Hs;
      (destruct (SFltb (S754_finite sx mx ex) (S754_finite sy my ey)); [|reflexivity];
       exfalso; destruct Hlt as [Hlt _]; specialize (Hlt eq_refl); lia).
  - apply signed_nonzero_ltb_zero in Hn. destruct Hn as [Hnan Hs].
    destruct (binary_normalize prec emax (Zneg p) (Z.min ex ey) false) eqn:Er;
      try congruence; rewrite Hs; apply Hlt; lia.
Qed.
End Difference64.

(** ** Binary64 facts at the level of the primitive operations *)

Lemma is_nan_spec (x : float) : is_nan x = false <-> not_nan (Prim2SF x).
Proof.
  unfold is_nan. rewrite eqb_spec. unfold SFeqb.
  destruct (Prim2SF x) as [s|[|]| |[|] m e]; simpl;
    rewrite ?Z.compare_refl, ?Pcompare_refl; simpl; intuition discriminate.
Qed.

Lemma ltb_key (x y : float) :
  is_nan x = false -> is_nan y = false ->
  ((x <? y) = true <-> key_lt (order_key (Prim2SF x)) (order_key (Prim2SF y))).
Proof.
  intros Hx Hy. rewrite ltb_spec. apply SFltb_key; now apply is_nan_spec.
Qed.

Lemma leb_key (x y : float) :
  is_nan x = false -> is_nan y = false ->
  ((x <=? y) = true <-> ~ key_lt (order_key (Prim2SF y)) (order_key (Prim2SF x))).
Proof.
  intros Hx Hy. rewrite leb_spec. apply SFleb_key; now apply is_nan_spec.
Qed.

Lemma eqb_key (x y : float) :
  (x =? y) = true -> order_key (Prim2SF x) = order_key (Prim2SF y).
Proof. rewrite eqb_spec. apply SFeqb_key. Qed.

Lemma key_lt_irrefl (a : Z * Z * Z) : ~ key_lt a a.
Proof. destruct a as [[a1 a2] a3]. unfold key_lt. lia. Qed.

Lemma key_lt_asym (a b : Z * Z * Z) : key_lt a b -> ~ key_lt b a.
Proof. destruct a as [[a1 a2] a3], b as [[b1 b2] b3]. unfold key_lt. lia. Qed.

Lemma key_lt_negtrans (a b c : Z * Z * Z) :
  ~ key_lt a b -> ~ key_lt b c -> ~ key_lt a c.
Proof.
  destruct a as [[a1 a2] a3], b as [[b1 b2] b3], c as [[c1 c2] c3].
  unfold key_lt. lia.
Qed.

(** The comparator of the sort, on scores that are numbers: [y] goes
    strictly before [x] exactly when [x]'s score is the smaller. *)
Lemma descending_comparator (x y : float) :
  is_nan x = false -> is_nan y = false ->
  ((if is_nan (x - y) then 0 else x - y) <? 0) = (x <? y).
Proof.
  intros Hx Hy.
  pose proof (SFsub_sign (Prim2SF x) (Prim2SF y) (Prim2SF_valid x) (Prim2SF_valid y)
                (proj1 (is_nan_spec x) Hx) (proj1 (is_nan_spec y) Hy)) as Hs.
  rewrite <- sub_spec in Hs. rewrite (ltb_spec x y), Hs.
  destruct (is_nan (x - y)) eqn:En.
  - assert (Hn : Prim2SF (x - y) = S754_nan).
    { destruct (Prim2SF (x - y)) eqn:E; try reflexivity;
        assert (Hf : is_nan (x - y) = false)
          by (apply is_nan_spec; rewrite E; exact I); congruence. }
    rewrite Hn. reflexivity.
  - rewrite ltb_spec. change (Prim2SF 0) with (S754_zero false).
    destruct (Prim2SF (x - y)); reflexivity.
Qed.

(** ** Stable sorting, in general *)

Section StableSortFacts.
Context {A : Type}.

Lemma stable_sort_In (before : A -> A -> bool) (l : list A) (x : A) :
  In x (stable_sort before l) <-> In x l.
Proof.
  assert (Hins : forall y s, In x (insert before y s) <-> x = y \/ In x s).
  { intros y s. induction s as [|z s IH]; simpl; [intuition congruence|].
    destruct (before z y); simpl; rewrite ?IH; intuition congruence. }
  induction l as [|y l IH]; simpl; [tauto|].
  rewrite Hins, IH. intuition congruence.
Qed.

Lemma insert_In (before : A -> A -> bool) (x y : A) (l : list A) :
  In x (insert before y l) <-> x = y \/ In x l.
Proof.
  induction l as [|z l IH]; simpl; [intuition congruence|].
  destruct (before z y); simpl; rewrite ?IH; intuition congruence.
Qed.

(** The sort consults the order only on elements of the list. *)
Lemma stable_sort_ext (before before' : A -> A -> bool) (l : list A) :
  (forall x y, In x l -> In y l -> before x y = before' x y) ->
  stable_sort before l = stable_sort before' l.
Proof.
  induction l as [|x l IH]; intros Hext; simpl; [reflexivity|].
  rewrite IH by (intros; apply Hext; simpl; auto).
  assert (Hins : forall s, (forall z, In z s -> In z l) ->
                           insert before x s = insert before' x s).
  { induction s as [|z s IHs]; intros Hs; simpl; [reflexivity|].
    rewrite (Hext z x) by (simpl; auto using in_eq).
    rewrite IHs by (intros; apply Hs; simpl; auto). reflexivity. }
  apply Hins. intros z Hz. now apply stable_sort_In in Hz.
Qed.

Variable before : A -> A -> bool.
Variable ok : A -> Prop.
Hypothesis before_asym : forall x y, ok x -> ok y -> before x y = true -> before y x = false.
Hypothesis before_negtrans :
  forall x y z, ok x -> ok y -> ok z ->
    before y x = false -> before z y = false -> before z x = false.

(** Sorted: no element is strictly before one that precedes it. *)
Lemma insert_sorted (x : A) (l : list A) :
  ok x -> Forall ok l ->
  StronglySorted (fun a b => before b a = false) l ->
  StronglySorted (fun a b => before b a = false) (insert before x l).
Proof.
  intros Hx Hok Hs. induction Hs as [|y l Hs IH Hall]; simpl.
  - constructor; constructor.
  - inversion Hok as [|y' l' Hy Hl]; subst.
    destruct (before y x) eqn:Eb.
    + constructor; [exact (IH Hl)|].
      apply Forall_forall. intros z Hz. apply insert_In in Hz.
      destruct Hz as [->|Hz]; [now apply before_asym|].
      rewrite Forall_forall in Hall. exact (Hall _ Hz).
    + constructor; [constructor; assumption|].
      constructor; [exact Eb|].
      rewrite Forall_forall in *. intros z Hz.
      apply before_negtrans with y; auto.
Qed.

Lemma stable_sort_sorted (l : list A) :
  Forall ok l -> StronglySorted (fun a b => before b a = false) (stable_sort before l).
Proof.
  induction 1 as [|x l Hx Hl IH]; simpl; [constructor|].
  apply insert_sorted; [exact Hx| |exact IH].
  apply Forall_forall. intros z Hz. apply stable_sort_In in Hz.
  rewrite Forall_forall in Hl. auto.
Qed.

(** Stable: elements no two of which are strictly ordered keep their
    original order. *)
Lemma stable_sort_stable (same : A -> bool) (l : list A) :
  (forall x y, same x = true -> same y = true -> before x y = false) ->
  filter same (stable_sort before l) = filter same l.
Proof.
  intros Hsame. induction l as [|x l IH]; simpl; [reflexivity|].
  rewrite <- IH. clear IH.
  induction (stable_sort before l) as [|y s IHs]; simpl; [reflexivity|].
  destruct (before y x) eqn:Eb; simpl.
  - rewrite IHs. destruct (same x) eqn:Ex, (same y) eqn:Ey; try reflexivity.
    rewrite (Hsame y x Ey Ex) in Eb. discriminate Eb.
  - reflexivity.
Qed.
End StableSortFacts.

(** ** The engine's sort

    On every input the engine's sort rearranges the array; on elements
    that the comparison orders consistently it gives the stable sort. *)

Section EngineSortFacts.
Context {A : Type}.

Lemma extend_run_splits (lt0 : A -> A -> bool) (descending : bool) (previous : A)
    (rest : list A) :
  rest = (fst (extend_run lt0 descending previous rest)
          ++ snd (extend_run lt0 descending previous rest))%list.
Proof.
  revert previous. induction rest as [|current rest IH]; intros previous; simpl;
    [reflexivity|].
  destruct (Bool.eqb (lt0 current previous) descending); [|reflexivity].
  specialize (IH current).
  destruct (extend_run lt0 descending current rest) as [run others]; simpl in *.
  now rewrite <- IH.
Qed.

Lemma count_and_make_run_permutes (lt0 : A -> A -> bool) (arr : list A) :
  Permutation (fst (count_and_make_run lt0 arr) ++ snd (count_and_make_run lt0 arr)) arr.
Proof.
  destruct arr as [|first [|second rest]]; simpl; [reflexivity|reflexivity|].
  pose proof (extend_run_splits lt0 (lt0 second first) second rest) as Hsplit.
  destruct (extend_run lt0 (lt0 second first) second rest) as [run others];
    simpl in *.
  subst rest.
  change (first :: second :: run ++ others)%list
    with ((first :: second :: run) ++ others)%list.
  apply Permutation_app_tail.
  destruct (lt0 second first); [|reflexivity].
  change ((List.rev run ++ [second]) ++ [first])%list
    with (List.rev (first :: second :: run)).
  symmetry. apply Permutation_rev.
Qed.

(** The search ends before its fuel does: more fuel than the length of
    the interval changes nothing. *)
Lemma binary_search_fuel (lt0 : A -> A -> bool) (pivot : A) (sorted : list A)
    (fuel fuel' left right : nat) :
  (right - left <= fuel)%nat -> (right - left <= fuel')%nat ->
  binary_search lt0 pivot sorted left right fuel
  = binary_search lt0 pivot sorted left right fuel'.
Proof.
  revert fuel' left right.
  induction fuel as [|fuel IH]; intros [|fuel'] left right Hf Hf';
    cbn [binary_search]; cbv zeta; try reflexivity.
  - destruct (Nat.ltb_spec left right); [lia|reflexivity].
  - destruct (Nat.ltb_spec left right); [lia|reflexivity].
  - destruct (Nat.ltb_spec left right) as [Hlt|]; [|reflexivity].
    assert (Hmid : (left <= left + (right - left) / 2 < right)%nat).
    { pose proof (Nat.Div0.div_lt_upper_bound (right - left) 2 (right - left)). lia. }
    destruct (nth_error sorted (left + (right - left) / 2)); [|reflexivity].
    destruct (lt0 pivot a); apply IH; lia.
Qed.

Lemma binary_insert_permutes (lt0 : A -> A -> bool) (sorted : list A) (pivot : A) :
  Permutation (binary_insert lt0 sorted pivot) (pivot :: sorted).
Proof.
  unfold binary_insert.
  set (left := binary_search lt0 pivot sorted 0 (List.length sorted) (List.length sorted)).
  rewrite <- (firstn_skipn left sorted) at 3.
  symmetry. apply Permutation_middle.
Qed.

Lemma fold_binary_insert_permutes (lt0 : A -> A -> bool) (others run : list A) :
  Permutation (fold_left (binary_insert lt0) others run) (run ++ others).
Proof.
  revert run. induction others as [|x others IH]; intros run; simpl.
  - now rewrite app_nil_r.
  - rewrite IH, binary_insert_permutes. apply Permutation_middle.
Qed.

Lemma engine_sort_permutes (lt0 : A -> A -> bool) (arr : list A) :
  Permutation (engine_sort lt0 arr) arr.
Proof.
  unfold engine_sort.
  pose proof (count_and_make_run_permutes lt0 arr) as Hrun.
  destruct (count_and_make_run lt0 arr) as [run others]; simpl in Hrun.
  now rewrite fold_binary_insert_permutes.
Qed.

Variable before : A -> A -> bool.
Variable ok : A -> Prop.
Hypothesis before_asym : forall x y, ok x -> ok y -> before x y = true -> before y x = false.
Hypothesis before_negtrans :
  forall x y z, ok x -> ok y -> ok z ->
    before y x = false -> before z y = false -> before z x = false.

Lemma before_trans (x y z : A) :
  ok x -> ok y -> ok z -> before x y = true -> before y z = true -> before x z = true.
Proof.
  intros Hx Hy Hz Hxy Hyz. destruct (before x z) eqn:E; [reflexivity|].
  pose proof (before_asym y z Hy Hz Hyz) as Hzy.
  pose proof (before_negtrans y z x Hy Hz Hx Hzy E). congruence.
Qed.

(** Inserting from the left and inserting from the right commute. *)
Lemma insert_after_comm (x y : A) (acc : list A) :
  ok x -> ok y -> Forall ok acc ->
  insert_after before y (insert before x acc)
  = insert before x (insert_after before y acc).
Proof.
  intros Hx Hy Hacc. induction Hacc as [|a acc Ha _ IH]; simpl.
  - destruct (before y x); reflexivity.
  - destruct (before a x) eqn:Eax, (before y a) eqn:Eya; simpl.
    + rewrite Eya. rewrite (before_trans y a x Hy Ha Hx Eya Eax), Eax. reflexivity.
    + rewrite Eya, IH, Eax. reflexivity.
    + rewrite Eax. destruct (before y x); simpl; rewrite ?Eya; reflexivity.
    + rewrite (before_negtrans x a y Hx Ha Hy Eax Eya), Eya, Eax. reflexivity.
Qed.

Lemma insert_after_ok (x : A) (l : list A) :
  ok x -> Forall ok l -> Forall ok (insert_after before x l).
Proof.
  intros Hx. induction 1 as [|a l Ha Hl IH]; simpl; [repeat constructor; exact Hx|].
  destruct (before x a); repeat constructor; assumption.
Qed.

Lemma fold_insert_after_insert (x : A) (l acc : list A) :
  ok x -> Forall ok l -> Forall ok acc ->
  fold_left (fun p y => insert_after before y p) l (insert before x acc)
  = insert before x (fold_left (fun p y => insert_after before y p) l acc).
Proof.
  intros Hx Hl. revert acc. induction Hl as [|y l Hy _ IH]; intros acc Hacc; simpl;
    [reflexivity|].
  rewrite insert_after_comm by assumption.
  apply IH. now apply insert_after_ok.
Qed.

(** Insertion from the left gives the stable sort too. *)
Lemma fold_insert_after_sorts (l : list A) :
  Forall ok l ->
  fold_left (fun p y => insert_after before y p) l [] = stable_sort before l.
Proof.
  induction 1 as [|x l Hx Hl IH]; simpl; [reflexivity|].
  change [x] with (insert before x []).
  rewrite fold_insert_after_insert by (auto; constructor).
  now rewrite IH.
Qed.

Lemma sorted_nth (l : list A) (i j : nat) (a b : A) :
  StronglySorted (fun a b => before b a = false) l ->
  nth_error l i = Some a -> nth_error l j = Some b -> (i < j)%nat ->
  before b a = false.
Proof.
  intros Hs. revert i j. induction Hs as [|x l Hs IH Hall]; intros i j Hi Hj Hlt.
  - destruct i; discriminate.
  - destruct j as [|j]; [lia|]. destruct i as [|i]; simpl in *.
    + injection Hi as <-. rewrite Forall_forall in Hall. apply Hall.
      now apply nth_error_In with j.
    + apply (IH i j); auto. lia.
Qed.

(** Where the binary search stops: everything to the left is not after
    the pivot, everything from there on is. *)
Lemma binary_search_finds (pivot : A) (sorted : list A) :
  ok pivot -> Forall ok sorted ->
  StronglySorted (fun a b => before b a = false) sorted ->
  forall fuel left right,
    (left <= right <= List.length sorted)%nat -> (right - left <= fuel)%nat ->
    (forall i e, (i < left)%nat -> nth_error sorted i = Some e -> before pivot e = false) ->
    (forall i e, (right <= i)%nat -> nth_error sorted i = Some e -> before pivot e = true) ->
    let k := binary_search before pivot sorted left right fuel in
    (k <= List.length sorted)%nat
    /\ (forall i e, (i < k)%nat -> nth_error sorted i = Some e -> before pivot e = false)
    /\ (forall i e, (k <= i)%nat -> nth_error sorted i = Some e -> before pivot e = true).
Proof.
  intros Hp Hok Hs. induction fuel as [|fuel IH]; intros left right Hlr Hfuel Hlo Hhi;
    cbn [binary_search]; cbv zeta.
  - assert (left = right) by lia. subst. repeat split; auto; lia.
  - destruct (Nat.ltb_spec left right) as [Hlt|Hge].
    2:{ assert (left = right) by lia. subst. repeat split; auto; lia. }
    set (mid := (left + (right - left) / 2)%nat).
    assert (Hmid : (left <= mid < right)%nat).
    { unfold mid. pose proof (Nat.Div0.div_lt_upper_bound (right - left) 2 (right - left)).
      lia. }
    destruct (nth_error sorted mid) as [e|] eqn:Emid.
    2:{ apply nth_error_None in Emid. lia. }
    assert (He : ok e).
    { rewrite Forall_forall in Hok. apply Hok. now apply nth_error_In with mid. }
    destruct (before pivot e) eqn:Ebe.
    + apply IH; [lia|lia|exact Hlo|].
      intros i e' Hi He'. destruct (Nat.eq_dec i mid) as [->|Hne]; [congruence|].
      assert (He'ok : ok e').
      { rewrite Forall_forall in Hok. apply Hok. now apply nth_error_In with i. }
      pose proof (sorted_nth sorted mid i e e' Hs Emid He' ltac:(lia)) as Hle.
      destruct (before pivot e') eqn:E'; [reflexivity|].
      pose proof (before_negtrans e e' pivot He He'ok Hp Hle E'). congruence.
    + apply IH; [lia|lia| |exact Hhi].
      intros i e' Hi He'. destruct (Nat.eq_dec i mid) as [->|Hne]; [congruence|].
      assert (He'ok : ok e').
      { rewrite Forall_forall in Hok. apply Hok. now apply nth_error_In with i. }
      pose proof (sorted_nth sorted i mid e' e Hs He' Emid ltac:(lia)) as Hle.
      exact (before_negtrans e' e pivot He'ok He Hp Hle Ebe).
Qed.

Lemma insert_after_at (pivot : A) (l : list A) (k : nat) :
  (k <= List.length l)%nat ->
  (forall i e, (i < k)%nat -> nth_error l i = Some e -> before pivot e = false) ->
  (forall i e, (k <= i)%nat -> nth_error l i = Some e -> before pivot e = true) ->
  insert_after before pivot l = (firstn k l ++ pivot :: skipn k l)%list.
Proof.
  revert k. induction l as [|a l IH]; intros k Hk Hlo Hhi; simpl.
  - destruct k; reflexivity.
  - destruct k as [|k]; simpl.
    + now rewrite (Hhi 0%nat a (Nat.le_refl 0) eq_refl).
    + rewrite (Hlo 0%nat a ltac:(lia) eq_refl). f_equal.
      apply IH; [simpl in Hk; lia| |].
      * intros i e Hi He. apply (Hlo (S i) e); [lia|exact He].
      * intros i e Hi He. apply (Hhi (S i) e); [lia|exact He].
Qed.

(** On a sorted front the binary search puts the pivot where the
    insertion from the left puts it. *)
Lemma binary_insert_is_insert_after (pivot : A) (sorted : list A) :
  ok pivot -> Forall ok sorted ->
  StronglySorted (fun a b => before b a = false) sorted ->
  binary_insert before sorted pivot = insert_after before pivot sorted.
Proof.
  intros Hp Hok Hs. unfold binary_insert.
  destruct (binary_search_finds pivot sorted Hp Hok Hs (List.length sorted) 0
              (List.length sorted)) as (Hk & Hlo & Hhi);
    [lia|lia|intros; lia| |].
  - intros i e Hi He.
    assert (i < List.length sorted)%nat by (apply nth_error_Some; congruence). lia.
  - symmetry. now apply insert_after_at.
Qed.

Lemma fold_binary_insert_sorts (others front : list A) :
  Forall ok front -> Forall ok others ->
  fold_left (binary_insert before) others (stable_sort before front)
  = stable_sort before (front ++ others).
Proof.
  intros Hf Ho. revert front Hf.
  induction Ho as [|x others Hx _ IH]; intros front Hf; simpl.
  - now rewrite app_nil_r.
  - assert (Hfx : Forall ok (front ++ [x]))
      by (apply Forall_app; split; [exact Hf|constructor; [exact Hx|constructor]]).
    rewrite binary_insert_is_insert_after.
    + rewrite <- (fold_insert_after_sorts front Hf).
      change (insert_after before x
                (fold_left (fun p y => insert_after before y p) front []))
        with (fold_left (fun p y => insert_after before y p) [x]
                (fold_left (fun p y => insert_after before y p) front [])).
      rewrite <- fold_left_app, (fold_insert_after_sorts _ Hfx).
      rewrite (IH (front ++ [x])%list Hfx), <- app_assoc. reflexivity.
    + exact Hx.
    + apply Forall_forall. intros z Hz. apply stable_sort_In in Hz.
      rewrite Forall_forall in Hf. auto.
    + now apply (stable_sort_sorted before ok before_asym before_negtrans).
Qed.

(** A run that never steps down is sorted as it stands. *)
Lemma ascending_run_is_sorted (rest done : list A) (previous : A) :
  Forall ok (done ++ [previous]) -> Forall ok rest ->
  stable_sort before (done ++ [previous]) = (done ++ [previous])%list ->
  stable_sort before
    ((done ++ [previous]) ++ fst (extend_run before false previous rest))
  = ((done ++ [previous]) ++ fst (extend_run before false previous rest))%list.
Proof.
  intros Hd Hr. revert done previous Hd.
  induction Hr as [|current rest Hc _ IH]; intros done previous Hd Hsorted; simpl.
  - now rewrite app_nil_r.
  - destruct (before current previous) eqn:Ecp; simpl; [now rewrite app_nil_r|].
    specialize (IH (done ++ [previous])%list current).
    destruct (extend_run before false current rest) as [run others]; simpl in *.
    assert (Hdc : Forall ok ((done ++ [previous]) ++ [current]))
      by (apply Forall_app; split; [exact Hd|constructor; [exact Hc|constructor]]).
    assert (Hstep : stable_sort before ((done ++ [previous]) ++ [current])
                    = ((done ++ [previous]) ++ [current])%list).
    { rewrite <- (fold_insert_after_sorts _ Hdc), fold_left_app. simpl.
      rewrite (fold_insert_after_sorts _ Hd), Hsorted.
      pose proof (stable_sort_sorted before ok before_asym before_negtrans _ Hd) as Hs.
      rewrite Hsorted in Hs.
      assert (Hall : Forall (fun e => before current e = false) (done ++ [previous])).
      { apply Forall_forall. intros e He.
        destruct (In_nth_error _ _ He) as [i Hi].
        assert (Hlast : nth_error (done ++ [previous]) (List.length done) = Some previous)
          by (rewrite nth_error_app2, Nat.sub_diag by lia; reflexivity).
        assert (Heok : ok e) by (rewrite Forall_forall in Hd; auto).
        assert (Hpok : ok previous).
        { rewrite Forall_forall in Hd. apply Hd. apply in_or_app. right. now left. }
        destruct (Nat.eq_dec i (List.length done)) as [->|Hne]; [congruence|].
        assert (Hi' : (i < List.length done)%nat).
        { assert (Hb : (i < List.length (done ++ [previous]))%nat)
            by (apply nth_error_Some; congruence).
          rewrite length_app in Hb. simpl in Hb. lia. }
        pose proof (sorted_nth _ _ _ _ _ Hs Hi Hlast Hi') as Hle.
        exact (before_negtrans e previous current Heok Hpok Hc Hle Ecp). }
      clear -Hall. induction (done ++ [previous])%list as [|a l IHl]; simpl;
        [reflexivity|].
      inversion Hall as [|a' l' Ha Hl]; subst. rewrite Ha. f_equal. now apply IHl. }
    specialize (IH Hdc Hstep). rewrite <- !app_assoc in *. exact IH.
Qed.

(** A run that steps down every time is sorted once reversed. *)
Lemma descending_run_is_sorted (rest done : list A) (previous : A) :
  Forall ok (done ++ [previous]) -> Forall ok rest ->
  stable_sort before (done ++ [previous]) = List.rev (done ++ [previous]) ->
  stable_sort before
    ((done ++ [previous]) ++ fst (extend_run before true previous rest))
  = List.rev ((done ++ [previous]) ++ fst (extend_run before true previous rest)).
Proof.
  intros Hd Hr. revert done previous Hd.
  induction Hr as [|current rest Hc _ IH]; intros done previous Hd Hsorted; simpl.
  - now rewrite app_nil_r.
  - destruct (before current previous) eqn:Ecp; simpl; [|now rewrite app_nil_r].
    specialize (IH (done ++ [previous])%list current).
    destruct (extend_run before true current rest) as [run others]; simpl in *.
    assert (Hdc : Forall ok ((done ++ [previous]) ++ [current]))
      by (apply Forall_app; split; [exact Hd|constructor; [exact Hc|constructor]]).
    assert (Hstep : stable_sort before ((done ++ [previous]) ++ [current])
                    = List.rev ((done ++ [previous]) ++ [current])).
    { rewrite <- (fold_insert_after_sorts _ Hdc), fold_left_app. simpl.
      rewrite (fold_insert_after_sorts _ Hd), Hsorted.
      rewrite !rev_app_distr. simpl. now rewrite Ecp. }
    specialize (IH Hdc Hstep). rewrite <- !app_assoc in *. exact IH.
Qed.

Lemma count_and_make_run_sorts (arr : list A) :
  Forall ok arr ->
  exists front,
    arr = (front ++ snd (count_and_make_run before arr))%list
    /\ fst (count_and_make_run before arr) = stable_sort before front.
Proof.
  intros Hok. destruct arr as [|first [|second rest]].
  - exists []. split; reflexivity.
  - exists [first]. split; reflexivity.
  - unfold count_and_make_run.
    pose proof (extend_run_splits before (before second first) second rest) as Hsplit.
    inversion Hok as [|? ? Hf Hok1]; subst. inversion Hok1 as [|? ? Hsn Hrest]; subst.
    assert (Hpair : Forall ok ([first] ++ [second]))
      by (repeat constructor; assumption).
    destruct (before second first) eqn:Esf.
    + pose proof (descending_run_is_sorted rest [first] second Hpair Hrest) as Hrun.
      destruct (extend_run before true second rest) as [run others].
      cbn [fst snd] in *.
      exists (first :: second :: run). split; [now rewrite Hsplit at 1|].
      symmetry. apply Hrun. cbn. now rewrite Esf.
    + pose proof (ascending_run_is_sorted rest [first] second Hpair Hrest) as Hrun.
      destruct (extend_run before false second rest) as [run others].
      cbn [fst snd] in *.
      exists (first :: second :: run). split; [now rewrite Hsplit at 1|].
      symmetry. apply Hrun. cbn. now rewrite Esf.
Qed.

(** On elements the comparison orders consistently, the engine's sort is
    the stable sort. *)
Lemma engine_sort_is_stable_sort (arr : list A) :
  Forall ok arr -> engine_sort before arr = stable_sort before arr.
Proof.
  intros Hok. unfold engine_sort.
  destruct (count_and_make_run_sorts arr Hok) as (front & Harr & Hrun).
  destruct (count_and_make_run before arr) as [run others]; simpl in *.
  assert (Hboth : Forall ok front /\ Forall ok others)
    by (rewrite Harr in Hok; now apply Forall_app in Hok).
  destruct Hboth as [Hf Ho].
  rewrite Hrun, (fold_binary_insert_sorts others front Hf Ho), <- Harr. reflexivity.
Qed.
End EngineSortFacts.

Lemma array_sort_permutes {A : Type} (comparefn : A -> A -> float) (arr : list A) :
  Permutation (array_sort comparefn arr) arr.
Proof. apply engine_sort_permutes. Qed.

Lemma array_sort_In {A : Type} (comparefn : A -> A -> float) (arr : list A) (x : A) :
  In x (array_sort comparefn arr) <-> In x arr.
Proof.
  split; apply Permutation_in; [|symmetry]; apply array_sort_permutes.
Qed.

Lemma StronglySorted_firstn {A : Type} (R : A -> A -> Prop) (n : nat) (l : list A) :
  StronglySorted R l -> StronglySorted R (firstn n l).
Proof.
  intros Hs. revert n. induction Hs as [|x l Hs IH Hall]; intros [|n]; simpl;
    try constructor; [apply IH|].
  rewrite Forall_forall in *. intros y Hy. apply Hall.
  rewrite <- (firstn_skipn n l). apply in_or_app. now left.
Qed.

Lemma StronglySorted_filter {A : Type} (R : A -> A -> Prop) (f : A -> bool) (l : list A) :
  StronglySorted R l -> StronglySorted R (filter f l).
Proof.
  induction 1 as [|x l Hs IH Hall]; simpl; [constructor|].
  destruct (f x); [|exact IH]. constructor; [exact IH|].
  rewrite Forall_forall in *. intros y Hy. apply filter_In in Hy. now apply Hall.
Qed.

Lemma filter_firstn_prefix {A : Type} (f : A -> bool) (n : nat) (l : list A) :
  exists rest, filter f l = (filter f (firstn n l) ++ rest)%list.
Proof.
  exists (filter f (skipn n l)). rewrite <- filter_app, firstn_skipn. reflexivity.
Qed.

Lemma filter_comm {A : Type} (f g : A -> bool) (l : list A) :
  filter f (filter g l) = filter g (filter f l).
Proof.
  induction l as [|x l IH]; simpl; [reflexivity|].
  destruct (f x) eqn:Ef, (g x) eqn:Eg; simpl; rewrite ?Ef, ?Eg, IH; reflexivity.
Qed.

(** ** The similarity score *)

Lemma cosineSim_unfold (a b : list float) :
  cosineSim a b =
    if is_zero (norm a) || is_zero (norm b) then 0
    else dot a b / (norm a * norm b).
Proof.
  unfold cosineSim, cosineSim_path.
  destruct (is_zero (norm a) || is_zero (norm b)); reflexivity.
Qed.

Lemma zero_times_itself (x : float) : (x =? 0) = true -> x * x = 0.
Proof.
  rewrite is_zero_spec. intros Hz. apply Prim2SF_inj. rewrite mul_spec.
  change (Prim2SF 0) with (S754_zero false).
  destruct (Prim2SF x) as [[|]| | |]; try discriminate Hz; reflexivity.
Qed.

(** The squared length of a vector of zeros is [+0]. *)
Lemma dot_zero_vector (a : list float) :
  Forall (fun x => (x =? 0) = true) a -> dot a a = 0.
Proof.
  intros Hz. rewrite dot_is_dot_acc. simpl.
  induction Hz as [|x a Hx _ IH]; simpl; [reflexivity|].
  rewrite (zero_times_itself x Hx). exact IH.
Qed.

(** C4. When either norm is zero the guard returns [0] without dividing;
    this covers every vector of zeros and the empty vector. On the other
    way out the divisor, the product of the two norms, is never a zero:
    no division by zero is performed for any pair of vectors. *)
Theorem zero_magnitude_scores_zero_without_dividing (a b : list float) :
  (is_zero (norm a) = true \/ is_zero (norm b) = true ->
     cosineSim_path a b = ReturnZero /\ cosineSim a b = 0)
  /\ (Forall (fun x => is_zero x = true) a \/ Forall (fun x => is_zero x = true) b ->
      cosineSim_path a b = ReturnZero /\ cosineSim a b = 0)
  /\ (forall p q, cosineSim_path a b = Divide p q ->
        is_zero q = false /\ cosineSim a b = p / q).
Proof.
  assert (Hguard : is_zero (norm a) = true \/ is_zero (norm b) = true ->
                   cosineSim_path a b = ReturnZero /\ cosineSim a b = 0).
  { intros Hz. assert (E : cosineSim_path a b = ReturnZero).
    { unfold cosineSim_path. destruct Hz as [-> | ->]; rewrite ?orb_true_r; reflexivity. }
    split; [exact E|]. unfold cosineSim. rewrite E. reflexivity. }
  split; [exact Hguard|]. split.
  - intros Hz. apply Hguard.
    destruct Hz as [Hz|Hz]; [left|right]; unfold norm;
      rewrite (dot_zero_vector _ Hz); reflexivity.
  - intros p q Hpath. split.
    + unfold cosineSim_path in Hpath.
      destruct (is_zero (norm a)) eqn:Ea; [discriminate Hpath|].
      destruct (is_zero (norm b)) eqn:Eb; [discriminate Hpath|].
      simpl in Hpath. injection Hpath as _ <-.
      exact (product_of_roots_is_not_zero (dot a a) (dot b b) Ea Eb).
    + unfold cosineSim. rewrite Hpath. reflexivity.
Qed.

Lemma zero_magnitude_scores_zero_without_dividing_witness :
  cosineSim [0; -0; 0] [1; 2; 3] = 0
  /\ cosineSim [1e-200] [1; 2; 3] = 0
  /\ is_zero (norm [3; 4] * norm [4; 3]) = false.
Proof.
  split; [|split].
  - destruct (zero_magnitude_scores_zero_without_dividing [0; -0; 0] [1; 2; 3])
      as (_ & Hzeros & _).
    apply Hzeros. left. repeat constructor.
  - destruct (zero_magnitude_scores_zero_without_dividing [1e-200] [1; 2; 3])
      as (Hnorm & _ & _).
    apply Hnorm. left. reflexivity.
  - destruct (zero_magnitude_scores_zero_without_dividing [3; 4] [4; 3])
      as (_ & _ & Hdiv).
    apply (Hdiv 24 (norm [3; 4] * norm [4; 3])). reflexivity.
Defined.

(** C9, as stated, fails in binary64: the square of the rounded square
    root of 3 is below 3, and the quotient lands above 1. *)
Lemma unit_cube_diagonal_scores_above_one :
  cosineSim [1; 1; 1] [1; 1; 1] = 1.0000000000000002
  /\ (cosineSim [1; 1; 1] [1; 1; 1] <=? 1) = false
  /\ List.length [1; 1; 1] = List.length [1; 1; 1].
Proof. repeat split; vm_compute; reflexivity. Qed.

(** Near the ends of the exponent range the score leaves the interval by
    more than a rounding unit: a square that rounds down to the smallest
    subnormal gives a norm almost a fifth too small, and squares that
    overflow give infinity over infinity. *)
Remark scores_near_underflow_and_overflow :
  cosineSim [0x1.3p-537] [1] = 1.1875
  /\ is_nan (cosineSim [1e200] [1e200]) = true.
Proof. split; vm_compute; reflexivity. Qed.

(** ** The cosine in exact arithmetic *)

Section ExactCosine.
Local Open Scope R_scope.

Lemma dot_acc_exact_shift (s : R) (a b : list R) :
  dot_acc s a b = s + dot_acc 0 a b.
Proof.
  revert s b. induction a as [|x a IH]; intros s b; simpl; [lra|].
  rewrite (IH (s + _)), (IH (0 + _)). lra.
Qed.

Lemma dot_acc_exact_cons (x y : R) (a b : list R) :
  dot_acc 0 (x :: a) (y :: b) = x * y + dot_acc 0 a b.
Proof. simpl. rewrite dot_acc_exact_shift. lra. Qed.

Lemma dot_acc_exact_self_nonneg (a : list R) : 0 <= dot_acc 0 a a.
Proof.
  induction a as [|x a IH]; [simpl; lra|].
  rewrite dot_acc_exact_cons. nra.
Qed.

(** Cauchy-Schwarz for the loop's sums. *)
Lemma dot_acc_exact_cauchy_schwarz (a b : list R) :
  List.length a = List.length b ->
  dot_acc 0 a b * dot_acc 0 a b <= dot_acc 0 a a * dot_acc 0 b b.
Proof.
  revert b. induction a as [|x a IH]; intros [|y b] Hlen; simpl in Hlen;
    try discriminate Hlen.
  - simpl. lra.
  - injection Hlen as Hlen. specialize (IH b Hlen).
    rewrite !dot_acc_exact_cons.
    pose proof (dot_acc_exact_self_nonneg a) as Ha.
    pose proof (dot_acc_exact_self_nonneg b) as Hb.
    set (p := dot_acc 0 a b) in *. set (A := dot_acc 0 a a) in *.
    set (B := dot_acc 0 b b) in *.
    assert (HA : 0 <= A * (y * y)) by (apply Rmult_le_pos; nra).
    assert (HB : 0 <= B * (x * x)) by (apply Rmult_le_pos; nra).
    assert (Hw : (p * (x * y)) * (p * (x * y)) <= (A * (y * y)) * (B * (x * x))).
    { replace ((p * (x * y)) * (p * (x * y))) with ((p * p) * ((x * x) * (y * y)))
        by ring.
      replace ((A * (y * y)) * (B * (x * x))) with ((A * B) * ((x * x) * (y * y)))
        by ring.
      apply Rmult_le_compat_r; [|exact IH]. apply Rmult_le_pos; nra. }
    replace ((x * y + p) * (x * y + p))
      with ((x * y) * (x * y) + 2 * (p * (x * y)) + p * p) by ring.
    replace ((x * x + A) * (y * y + B))
      with ((x * y) * (x * y) + (A * (y * y) + B * (x * x)) + A * B) by ring.
    set (u := A * (y * y)) in *. set (v := B * (x * x)) in *.
    set (t := p * (x * y)) in *.
    assert (Hmix : 2 * t <= u + v).
    { destruct (Rle_dec (2 * t) (u + v)) as [Hle|Hgt]; [exact Hle|exfalso].
      apply Rnot_le_lt in Hgt.
      assert (H1 : 0 < (2 * t - (u + v)) * (2 * t + (u + v)))
        by (apply Rmult_lt_0_compat; lra).
      assert (H2 : 0 <= (u - v) * (u - v)) by apply Rle_0_sqr.
      nra. }
    lra.
Qed.

(** C9, in exact arithmetic. Computed over the reals, the similarity of two
    vectors of one dimension lies between -1 and 1. *)
Theorem exact_cosine_within_unit_interval (a b : list R) :
  List.length a = List.length b ->
  -1 <= cosineSim a b <= 1.
Proof.
  intros Hlen. unfold cosineSim, cosineSim_path, norm.
  rewrite !dot_is_dot_acc. cbn [num0 fmul fdiv fsqrt is_zero exact_reals].
  pose proof (dot_acc_exact_cauchy_schwarz a b Hlen) as Hcs.
  pose proof (dot_acc_exact_self_nonneg a) as HA.
  pose proof (dot_acc_exact_self_nonneg b) as HB.
  set (p := dot_acc 0 a b) in *. set (A := dot_acc 0 a a) in *.
  set (B := dot_acc 0 b b) in *.
  destruct (Req_dec_T (sqrt A) 0) as [Ha|Ha]; simpl; [lra|].
  destruct (Req_dec_T (sqrt B) 0) as [Hb|Hb]; simpl; [lra|].
  pose proof (sqrt_pos A) as Hpa. pose proof (sqrt_pos B) as Hpb.
  assert (Hn : 0 < sqrt A * sqrt B) by (apply Rmult_lt_0_compat; lra).
  assert (Hnn : (sqrt A * sqrt B) * (sqrt A * sqrt B) = A * B).
  { replace ((sqrt A * sqrt B) * (sqrt A * sqrt B))
      with ((sqrt A * sqrt A) * (sqrt B * sqrt B)) by ring.
    rewrite !sqrt_sqrt by assumption. reflexivity. }
  set (n := sqrt A * sqrt B) in *.
  assert (Hp : - n <= p <= n).
  { split.
    - destruct (Rle_dec (- n) p) as [H|H]; [exact H|exfalso].
      apply Rnot_le_lt in H.
      assert (0 < (- n - p) * (n - p)) by (apply Rmult_lt_0_compat; lra). nra.
    - destruct (Rle_dec p n) as [H|H]; [exact H|exfalso].
      apply Rnot_le_lt in H.
      assert (0 < (p - n) * (p + n)) by (apply Rmult_lt_0_compat; lra). nra. }
  unfold Rdiv. split.
  - apply Rmult_le_reg_r with n; [exact Hn|].
    rewrite Rmult_assoc, Rinv_l by lra. lra.
  - apply Rmult_le_reg_r with n; [exact Hn|].
    rewrite Rmult_assoc, Rinv_l by lra. lra.
Qed.

Lemma exact_cosine_within_unit_interval_witness :
  -1 <= cosineSim [1; 1; 1] [1; 1; 1] <= 1.
Proof. apply exact_cosine_within_unit_interval. reflexivity. Defined.
End ExactCosine.

(** ** The ranking *)

(** Every selected match is a stored row that parsed, scored above the
    threshold. *)
Lemma score_rows_In (q : list float) (rows : list Row) (s : Scored) :
  In s (score_rows q rows) ->
  exists r d, In r rows /\ embedding r = Vector d
              /\ s = {| s_id := id r; s_title := title r; s_content := content r;
                        score := cosineSim q d |}.
Proof.
  induction rows as [|r rows IH]; simpl; [tauto|].
  destruct (embedding r) as [|d] eqn:E; simpl.
  - intros Hin. destruct (IH Hin) as (r' & d' & H1 & H2 & H3).
    exists r', d'. auto.
  - intros [<-|Hin].
    + exists r, d. auto.
    + destruct (IH Hin) as (r' & d' & H1 & H2 & H3). exists r', d'. auto.
Qed.

Lemma top_of_In (scored : list Scored) (s : Scored) :
  In s (top_of scored) -> In s scored /\ (T <? score s) = true.
Proof.
  unfold top_of. intros Hin. apply filter_In in Hin. destruct Hin as [Hin Ht].
  split; [|exact Ht].
  assert (Hin' : In s (array_sort by_score_desc scored)).
  { rewrite <- (firstn_skipn K). apply in_or_app. now left. }
  now apply array_sort_In in Hin'.
Qed.

Lemma StronglySorted_weaken {A : Type} (R R' : A -> A -> Prop) (l : list A) :
  (forall a b, In a l -> In b l -> R a b -> R' a b) ->
  StronglySorted R l -> StronglySorted R' l.
Proof.
  intros Hw Hs. induction Hs as [|x l Hs IH Hall]; constructor.
  - apply IH. intros a b Ha Hb. apply Hw; simpl; auto.
  - rewrite Forall_forall in *. intros y Hy. apply Hw; simpl; auto.
Qed.

Lemma filter_length_bound {A : Type} (f : A -> bool) (l : list A) :
  (List.length (filter f l) <= List.length l)%nat.
Proof.
  induction l as [|x l IH]; simpl; [lia|]. destruct (f x); simpl; lia.
Qed.

Lemma eqb_is_number (x v : float) : (x =? v) = true -> is_nan x = false.
Proof.
  rewrite eqb_spec. intros H. apply is_nan_spec.
  unfold SFeqb in H. destruct (Prim2SF x); try exact I. discriminate H.
Qed.

Lemma equal_scores_are_unordered (x y v : float) :
  (x =? v) = true -> (y =? v) = true -> (y <? x) = false.
Proof.
  intros Hx Hy.
  pose proof (eqb_is_number _ _ Hx) as Nx. pose proof (eqb_is_number _ _ Hy) as Ny.
  destruct (y <? x) eqn:E; [|reflexivity].
  apply (ltb_key y x Ny Nx) in E.
  rewrite (eqb_key _ _ Hx), (eqb_key _ _ Hy) in E.
  now apply key_lt_irrefl in E.
Qed.

(** On scores that are numbers the sort is the stable sort by descending
    score. *)
Lemma array_sort_by_score (scored : list Scored) :
  Forall (fun s => is_nan (score s) = false) scored ->
  array_sort by_score_desc scored
    = stable_sort (fun y x => score x <? score y) scored.
Proof.
  intros Hn. unfold array_sort.
  assert (Hcmp : forall y x : Scored,
            is_nan (score y) = false -> is_nan (score x) = false ->
            (sort_compare by_score_desc y x <? 0) = (score x <? score y)).
  { intros y x Hy Hx. unfold sort_compare, by_score_desc.
    apply descending_comparator; auto. }
  rewrite (engine_sort_is_stable_sort _ (fun s => is_nan (score s) = false));
    [| | |exact Hn].
  - apply stable_sort_ext. intros y x Hy Hx. rewrite Forall_forall in Hn.
    apply Hcmp; auto.
  - intros x y Hx Hy. rewrite !Hcmp by assumption. intros Hxy.
    destruct (score x <? score y) eqn:E; [|reflexivity].
    apply ltb_key in Hxy; auto. apply ltb_key in E; auto.
    now apply key_lt_asym in E.
  - intros x y z Hx Hy Hz. rewrite !Hcmp by assumption. intros Hxy Hyz.
    destruct (score x <? score z) eqn:E; [|reflexivity].
    apply ltb_key in E; auto. exfalso.
    revert E. apply key_lt_negtrans with (order_key (Prim2SF (score y)));
      intros Hk; apply ltb_key in Hk; auto; congruence.
Qed.

(** Sorted by descending score: no match scores below a later one. *)
Lemma array_sort_descending (scored : list Scored) :
  Forall (fun s => is_nan (score s) = false) scored ->
  StronglySorted (fun a b => (score a <? score b) = false)
    (array_sort by_score_desc scored).
Proof.
  intros Hn. rewrite (array_sort_by_score scored Hn).
  apply (stable_sort_sorted (fun y x : Scored => score x <? score y)
           (fun s => is_nan (score s) = false)); [| |exact Hn].
  - intros x y Hx Hy Hxy. destruct (score x <? score y) eqn:E; [|reflexivity].
    apply ltb_key in Hxy; auto. apply ltb_key in E; auto.
    now apply key_lt_asym in E.
  - intros x y z Hx Hy Hz Hxy Hyz.
    destruct (score x <? score z) eqn:E; [|reflexivity].
    apply ltb_key in E; auto. exfalso.
    revert E. apply key_lt_negtrans with (order_key (Prim2SF (score y)));
      intros Hk; apply ltb_key in Hk; auto; congruence.
Qed.

(** In a list sorted by descending score the entries above the threshold
    come first, so slicing before filtering loses nothing. *)
Lemma slice_then_filter_sorted (k : nat) (l : list Scored) :
  Forall (fun s => is_nan (score s) = false) l ->
  StronglySorted (fun a b => (score a <? score b) = false) l ->
  filter (fun s => T <? score s) (firstn k l)
    = firstn k (filter (fun s => T <? score s) l).
Proof.
  intros Hn Hs. revert k.
  induction Hs as [|x l Hs IH Hall]; intros [|k]; simpl; try reflexivity.
  inversion Hn as [|x' l' Hx Hl]; subst.
  destruct (T <? score x) eqn:Ex; simpl; [now rewrite IH|].
  assert (Hbelow : forall y, In y l -> (T <? score y) = false).
  { intros y Hy. rewrite Forall_forall in Hall, Hl.
    destruct (T <? score y) eqn:Ey; [|reflexivity]. exfalso.
    apply (ltb_key T (score y) eq_refl (Hl _ Hy)) in Ey. revert Ey.
    apply key_lt_negtrans with (order_key (Prim2SF (score x)));
      intros Hk; apply ltb_key in Hk; auto; try reflexivity.
    - congruence.
    - rewrite (Hall _ Hy) in Hk. discriminate Hk. }
  assert (Hnone : forall l', (forall y, In y l' -> In y l) ->
                             filter (fun s => T <? score s) l' = []).
  { intros l' Hsub. induction l' as [|y l' IHl']; simpl; [reflexivity|].
    rewrite (Hbelow y) by (apply Hsub; simpl; auto).
    apply IHl'. intros z Hz. apply Hsub. simpl. auto. }
  rewrite (Hnone l) by auto. rewrite Hnone; [now destruct k|].
  intros y Hy. rewrite <- (firstn_skipn k l). apply in_or_app. now left.
Qed.

(** C1, as the code has it. The ranker returns at most [K = 3] matches,
    each with a score above [T = 0.65]. When no stored document's score is
    NaN, the matches are in descending order of score, matches of equal
    score are in storage order (for every score they are the first of the
    stored documents with that score above the threshold), and they are
    the first [K] entries of the sorted candidates that exceed [T]. *)
Theorem ranking_is_bounded_thresholded_and_sorted
    (qEmbedding : list float) (rows : list Row) :
  let scored := score_rows qEmbedding rows in
  let top := rank qEmbedding rows in
  (List.length top <= K)%nat
  /\ Forall (fun s => (T <? score s) = true) top
  /\ (Forall (fun s => is_nan (score s) = false) scored ->
      StronglySorted (fun s1 s2 => (score s2 <=? score s1) = true) top
      /\ (forall v, exists rest,
            filter (fun s => score s =? v) (filter (fun s => T <? score s) scored)
            = (filter (fun s => score s =? v) top ++ rest)%list)
      /\ top = rank_spec scored).
Proof.
  intros scored top. unfold top, rank. fold scored. unfold top_of.
  split; [|split].
  - etransitivity; [apply filter_length_bound|]. apply firstn_le_length.
  - apply Forall_forall. intros s Hs. now apply filter_In in Hs.
  - intros Hn. pose proof (array_sort_descending scored Hn) as Hsorted.
    assert (Hmem : forall s, In s (array_sort by_score_desc scored) ->
                             is_nan (score s) = false).
    { intros s Hs. apply array_sort_In in Hs. rewrite Forall_forall in Hn. auto. }
    split; [|split].
    + apply StronglySorted_filter, StronglySorted_firstn.
      apply StronglySorted_weaken
        with (R := fun a b => (score a <? score b) = false); [|exact Hsorted].
      intros a b Ha Hb Hab. apply leb_key; auto. intros Hk.
      apply (ltb_key (score a) (score b)) in Hk; auto. congruence.
    + intros v. set (same := fun s : Scored => score s =? v).
      set (above := fun s : Scored => T <? score s).
      destruct (filter_firstn_prefix same K (array_sort by_score_desc scored))
        as [rest Hrest].
      rewrite (array_sort_by_score scored Hn) in Hrest at 1.
      rewrite stable_sort_stable in Hrest.
      2:{ intros x y Hx Hy. unfold same in *.
          exact (equal_scores_are_unordered _ _ _ Hx Hy). }
      exists (filter above rest).
      rewrite (filter_comm same above scored), Hrest, filter_app.
      rewrite (filter_comm same above). reflexivity.
    + unfold rank_spec. apply slice_then_filter_sorted; [|exact Hsorted].
      apply Forall_forall. exact Hmem.
Qed.

Lemma ranking_is_bounded_thresholded_and_sorted_witness :
  StronglySorted (fun s1 s2 => (score s2 <=? score s1) = true)
    (rank [1; 0] [demo_row 1 5 [4; 3]; demo_row 2 6 [1; 0]; demo_row 3 7 [0; 1]]).
Proof.
  destruct (ranking_is_bounded_thresholded_and_sorted [1; 0]
              [demo_row 1 5 [4; 3]; demo_row 2 6 [1; 0]; demo_row 3 7 [0; 1]])
    as (_ & _ & Hsorted).
  apply Hsorted. repeat constructor.
Defined.

(** C1, as stated, fails: a stored vector shorter than the query scores
    NaN, every comparison with it answers NaN, the sort leaves the three
    rows where they are, and the two matches returned are in ascending
    order. *)
Lemma short_vector_breaks_descending_order :
  map score (score_rows [1; 0]
               [demo_row 1 5 [4; 3]; demo_row 2 6 [1]; demo_row 3 7 [1; 0]])
    = [0.8; nan; 1]
  /\ map score (rank [1; 0]
                  [demo_row 1 5 [4; 3]; demo_row 2 6 [1]; demo_row 3 7 [1; 0]])
     = [0.8; 1]
  /\ map s_id (rank [1; 0]
                 [demo_row 1 5 [4; 3]; demo_row 2 6 [1]; demo_row 3 7 [1; 0]])
     = [1%Z; 3%Z]
  /\ (1 <=? 0.8) = false.
Proof. repeat split; vm_compute; reflexivity. Qed.

(** The same happens among vectors of one dimension when a product
    overflows: the score of the second row is infinity over infinity. *)
Remark overflow_breaks_descending_order :
  map score (score_rows [1e10; 0]
               [demo_row 1 5 [4; 3]; demo_row 2 6 [1e300; 0]; demo_row 3 7 [1; 0]])
    = [0.8; nan; 1]
  /\ map score (rank [1e10; 0]
                  [demo_row 1 5 [4; 3]; demo_row 2 6 [1e300; 0]; demo_row 3 7 [1; 0]])
     = [0.8; 1].
Proof. repeat split; vm_compute; reflexivity. Qed.

(** With three NaN scores stored first, nothing is returned, although a
    later document scores above the threshold: the slice is taken before
    the filter. *)
Remark slice_before_filter :
  rank [1; 0] [demo_row 1 5 [1]; demo_row 2 6 [1]; demo_row 3 7 [2]; demo_row 4 8 [1; 0]]
    = []
  /\ map s_id (rank_spec (score_rows [1; 0]
                  [demo_row 1 5 [1]; demo_row 2 6 [1]; demo_row 3 7 [2];
                   demo_row 4 8 [1; 0]]))
     = [4%Z].
Proof. repeat split; vm_compute; reflexivity. Qed.

(** A NaN score between numbers: the engine takes the descending run of
    the first two documents and turns it round, leaves the NaN where the
    binary search puts it, behind them, and places the last document
    behind the one it ties with. Three matches come back. *)
Remark nan_score_among_numbers :
  map score (score_rows [1; 0]
               [demo_row 1 5 [4; 3]; demo_row 2 6 [1; 0]; demo_row 3 7 [1];
                demo_row 4 8 [1; 0]])
    = [0.8; 1; nan; 1]
  /\ map s_id (array_sort by_score_desc
                 (score_rows [1; 0]
                    [demo_row 1 5 [4; 3]; demo_row 2 6 [1; 0]; demo_row 3 7 [1];
                     demo_row 4 8 [1; 0]]))
     = [2%Z; 4%Z; 1%Z; 3%Z]
  /\ map s_id (rank [1; 0]
                 [demo_row 1 5 [4; 3]; demo_row 2 6 [1; 0]; demo_row 3 7 [1];
                  demo_row 4 8 [1; 0]])
     = [2%Z; 4%Z; 1%Z].
Proof. repeat split; vm_compute; reflexivity. Qed.

(** C10, as the code has it. The numerator reads the stored vector only
    below the query's length, while both norms run over whole vectors: a
    longer stored vector is scored as the dot product with its prefix
    divided by the norm of all of it. A shorter stored vector gives NaN,
    or [0] when a norm is zero; neither exceeds the threshold, so every
    selected match comes from a stored vector at least as long as the
    query. *)
Theorem mismatched_dimensions (q : list float) :
  (forall d, (List.length q <= List.length d)%nat ->
     cosineSim_path q d =
       if is_zero (norm q) || is_zero (norm d) then ReturnZero
       else Divide (dot q (firstn (List.length q) d)) (norm q * norm d))
  /\ (forall d, (List.length d < List.length q)%nat ->
        cosineSim q d = (if is_zero (norm q) || is_zero (norm d) then 0 else nan)
        /\ (T <? cosineSim q d) = false)
  /\ (forall rows s, In s (rank q rows) ->
        exists r d, In r rows /\ embedding r = Vector d
                    /\ s_id s = id r /\ score s = cosineSim q d
                    /\ (List.length q <= List.length d)%nat).
Proof.
  assert (Hshort : forall d, (List.length d < List.length q)%nat ->
            cosineSim q d = (if is_zero (norm q) || is_zero (norm d) then 0 else nan)
            /\ (T <? cosineSim q d) = false).
  { intros d Hlen. rewrite cosineSim_unfold, (dot_short _ _ Hlen), div_nan_l.
    split; [reflexivity|].
    destruct (is_zero (norm q) || is_zero (norm d)); [reflexivity|apply ltb_nan_r]. }
  split; [|split; [exact Hshort|]].
  - intros d _. unfold cosineSim_path. rewrite <- dot_prefix. reflexivity.
  - intros rows s Hin. unfold rank in Hin. apply top_of_In in Hin.
    destruct Hin as [Hin Ht].
    destruct (score_rows_In _ _ _ Hin) as (r & d & Hr & Hd & ->).
    exists r, d. simpl in *. repeat (split; [assumption || reflexivity|]).
    destruct (Nat.le_gt_cases (List.length q) (List.length d)) as [Hle|Hgt];
      [exact Hle|].
    destruct (Hshort d Hgt) as [_ Hf]. congruence.
Qed.

Lemma mismatched_dimensions_witness :
  cosineSim_path [3; 4] [3; 4; 12] = Divide 25 65
  /\ cosineSim [3; 4] [3] = nan
  /\ (T <? cosineSim [3; 4] [3]) = false.
Proof.
  destruct (mismatched_dimensions [3; 4]) as (Hlong & Hshort & _).
  split.
  - rewrite (Hlong [3; 4; 12]); [reflexivity|simpl; lia].
  - destruct (Hshort [3]) as [Hs Ht]; [simpl; lia|].
    split; [rewrite Hs; reflexivity|exact Ht].
Defined.

(** C10, as stated, fails on both counts: a longer stored vector is not
    scored as its prefix would be (the denominator keeps its whole norm),
    and a shorter one with a zero norm on either side scores [0], not
    NaN. *)
Lemma longer_vector_is_not_scored_as_its_prefix :
  cosineSim [1] [1; 1] = 0.70710678118654746
  /\ cosineSim [1] (firstn (List.length [1]) [1; 1]) = 1
  /\ (cosineSim [1] [1; 1] =? cosineSim [1] (firstn (List.length [1]) [1; 1])) = false
  /\ cosineSim [1; 2] [] = 0
  /\ is_nan (cosineSim [1; 2] []) = false.
Proof. repeat split; vm_compute; reflexivity. Qed.

(** ** The document store *)

Close Scope float_scope.

Lemma snippet_length (c : string) (n k : nat) :
  (String.length (String.substring k n c) <= n)%nat.
Proof.
  revert n k. induction c as [|ch c IH]; intros n k.
  - destruct k, n; simpl; lia.
  - destruct k as [|k]; simpl.
    + destruct n as [|n]; simpl; [lia|]. specialize (IH n 0%nat). lia.
    + apply IH.
Qed.

Lemma insert_keeps_order (x : Row) (l : list Row) :
  StronglySorted (fun r1 r2 => (created_at r2 <= created_at r1)%Z) l ->
  StronglySorted (fun r1 r2 => (created_at r2 <= created_at r1)%Z)
    (insert (fun y x => Z.ltb (created_at x) (created_at y)) x l).
Proof.
  induction 1 as [|y l Hs IH Hall]; simpl.
  - constructor; constructor.
  - destruct (Z.ltb_spec (created_at x) (created_at y)) as [Hlt|Hge].
    + constructor; [exact IH|].
      apply Forall_forall. intros z Hz.
      assert (Hz' : z = x \/ In z l).
      { clear -Hz. induction l as [|u l IHl]; simpl in Hz; [intuition|].
        destruct (Z.ltb (created_at x) (created_at u)); simpl in Hz;
          simpl; intuition. }
      destruct Hz' as [->|Hz']; [lia|].
      rewrite Forall_forall in Hall. exact (Hall _ Hz').
    + constructor; [constructor; assumption|].
      constructor; [exact Hge|].
      rewrite Forall_forall in *. intros z Hz. specialize (Hall _ Hz). lia.
Qed.

Lemma listing_is_ordered (rows : list Row) :
  StronglySorted (fun r1 r2 => (created_at r2 <= created_at r1)%Z)
    (stable_sort (fun y x => Z.ltb (created_at x) (created_at y)) rows).
Proof.
  induction rows as [|r rows IH]; simpl; [constructor|].
  now apply insert_keeps_order.
Qed.

Lemma place_splits (r : Row) (rows : list Row) :
  exists l1 l2, rows = (l1 ++ l2)%list /\ place r rows = (l1 ++ r :: l2)%list.
Proof.
  induction rows as [|x rows (l1 & l2 & Hrows & Hplace)]; simpl.
  - exists [], []. split; reflexivity.
  - destruct (id r <? id x)%Z.
    + exists [], (x :: rows). split; reflexivity.
    + exists (x :: l1), l2. simpl. now rewrite Hplace, <- Hrows.
Qed.

(** A row newer than every other comes out of the sorter first, wherever
    it is in the table. *)
Lemma newest_row_sorts_first_anywhere (l1 l2 : list Row) (r : Row) :
  Forall (fun r' => (created_at r' < created_at r)%Z) (l1 ++ l2) ->
  stable_sort (fun y x => Z.ltb (created_at x) (created_at y)) (l1 ++ r :: l2)
    = r :: stable_sort (fun y x => Z.ltb (created_at x) (created_at y)) (l1 ++ l2).
Proof.
  induction l1 as [|x l1 IH]; simpl; intros Hold.
  - assert (Hs : Forall (fun r' => (created_at r' < created_at r)%Z)
                   (stable_sort (fun y x => Z.ltb (created_at x) (created_at y)) l2)).
    { apply Forall_forall. intros z Hz. apply stable_sort_In in Hz.
      rewrite Forall_forall in Hold. auto. }
    destruct (stable_sort (fun y x => created_at x <? created_at y)%Z l2) as [|y ys];
      simpl; [reflexivity|].
    inversion Hs as [|? ? Hy _]; subst.
    destruct (Z.ltb_spec (created_at r) (created_at y)); [lia|reflexivity].
  - inversion Hold as [|? ? Hx Hrest]; subst. rewrite (IH Hrest). simpl.
    destruct (Z.ltb_spec (created_at x) (created_at r)); [reflexivity|lia].
Qed.

(** What a successful add leaves behind: one more row in the table, with
    a new row id and the current second; the id reported is that row id as
    a number. *)
Lemma add_places_a_row (w : World) (req_body : list (string * JValue))
    (store store' : list Row) (calls : list Event) (new_id : Z) :
  serve (post_docs w req_body) store
    = ({| status := 200; body := AddedBody new_id |}, store', calls) ->
  exists i t c e,
    new_rowid w store = Ok i
    /\ new_id = js_number i
    /\ store' = place {| id := i; title := t; content := c; embedding := e;
                         created_at := now w |} store
    /\ calls = [EmbeddingCall (lookup "content" req_body);
                InsertDocument {| id := i; title := t; content := c; embedding := e;
                                  created_at := now w |}].
Proof.
  unfold serve, run, post_docs, try_catch, bind, call_embedding, emit, lift,
    insert_document, ret, raise, respond.
  destruct (negb (truthy (lookup "content" req_body))
            || negb (is_string (lookup "content" req_body))); simpl;
    [intros H; discriminate H|].
  destruct (embeddings_create w (lookup "content" req_body)) as [v|e]; simpl;
    [|intros H; discriminate H].
  destruct (bind_title w (lookup "title" req_body)) as [t|e]; simpl;
    [|intros H; discriminate H].
  destruct (insert_fault w) as [e|]; simpl; [intros H; discriminate H|].
  destruct (new_rowid w store) as [i|e]; simpl; intros H; [|discriminate H].
  injection H as <- <- <-. eauto 10.
Qed.

Lemma StronglySorted_map {A B : Type} (R : B -> B -> Prop) (f : A -> B) (l : list A) :
  StronglySorted (fun x y => R (f x) (f y)) l -> StronglySorted R (map f l).
Proof.
  induction 1 as [|x l Hs IH Hall]; simpl; constructor; [exact IH|].
  rewrite Forall_forall in *. intros y Hy. apply in_map_iff in Hy.
  destruct Hy as (z & <- & Hz). exact (Hall _ Hz).
Qed.

(** C7, as the code has it. After a successful add, a listing that reads
    the table returns the rows by non-increasing creation second, every
    snippet at most 800 characters long; the new document is first when
    its creation second is later than that of every document stored
    before. *)
Theorem list_after_add
    (w w' : World) (req_body : list (string * JValue))
    (store store' : list Row) (calls : list Event) (new_id : Z) :
  serve (post_docs w req_body) store
    = ({| status := 200; body := AddedBody new_id |}, store', calls) ->
  select_fault w' = None ->
  exists data,
    serve (get_docs w') store'
      = ({| status := 200; body := ListBody data |}, store', [SelectListing])
    /\ Forall (fun '(_, _, snip, _) => (String.length snip <= 800)%nat) data
    /\ StronglySorted (fun d1 d2 => (snd d2 <= snd d1)%Z) data
    /\ (Forall (fun r => (created_at r < now w)%Z) store ->
        exists t snip rest, data = (new_id, t, snip, now w) :: rest).
Proof.
  intros Hadd Hsel.
  destruct (add_places_a_row _ _ _ _ _ _ Hadd) as (i & t & c & e & _ & -> & -> & _).
  set (r := {| id := i; title := t; content := c; embedding := e;
               created_at := now w |}).
  set (view := fun r : Row => (js_number (id r), title r, snippet (content r),
                               created_at r)).
  set (by_date := fun y x : Row => Z.ltb (created_at x) (created_at y)).
  exists (map view (stable_sort by_date (place r store))).
  split; [|split; [|split]].
  - unfold serve, run, get_docs, try_catch, bind, select_listing, emit, ret.
    rewrite Hsel. reflexivity.
  - apply Forall_forall. intros d Hd. apply in_map_iff in Hd.
    destruct Hd as (x & <- & _). unfold view, snippet. apply snippet_length.
  - apply StronglySorted_map. unfold view. simpl. apply listing_is_ordered.
  - intros Hnew. destruct (place_splits r store) as (l1 & l2 & Hstore & ->).
    rewrite Hstore in Hnew. unfold by_date.
    rewrite (newest_row_sorts_first_anywhere l1 l2 r Hnew).
    exists t, (snippet c), (map view (stable_sort by_date (l1 ++ l2))). reflexivity.
Qed.

Lemma list_after_add_witness :
  exists data,
    serve (get_docs demo_world)
          [demo_row 1 1600000000 [1%float];
           {| id := 2; title := None; content := "new";
              embedding := Vector [1%float; 0%float]; created_at := 1700000000 |}]
      = ({| status := 200; body := ListBody data |},
         [demo_row 1 1600000000 [1%float];
          {| id := 2; title := None; content := "new";
             embedding := Vector [1%float; 0%float]; created_at := 1700000000 |}],
         [SelectListing])
    /\ exists t snip rest, data = (2%Z, t, snip, 1700000000%Z) :: rest.
Proof.
  destruct (list_after_add demo_world demo_world [("content", JStr "new")]
              [demo_row 1 1600000000 [1%float]]
              [demo_row 1 1600000000 [1%float];
               {| id := 2; title := None; content := "new";
                  embedding := Vector [1%float; 0%float]; created_at := 1700000000 |}]
              [EmbeddingCall (JStr "new");
               InsertDocument
                 {| id := 2; title := None; content := "new";
                    embedding := Vector [1%float; 0%float];
                    created_at := 1700000000 |}]
              2%Z eq_refl eq_refl)
    as (data & Hlist & _ & _ & Hfirst).
  exists data. split; [exact Hlist|].
  apply Hfirst. repeat constructor.
Defined.

(** C7, as stated, fails: a document added in the same second as an
    earlier one is listed after it. *)
Lemma same_second_add_is_listed_second :
  serve (post_docs demo_world [("title", JStr "b"); ("content", JStr "second")])
        [{| id := 1; title := Some "a"; content := "first";
            embedding := Vector [1%float; 0%float]; created_at := now demo_world |}]
    = ({| status := 200; body := AddedBody 2 |},
       [{| id := 1; title := Some "a"; content := "first";
           embedding := Vector [1%float; 0%float]; created_at := now demo_world |};
        {| id := 2; title := Some "b"; content := "second";
           embedding := Vector [1%float; 0%float]; created_at := now demo_world |}],
       [EmbeddingCall (JStr "second");
        InsertDocument
          {| id := 2; title := Some "b"; content := "second";
             embedding := Vector [1%float; 0%float]; created_at := now demo_world |}])
  /\ fst (fst (serve (get_docs demo_world)
        [{| id := 1; title := Some "a"; content := "first";
            embedding := Vector [1%float; 0%float]; created_at := now demo_world |};
         {| id := 2; title := Some "b"; content := "second";
            embedding := Vector [1%float; 0%float]; created_at := now demo_world |}]))
     = {| status := 200;
          body := ListBody [ (1%Z, Some "a", "first", now demo_world);
                             (2%Z, Some "b", "second", now demo_world) ] |}.
Proof. split; vm_compute; reflexivity. Qed.

(** Nor is it first when the clock behind [CURRENT_TIMESTAMP] has been set
    back since an earlier add, whatever the order among equal seconds. *)
Remark earlier_clock_add_is_listed_second :
  fst (fst (serve (get_docs demo_world)
        (snd (fst (serve (post_docs demo_world [("content", JStr "second")])
                     [{| id := 1; title := Some "a"; content := "first";
                         embedding := Vector [1%float; 0%float];
                         created_at := now demo_world + 60 |}])))))
  = {| status := 200;
       body := ListBody [ (1%Z, Some "a", "first", (now demo_world + 60)%Z);
                          (2%Z, None, "second", now demo_world) ] |}.
Proof. vm_compute. reflexivity. Qed.

(** ** The request pipelines *)

Lemma truthy_array_only (v : JValue) : isArray v = true -> truthy v = true.
Proof. destruct v; simpl; congruence. Qed.


(** Opening the chat pipeline of one request up to its first step. *)
Ltac open_chat := unfold serve, run, post_chat, try_catch, bind.

Lemma content_guard (v : JValue) :
  (forall s, v = JStr s -> s = "") ->
  negb (truthy v) || negb (is_string v) = true.
Proof.
  intros Hc. destruct v as [| |b|x|s|l|l]; simpl; rewrite ?orb_true_r; try reflexivity.
  rewrite (Hc s eq_refl). reflexivity.
Qed.

(** C6. An add request whose [content] is empty or not a string is answered
    with status 400; the table is the one before, and no call (embedding or
    insert) has been made. *)
Theorem add_rejects_empty_or_non_text_content
    (w : World) (req_body : list (string * JValue)) (store : list Row) :
  (forall s, lookup "content" req_body = JStr s -> s = "") ->
  serve (post_docs w req_body) store =
    ({| status := 400; body := ErrorBody "content is required" None |}, store, []).
Proof.
  intros Hc. unfold serve, run, post_docs, try_catch.
  rewrite (content_guard _ Hc). reflexivity.
Qed.

Lemma add_rejects_empty_or_non_text_content_witness :
  serve (post_docs demo_world [("title", JStr "t"); ("content", JNum 7%float)])
        [demo_row 1 5 [1%float]] =
    ({| status := 400; body := ErrorBody "content is required" None |},
     [demo_row 1 5 [1%float]], []).
Proof.
  apply add_rejects_empty_or_non_text_content.
  simpl. intros s Hs. discriminate Hs.
Defined.

Lemma moderate_runs (w : World) (c : JValue) (m : Machine) :
  moderate w c m =
    (match moderations_create w c with
     | Ok {| first_result := Some true |} => Return forbidden
     | _ => Next tt
     end,
     {| db := db m; log := log m ++ [ModerationCall c] |}).
Proof.
  unfold moderate, try_catch, call_moderation, bind, emit, lift.
  destruct (moderations_create w c) as [[[[|]|]]|e]; reflexivity.
Qed.

Lemma retrieve_recovers (w : World) (c : JValue) (m : Machine) (e : string) :
  fst (retrieval_steps w c m) = Raise e ->
  retrieve w c m = (Next "", snd (retrieval_steps w c m)).
Proof.
  unfold retrieve, try_catch. destruct (retrieval_steps w c m) as [[t|e'|r] m']; simpl;
    intros Hf; try discriminate Hf. reflexivity.
Qed.

Lemma retrieval_steps_frame (w : World) (c : JValue) (m : Machine) :
  exists calls,
    snd (retrieval_steps w c m) = {| db := db m; log := log m ++ calls |}
    /\ forall model msgs, ~ In (CompletionCall model msgs) calls.
Proof.
  unfold retrieval_steps, call_embedding, select_documents, bind, emit, lift.
  destruct (embeddings_create w c) as [q|e]; simpl.
  - destruct (select_fault w) as [e|]; simpl;
      exists [EmbeddingCall c; SelectDocuments];
      rewrite <- app_assoc; simpl; (split; [reflexivity|]);
      intros model msgs [H|[H|[]]]; discriminate H.
  - exists [EmbeddingCall c]. split; [reflexivity|].
    intros model msgs [H|[]]; discriminate H.
Qed.

(** The retrieval step fails in exactly two ways: the embedding call
    throws, or it returns and the read of the table throws. Scoring and
    ranking the rows read cannot fail: a row that does not parse is
    skipped. *)
Lemma retrieval_fails_iff (w : World) (c : JValue) (m : Machine) (e : string) :
  fst (retrieval_steps w c m) = Raise e
  <-> embeddings_create w c = Throw e
      \/ ((exists q, embeddings_create w c = Ok q) /\ select_fault w = Some e).
Proof.
  unfold retrieval_steps, call_embedding, select_documents, bind, emit, lift.
  destruct (embeddings_create w c) as [q|e']; simpl.
  - destruct (select_fault w) as [e'|]; simpl; split.
    + intros H. injection H as ->. right. eauto.
    + intros [H|[_ H]]; [discriminate H|]. now injection H as ->.
    + discriminate.
    + intros [H|[_ H]]; discriminate H.
  - split.
    + intros H. injection H as ->. now left.
    + intros [H|[[q H] _]]; [now injection H as ->|discriminate H].
Qed.

(** The search from the end passes over messages whose role is not
    ["user"]. *)
Lemma find_user_passes (skipped rest : list JValue) :
  Forall (fun x => exists r, get_prop x "role" = Ok r /\ strict_eq_str r "user" = false)
         skipped ->
  find_user (skipped ++ rest) = find_user rest.
Proof.
  induction 1 as [|x l (r & Hr & Hu) _ IH]; simpl; [reflexivity|].
  rewrite Hr, Hu. exact IH.
Qed.

(** The last message of role ["user"], when no message after it has an
    unreadable role, is the one the search from the end finds. *)
Lemma find_user_finds_the_last (before after : list JValue)
    (props : list (string * JValue)) :
  strict_eq_str (lookup "role" props) "user" = true ->
  Forall (fun m => exists r, get_prop m "role" = Ok r /\ strict_eq_str r "user" = false)
         after ->
  find_user (List.rev (before ++ JObj props :: after)) = Ok (JObj props).
Proof.
  intros Hrole Hafter.
  assert (Hrev : Forall (fun x => exists r, get_prop x "role" = Ok r
                                            /\ strict_eq_str r "user" = false)
                        (List.rev after)).
  { apply Forall_forall. intros x Hx. apply in_rev in Hx.
    rewrite Forall_forall in Hafter. auto. }
  rewrite rev_app_distr. simpl. rewrite <- app_assoc.
  rewrite (find_user_passes _ _ Hrev). simpl. now rewrite Hrole.
Qed.

(** C3. A request on a configured server whose last message of role
    ["user"] has a content that the moderation service reports as flagged
    is answered with status 403, and the only call made is the moderation
    call on that content: the table is not read and the chat-completion
    model is never called. The last message of role ["user"] is the one
    after which every message has a role, readable, that is not
    ["user"]; its content is read with [?? ""]. *)
Theorem flagged_content_is_forbidden
    (w : World) (req_body : list (string * JValue)) (store : list Row)
    (before after : list JValue) (props : list (string * JValue)) :
  key_missing w = false ->
  lookup "messages" req_body = JArr (before ++ JObj props :: after) ->
  strict_eq_str (lookup "role" props) "user" = true ->
  Forall (fun m => exists r, get_prop m "role" = Ok r /\ strict_eq_str r "user" = false)
         after ->
  moderations_create w (nullish_or (lookup "content" props) (JStr ""))
    = Ok {| first_result := Some true |} ->
  serve (post_chat w req_body) store
    = (forbidden, store,
       [ModerationCall (nullish_or (lookup "content" props) (JStr ""))])
  /\ forall model msgs,
       ~ In (CompletionCall model msgs) (snd (serve (post_chat w req_body) store)).
Proof.
  intros Hk Hm Hrole Hafter Hf.
  pose proof (find_user_finds_the_last before after props Hrole Hafter) as Hu.
  assert (E : serve (post_chat w req_body) store
              = (forbidden, store,
                 [ModerationCall (nullish_or (lookup "content" props) (JStr ""))])).
  { open_chat.
    rewrite Hk, Hm. cbn [truthy isArray negb orb elements]. rewrite Hu. simpl.
    rewrite moderate_runs, Hf. reflexivity. }
  split; [exact E|].
  rewrite E. simpl. intros model msgs [H|[]]. discriminate H.
Qed.

Lemma flagged_content_is_forbidden_witness :
  serve (post_chat wary_world answered_chat) [demo_row 1 5 [1%float]]
    = (forbidden, [demo_row 1 5 [1%float]], [ModerationCall (JStr "bad")])
  /\ forall model msgs,
       ~ In (CompletionCall model msgs)
            (snd (serve (post_chat wary_world answered_chat) [demo_row 1 5 [1%float]])).
Proof.
  apply (flagged_content_is_forbidden wary_world answered_chat
           [demo_row 1 5 [1%float]] []
           [JObj [("role", JStr "assistant"); ("content", JStr "ok")]]
           [("role", JStr "user"); ("content", JStr "bad")]);
    try reflexivity.
  repeat constructor. exists (JStr "assistant"). split; reflexivity.
Defined.

(** C2. On a request that passes validation and is not rejected by
    moderation, a retrieval step that fails (the embedding call throws, or
    the read of the table throws: the two places it can fail) does not
    stop the request: the model is called with a system prompt made of the
    fixed parts only, followed by the caller's non-system messages, and
    when that call returns the request is answered with status 200 and the
    reply. *)
Theorem retrieval_failure_is_not_fatal
    (w : World) (req_body : list (string * JValue)) (store : list Row)
    (items kept : list JValue) (lastUser lastContent : JValue) (e : string) :
  key_missing w = false ->
  lookup "messages" req_body = JArr items ->
  find_user (List.rev items) = Ok lastUser ->
  last_content lastUser = Ok lastContent ->
  (forall md, moderations_create w lastContent = Ok md -> first_result md <> Some true) ->
  fst (retrieval_steps w lastContent
         {| db := store; log := [ModerationCall lastContent] |}) = Raise e ->
  filter_not_system items = Ok kept ->
  let model := or_else (lookup "model" req_body) (JStr (MODEL w)) in
  let finalMessages := system_message "" :: kept in
  systemPrompt "" = join (nl ++ nl) systemPromptParts
  /\ String.index 0 "The following documents were retrieved" (systemPrompt "") = None
  /\ String.index 0 "--- DOCUMENT" (systemPrompt "") = None
  /\ exists before,
       snd (serve (post_chat w req_body) store)
         = (before ++ [CompletionCall model finalMessages])%list
       /\ (forall md msgs, ~ In (CompletionCall md msgs) before)
       /\ forall content,
            chat_completions_create w model finalMessages = Ok content ->
            fst (serve (post_chat w req_body) store)
              = ({| status := 200;
                    body := ReplyBody match content with Some s => s | None => "" end |},
                 store).
Proof.
  intros Hk Hm Hu Hc Hmod Hfail Hkept model finalMessages.
  split; [reflexivity|]. split; [vm_compute; reflexivity|].
  split; [vm_compute; reflexivity|].
  set (m1 := {| db := store; log := [ModerationCall lastContent] |}) in *.
  destruct (retrieval_steps_frame w lastContent m1) as (calls & Hsnd & Hno).
  exists (ModerationCall lastContent :: calls).
  assert (Hmd : moderate w lastContent {| db := store; log := [] |} = (Next tt, m1)).
  { rewrite moderate_runs. unfold m1. simpl.
    destruct (moderations_create w lastContent) as [[[[|]|]]|err] eqn:E; try reflexivity.
    exfalso. apply (Hmod _ eq_refl). reflexivity. }
  assert (E : post_chat w req_body {| db := store; log := [] |}
              = match chat_completions_create w model finalMessages with
                | Ok content =>
                    (Next {| status := 200;
                             body := ReplyBody match content with
                                               | Some s => s | None => "" end |},
                     {| db := store;
                        log := (ModerationCall lastContent :: calls)
                                 ++ [CompletionCall model finalMessages] |})
                | Throw err =>
                    (Next {| status := 500;
                             body := ErrorBody "Internal server error" (Some err) |},
                     {| db := store;
                        log := (ModerationCall lastContent :: calls)
                                 ++ [CompletionCall model finalMessages] |})
                end).
  { unfold post_chat, try_catch, bind.
    rewrite Hk, Hm. simpl. rewrite Hu. simpl. rewrite Hc. simpl.
    rewrite Hmd. rewrite (retrieve_recovers _ _ _ _ Hfail), Hsnd. simpl.
    rewrite Hkept. simpl.
    unfold call_completion, bind, emit, lift. simpl.
    fold model. fold finalMessages.
    destruct (chat_completions_create w model finalMessages); reflexivity. }
  unfold serve, run. rewrite E.
  destruct (chat_completions_create w model finalMessages) as [c|err]; simpl.
  - split; [reflexivity|]. split.
    + intros md msgs [H|H]; [discriminate H|]. exact (Hno _ _ H).
    + intros content Hok. injection Hok as <-. reflexivity.
  - split; [reflexivity|]. split.
    + intros md msgs [H|H]; [discriminate H|]. exact (Hno _ _ H).
    + intros content Hok. discriminate Hok.
Qed.

Lemma retrieval_failure_is_not_fatal_witness :
  exists before,
    snd (serve (post_chat offline_world demo_chat) [demo_row 1 5 [1%float; 0%float]])
      = (before ++ [CompletionCall (JStr "gpt-4")
                      (system_message ""
                         :: [ user_says "hi";
                              JObj [("role", JStr "assistant"); ("content", JStr "hello")];
                              user_says "what is in my notes?" ])])%list
    /\ fst (serve (post_chat offline_world demo_chat) [demo_row 1 5 [1%float; 0%float]])
       = ({| status := 200; body := ReplyBody "Hello!" |},
          [demo_row 1 5 [1%float; 0%float]]).
Proof.
  assert (Hmod : forall md,
             moderations_create offline_world (JStr "what is in my notes?") = Ok md ->
             first_result md <> Some true).
  { intros md H. injection H as <-. simpl. discriminate. }
  destruct (retrieval_failure_is_not_fatal offline_world demo_chat
              [demo_row 1 5 [1%float; 0%float]]
              (elements (lookup "messages" demo_chat))
              [ user_says "hi";
                JObj [("role", JStr "assistant"); ("content", JStr "hello")];
                user_says "what is in my notes?" ]
              (user_says "what is in my notes?")
              (JStr "what is in my notes?")
              "Error: connect ECONNREFUSED"
              eq_refl eq_refl eq_refl eq_refl Hmod eq_refl eq_refl)
    as (_ & _ & _ & before & Hlog & _ & Hreply).
  exists before. split; [exact Hlog|]. exact (Hreply (Some "Hello!") eq_refl).
Defined.

Lemma retrieve_frame (w : World) (c : JValue) (m : Machine) :
  exists ctx calls,
    retrieve w c m = (Next ctx, {| db := db m; log := log m ++ calls |})
    /\ forall model msgs, ~ In (CompletionCall model msgs) calls.
Proof.
  destruct (retrieval_steps_frame w c m) as (calls & Hsnd & Hno).
  unfold retrieve, try_catch.
  destruct (retrieval_steps w c m) as [[t|e|r] m'] eqn:E; simpl in Hsnd; subst m'.
  - exists t, calls. split; [reflexivity|exact Hno].
  - exists "", calls. split; [reflexivity|exact Hno].
  - exfalso. revert E.
    unfold retrieval_steps, call_embedding, select_documents, bind, emit, lift.
    destruct (embeddings_create w c); simpl; [|discriminate].
    destruct (select_fault w); simpl; discriminate.
Qed.

(** C5, as the code has it. On a configured server the request is answered
    with the client error 400 exactly when [messages] is missing or is not
    an array, and then before any call is made; every array passes
    validation, the empty one and one whose elements are not messages
    included, and is answered by a later step. *)
Theorem chat_rejects_exactly_non_array_messages
    (w : World) (req_body : list (string * JValue)) (store : list Row) :
  key_missing w = false ->
  (isArray (lookup "messages" req_body) = false ->
     serve (post_chat w req_body) store
       = ({| status := 400; body := ErrorBody "messages must be an array" None |},
          store, []))
  /\ (isArray (lookup "messages" req_body) = true ->
      status (fst (fst (serve (post_chat w req_body) store))) <> 400%nat).
Proof.
  intros Hk. split; intros Ha.
  - open_chat.
    rewrite Hk, Ha, orb_true_r. reflexivity.
  - open_chat.
    rewrite Hk, Ha, (truthy_array_only _ Ha). simpl.
    destruct (find_user (List.rev (elements (lookup "messages" req_body)))) as [u|e];
      simpl; [|discriminate].
    destruct (last_content u) as [c|e]; simpl; [|discriminate].
    rewrite moderate_runs. simpl.
    destruct (match moderations_create w c with
              | Ok {| first_result := Some true |} => Return forbidden
              | _ => Next tt
              end) as [[]|e|r] eqn:Em; simpl; try discriminate.
    + destruct (retrieve_frame w c {| db := store; log := [ModerationCall c] |})
        as (ctx & calls & -> & _).
      destruct (filter_not_system (elements (lookup "messages" req_body))) as [kept|e];
        simpl; [|discriminate].
      unfold call_completion, bind, emit, lift. simpl.
      destruct (chat_completions_create w _ _); simpl; discriminate.
    + destruct (moderations_create w c) as [[[[|]|]]|e']; try discriminate Em.
      injection Em as <-. simpl. discriminate.
Qed.

Lemma chat_rejects_exactly_non_array_messages_witness :
  serve (post_chat demo_world [("model", JStr "gpt-4")]) []
    = ({| status := 400; body := ErrorBody "messages must be an array" None |}, [], [])
  /\ status (fst (fst (serve (post_chat demo_world demo_chat) []))) <> 400%nat.
Proof.
  destruct (chat_rejects_exactly_non_array_messages demo_world
              [("model", JStr "gpt-4")] [] eq_refl) as [Hbad _].
  destruct (chat_rejects_exactly_non_array_messages demo_world demo_chat [] eq_refl)
    as [_ Hgood].
  split; [apply Hbad|apply Hgood]; reflexivity.
Defined.

(** C5, as stated, fails: an empty conversation passes validation, the
    pipeline runs on the empty content and the request is answered with a
    reply. *)
Lemma empty_conversation_is_answered :
  serve (post_chat demo_world [("messages", JArr [])]) []
    = ({| status := 200; body := ReplyBody "Hello!" |}, [],
       [ ModerationCall (JStr ""); EmbeddingCall (JStr ""); SelectDocuments;
         CompletionCall (JStr "gpt-4") [system_message ""] ]).
Proof. vm_compute. reflexivity. Qed.



(* ================================================================= *)
(** * Further properties of the server *)

(** ** The chat pipeline in closed form *)

Lemma retrieve_runs (w : World) (c : JValue) (m : Machine) :
  retrieve w c m
    = (Next (fst (retrieval_outcome w c (db m))),
       {| db := db m; log := log m ++ snd (retrieval_outcome w c (db m)) |}).
Proof.
  unfold retrieve, retrieval_steps, retrieval_outcome, try_catch, call_embedding,
    select_documents, bind, emit, lift, ret, raise.
  destruct (embeddings_create w c) as [q|e]; simpl.
  - destruct (select_fault w) as [e|]; simpl; rewrite <- ?app_assoc; reflexivity.
  - reflexivity.
Qed.

Lemma chat_in_closed_form (w : World) (req_body : list (string * JValue))
    (store : list Row) :
  serve (post_chat w req_body) store = chat_outcome w req_body store.
Proof.
  unfold chat_outcome. open_chat.
  destruct (key_missing w); [reflexivity|].
  destruct (negb (truthy (lookup "messages" req_body))
            || negb (isArray (lookup "messages" req_body))); [reflexivity|].
  destruct (find_user (List.rev (elements (lookup "messages" req_body)))) as [u|e];
    simpl; [|reflexivity].
  destruct (last_content u) as [c|e]; simpl; [|reflexivity].
  rewrite moderate_runs. unfold flagged.
  destruct (moderations_create w c) as [[[[|]|]]|e]; simpl; try reflexivity;
    rewrite retrieve_runs; simpl;
    (destruct (filter_not_system (elements (lookup "messages" req_body))) as [kept|e'];
     simpl; [|reflexivity]);
    unfold call_completion, bind, emit, lift, completion_response; simpl;
    destruct (chat_completions_create w _ _); simpl; rewrite <- ?app_assoc; reflexivity.
Qed.

Lemma retrieval_calls (w : World) (c : JValue) (rows : list Row) :
  snd (retrieval_outcome w c rows) = [EmbeddingCall c]
  \/ snd (retrieval_outcome w c rows) = [EmbeddingCall c; SelectDocuments].
Proof.
  unfold retrieval_outcome. destruct (embeddings_create w c); [|now left].
  destruct (select_fault w); now right.
Qed.

(** ** What a chat request does and never does *)

(** X1. A chat request never changes the table: whatever the request and
    whatever the services answer, the table after the request is the table
    before it, and no insert and no listing query is issued. *)
Theorem chat_leaves_the_table_alone
    (w : World) (req_body : list (string * JValue)) (store : list Row) :
  snd (fst (serve (post_chat w req_body) store)) = store
  /\ (forall r, ~ In (InsertDocument r) (snd (serve (post_chat w req_body) store)))
  /\ ~ In SelectListing (snd (serve (post_chat w req_body) store)).
Proof.
  rewrite chat_in_closed_form. unfold chat_outcome.
  destruct (key_missing w); [simpl; intuition|].
  destruct (negb (truthy (lookup "messages" req_body))
            || negb (isArray (lookup "messages" req_body))); [simpl; intuition|].
  destruct (find_user (List.rev (elements (lookup "messages" req_body)))) as [u|e];
    [|simpl; intuition].
  destruct (last_content u) as [c|e]; [|simpl; intuition].
  destruct (flagged w c); [simpl; intuition discriminate|].
  assert (Hr : forall ev, In ev (snd (retrieval_outcome w c store)) ->
                 ev = EmbeddingCall c \/ ev = SelectDocuments).
  { intros ev. destruct (retrieval_calls w c store) as [-> | ->]; simpl; intuition. }
  destruct (filter_not_system (elements (lookup "messages" req_body))) as [kept|e];
    simpl; (split; [reflexivity|]); split.
  - intros r [H|H]; [discriminate H|]. apply in_app_or in H.
    destruct H as [H|[H|[]]]; [|discriminate H].
    destruct (Hr _ H) as [H'|H']; discriminate H'.
  - intros [H|H]; [discriminate H|]. apply in_app_or in H.
    destruct H as [H|[H|[]]]; [|discriminate H].
    destruct (Hr _ H) as [H'|H']; discriminate H'.
  - intros r [H|H]; [discriminate H|].
    destruct (Hr _ H) as [H'|H']; discriminate H'.
  - intros [H|H]; [discriminate H|].
    destruct (Hr _ H) as [H'|H']; discriminate H'.
Qed.



Lemma retrieval_makes_no_model_call (w : World) (c : JValue) (rows : list Row)
    (model : JValue) (msgs : list JValue) :
  ~ In (CompletionCall model msgs) (snd (retrieval_outcome w c rows)).
Proof.
  destruct (retrieval_calls w c rows) as [-> | ->]; simpl; intuition discriminate.
Qed.

(** X3. The answer of a chat request that reached the model is the model's:
    status 200 with the text returned (the empty text when the reply holds
    none), or status 500 carrying the error text when the call throws; and
    no request is answered 200 without a model call. *)
Theorem chat_answer_is_the_models
    (w : World) (req_body : list (string * JValue)) (store : list Row) :
  (forall model msgs,
     In (CompletionCall model msgs) (snd (serve (post_chat w req_body) store)) ->
     fst (fst (serve (post_chat w req_body) store))
       = completion_response (chat_completions_create w model msgs))
  /\ (status (fst (fst (serve (post_chat w req_body) store))) = 200%nat ->
      exists model msgs content,
        In (CompletionCall model msgs) (snd (serve (post_chat w req_body) store))
        /\ chat_completions_create w model msgs = Ok content).
Proof.
  rewrite chat_in_closed_form. unfold chat_outcome.
  destruct (key_missing w); [simpl; split; [tauto|discriminate]|].
  destruct (negb (truthy (lookup "messages" req_body))
            || negb (isArray (lookup "messages" req_body)));
    [simpl; split; [tauto|discriminate]|].
  destruct (find_user (List.rev (elements (lookup "messages" req_body)))) as [u|e];
    [|simpl; split; [tauto|discriminate]].
  destruct (last_content u) as [c|e]; [|simpl; split; [tauto|discriminate]].
  destruct (flagged w c);
    [simpl; split; [intros ? ? [H|[]]; discriminate H|discriminate]|].
  pose proof (retrieval_makes_no_model_call w c store) as Hno.
  destruct (filter_not_system (elements (lookup "messages" req_body))) as [kept|e];
    simpl; split.
  - intros model msgs [H|H]; [discriminate H|]. apply in_app_or in H.
    destruct H as [H|[H|[]]]; [elim (Hno _ _ H)|].
    injection H as <- <-. reflexivity.
  - intros Hs.
    destruct (chat_completions_create w
                (or_else (lookup "model" req_body) (JStr (MODEL w)))
                (system_message (fst (retrieval_outcome w c store)) :: kept))
      as [content|err] eqn:E; [|discriminate Hs].
    eexists _, _, content. split; [|exact E].
    right. apply in_or_app. right. now left.
  - intros model msgs [H|H]; [discriminate H|]. elim (Hno _ _ H).
  - discriminate.
Qed.

(** What the search from the end returns: the last message of role
    ["user"], or [undefined] when there is none; every message it passed
    over has a readable role that is not ["user"]. *)
Lemma find_user_result (l : list JValue) (u : JValue) :
  find_user l = Ok u ->
  (u = JUndefined
   /\ Forall (fun m => exists r, get_prop m "role" = Ok r
                                 /\ strict_eq_str r "user" = false) l)
  \/ exists skipped props rest,
       l = (skipped ++ JObj props :: rest)%list
       /\ u = JObj props
       /\ strict_eq_str (lookup "role" props) "user" = true
       /\ Forall (fun m => exists r, get_prop m "role" = Ok r
                                     /\ strict_eq_str r "user" = false) skipped.
Proof.
  induction l as [|m l IH]; simpl.
  - intros H. injection H as <-. left. split; [reflexivity|constructor].
  - destruct (get_prop m "role") as [r|e] eqn:Er; [|discriminate].
    destruct (strict_eq_str r "user") eqn:Eu.
    + intros H. injection H as <-. right.
      destruct m as [| |b|x|t|items|props]; simpl in Er;
        try discriminate Er; try (injection Er as <-; discriminate Eu).
      injection Er as <-. exists [], props, l. repeat split; [exact Eu|constructor].
    + intros H. destruct (IH H) as [[-> Hall]|(skipped & props & rest & -> & -> & Hrole & Hall)].
      * left. split; [reflexivity|]. constructor; [eauto|exact Hall].
      * right. exists (m :: skipped), props, rest.
        repeat split; [exact Hrole|]. constructor; [eauto|exact Hall].
Qed.

(** X4. A request is refused as a policy violation only on the word of the
    moderation service: a 403 means that [messages] is an array, that the
    moderation call was made on the content of its last message of role
    ["user"] (read with [?? ""]; the empty text when no message has that
    role), that the call returned and flagged it, and that nothing else
    was called. *)
Theorem forbidden_only_when_flagged
    (w : World) (req_body : list (string * JValue)) (store : list Row) :
  status (fst (fst (serve (post_chat w req_body) store))) = 403%nat ->
  exists items c,
    lookup "messages" req_body = JArr items
    /\ ((exists before props after,
           items = (before ++ JObj props :: after)%list
           /\ strict_eq_str (lookup "role" props) "user" = true
           /\ Forall (fun m => exists r, get_prop m "role" = Ok r
                                         /\ strict_eq_str r "user" = false) after
           /\ c = nullish_or (lookup "content" props) (JStr ""))
        \/ (Forall (fun m => exists r, get_prop m "role" = Ok r
                                       /\ strict_eq_str r "user" = false) items
            /\ c = JStr ""))
    /\ serve (post_chat w req_body) store = (forbidden, store, [ModerationCall c])
    /\ moderations_create w c = Ok {| first_result := Some true |}.
Proof.
  rewrite chat_in_closed_form. unfold chat_outcome.
  destruct (key_missing w); [discriminate|].
  destruct (lookup "messages" req_body) as [| |b|x|t|items|props] eqn:Em;
    cbn [isArray negb elements]; rewrite ?orb_true_r; try discriminate.
  cbn [truthy negb orb].
  destruct (find_user (List.rev items)) as [u|e] eqn:Eu; [|discriminate].
  destruct (last_content u) as [c|e] eqn:Ec; [|discriminate].
  destruct (flagged w c) eqn:Ef.
  - intros _. exists items, c. split; [reflexivity|].
    assert (Hflag : moderations_create w c = Ok {| first_result := Some true |}).
    { unfold flagged in Ef.
      destruct (moderations_create w c) as [[[[|]|]]|e]; try discriminate Ef.
      reflexivity. }
    split; [|split; [reflexivity|exact Hflag]].
    destruct (find_user_result _ _ Eu)
      as [[-> Hall]|(skipped & props & rest & Hrev & -> & Hrole & Hall)].
    + right. simpl in Ec. injection Ec as <-. split; [|reflexivity].
      apply Forall_forall. intros m Hm. rewrite Forall_forall in Hall.
      apply Hall. now apply -> in_rev.
    + left. exists (List.rev rest), props, (List.rev skipped).
      assert (Hitems : items = (List.rev rest ++ JObj props :: List.rev skipped)%list).
      { rewrite <- (rev_involutive items), Hrev, rev_app_distr. simpl.
        now rewrite <- app_assoc. }
      split; [exact Hitems|]. split; [exact Hrole|]. split.
      * apply Forall_forall. intros m Hm. rewrite Forall_forall in Hall.
        apply Hall. now apply in_rev.
      * simpl in Ec. now injection Ec as <-.
  - destruct (filter_not_system items) as [kept|e]; simpl; [|discriminate].
    destruct (chat_completions_create w _ _); discriminate.
Qed.

Lemma forbidden_only_when_flagged_witness :
  exists items c,
    lookup "messages" answered_chat = JArr items
    /\ ((exists before props after,
           items = (before ++ JObj props :: after)%list
           /\ strict_eq_str (lookup "role" props) "user" = true
           /\ Forall (fun m => exists r, get_prop m "role" = Ok r
                                         /\ strict_eq_str r "user" = false) after
           /\ c = nullish_or (lookup "content" props) (JStr ""))
        \/ (Forall (fun m => exists r, get_prop m "role" = Ok r
                                       /\ strict_eq_str r "user" = false) items
            /\ c = JStr ""))
    /\ serve (post_chat wary_world answered_chat) []
       = (forbidden, [], [ModerationCall c])
    /\ moderations_create wary_world c = Ok {| first_result := Some true |}.
Proof. apply forbidden_only_when_flagged. reflexivity. Defined.

(** X5. A failing moderation service does not change the outcome: when the
    moderation call throws, the response, the table and the calls of every
    chat request are those of the same request with a moderation service
    that returns and flags nothing. *)
Theorem moderation_outage_is_not_fatal
    (w : World) (req_body : list (string * JValue)) (store : list Row) :
  (forall input, exists e, moderations_create w input = Throw e) ->
  serve (post_chat w req_body) store
    = serve (post_chat (with_moderation w (fun _ => Ok {| first_result := None |}))
               req_body) store.
Proof.
  intros Hdown. rewrite !chat_in_closed_form. unfold chat_outcome.
  change (key_missing (with_moderation w _)) with (key_missing w).
  destruct (key_missing w); [reflexivity|].
  destruct (negb (truthy (lookup "messages" req_body))
            || negb (isArray (lookup "messages" req_body))); [reflexivity|].
  destruct (find_user (List.rev (elements (lookup "messages" req_body)))) as [u|e];
    [|reflexivity].
  destruct (last_content u) as [c|e]; [|reflexivity].
  assert (Hf : flagged w c = false).
  { unfold flagged. destruct (Hdown c) as [e ->]. reflexivity. }
  rewrite Hf. reflexivity.
Qed.

Lemma moderation_outage_is_not_fatal_witness :
  serve (post_chat (with_moderation demo_world (fun _ => Throw "Error: timeout"))
           demo_chat) []
    = serve (post_chat demo_world demo_chat) [].
Proof.
  rewrite (moderation_outage_is_not_fatal
             (with_moderation demo_world (fun _ => Throw "Error: timeout")) demo_chat []).
  - reflexivity.
  - intros input. exists "Error: timeout". reflexivity.
Defined.

Lemma completion_call_model
    (w : World) (req_body : list (string * JValue)) (store : list Row)
    (model : JValue) (msgs : list JValue) :
  In (CompletionCall model msgs) (snd (serve (post_chat w req_body) store)) ->
  model = or_else (lookup "model" req_body) (JStr (MODEL w)).
Proof.
  rewrite chat_in_closed_form. unfold chat_outcome.
  destruct (key_missing w); [simpl; tauto|].
  destruct (negb (truthy (lookup "messages" req_body))
            || negb (isArray (lookup "messages" req_body))); [simpl; tauto|].
  destruct (find_user (List.rev (elements (lookup "messages" req_body)))) as [u|e];
    [|simpl; tauto].
  destruct (last_content u) as [c|e]; [|simpl; tauto].
  destruct (flagged w c); [simpl; intros [H|[]]; discriminate H|].
  pose proof (retrieval_makes_no_model_call w c store) as Hno.
  destruct (filter_not_system (elements (lookup "messages" req_body))) as [kept|e];
    simpl; intros [H|H]; try discriminate H.
  - apply in_app_or in H. destruct H as [H|[H|[]]]; [elim (Hno _ _ H)|].
    now injection H as <- _.
  - elim (Hno _ _ H).
Qed.

(** X6. The model named to the chat-completion call is the request's
    [model] when that is truthy, and the configured default otherwise;
    with a non-empty default it is never a falsy value. *)
Theorem model_defaults_to_the_configured_one
    (w : World) (req_body : list (string * JValue)) (store : list Row)
    (model : JValue) (msgs : list JValue) :
  In (CompletionCall model msgs) (snd (serve (post_chat w req_body) store)) ->
  (truthy (lookup "model" req_body) = true -> model = lookup "model" req_body)
  /\ (truthy (lookup "model" req_body) = false -> model = JStr (MODEL w))
  /\ (MODEL w <> "" -> truthy model = true).
Proof.
  intros Hin. apply completion_call_model in Hin.
  subst model. unfold or_else.
  destruct (truthy (lookup "model" req_body)) eqn:Et; repeat split; try congruence.
  intros Hne. simpl. destruct (String.eqb_spec (MODEL w) ""); [contradiction|reflexivity].
Qed.

Lemma model_defaults_to_the_configured_one_witness :
  (truthy (lookup "model" demo_chat) = false -> JStr "gpt-4" = JStr (MODEL demo_world))
  /\ truthy (JStr "gpt-4") = true.
Proof.
  destruct (model_defaults_to_the_configured_one demo_world demo_chat []
              (JStr "gpt-4")
              [ system_message "";
                user_says "hi";
                JObj [("role", JStr "assistant"); ("content", JStr "hello")];
                user_says "what is in my notes?" ])
    as (_ & Hdefault & Htruthy).
  - vm_compute. right. right. right. left. reflexivity.
  - split; [exact Hdefault|]. apply Htruthy. discriminate.
Defined.

Lemma last_content_returns (u : JValue) : exists c, last_content u = Ok c.
Proof. destruct u; simpl; eauto. Qed.

Lemma chat_starts_with_moderation (w : World) (req_body : list (string * JValue))
    (store : list Row) (items : list JValue) (u c : JValue) :
  key_missing w = false ->
  lookup "messages" req_body = JArr items ->
  find_user (List.rev items) = Ok u ->
  last_content u = Ok c ->
  exists rest, snd (serve (post_chat w req_body) store) = ModerationCall c :: rest.
Proof.
  intros Hk Hm Hu Hc. rewrite chat_in_closed_form. unfold chat_outcome.
  rewrite Hk, Hm. simpl. rewrite Hu, Hc.
  destruct (flagged w c); [simpl; eauto|].
  destruct (filter_not_system items); simpl; eauto.
Qed.

(** X7. The content checked by moderation is that of the last message whose
    role is [user], whatever precedes it, as long as the roles of the
    messages after it can be read; when no message has that role, it is
    the empty text. *)
Theorem moderation_reads_the_last_user_message
    (w : World) (req_body : list (string * JValue)) (store : list Row)
    (before after : list JValue) (props : list (string * JValue)) :
  key_missing w = false ->
  Forall (fun x => exists r, get_prop x "role" = Ok r /\ strict_eq_str r "user" = false)
         after ->
  (lookup "messages" req_body = JArr (before ++ JObj props :: after) ->
   strict_eq_str (lookup "role" props) "user" = true ->
   exists rest,
     snd (serve (post_chat w req_body) store)
       = ModerationCall (nullish_or (lookup "content" props) (JStr "")) :: rest)
  /\ (lookup "messages" req_body = JArr after ->
      exists rest,
        snd (serve (post_chat w req_body) store) = ModerationCall (JStr "") :: rest).
Proof.
  intros Hk Hafter.
  assert (Hrev : Forall (fun x => exists r, get_prop x "role" = Ok r
                                            /\ strict_eq_str r "user" = false)
                        (List.rev after)).
  { apply Forall_forall. intros x Hx. apply in_rev in Hx.
    rewrite Forall_forall in Hafter. auto. }
  split.
  - intros Hm Hrole.
    apply (chat_starts_with_moderation w req_body store _ (JObj props) _ Hk Hm);
      [|reflexivity].
    rewrite rev_app_distr. simpl. rewrite <- app_assoc.
    rewrite (find_user_passes _ _ Hrev). simpl. now rewrite Hrole.
  - intros Hm.
    apply (chat_starts_with_moderation w req_body store _ JUndefined _ Hk Hm);
      [|reflexivity].
    rewrite <- (app_nil_r (List.rev after)).
    now rewrite (find_user_passes _ _ Hrev).
Qed.

Lemma moderation_reads_the_last_user_message_witness :
  exists rest,
    snd (serve (post_chat demo_world
                  [("messages",
                    JArr [ JNull; user_says "first"; user_says "second";
                           JObj [("role", JStr "assistant"); ("content", JStr "...")] ])])
               [])
      = ModerationCall (JStr "second") :: rest.
Proof.
  destruct (moderation_reads_the_last_user_message demo_world
              [("messages",
                JArr [ JNull; user_says "first"; user_says "second";
                       JObj [("role", JStr "assistant"); ("content", JStr "...")] ])]
              [] [JNull; user_says "first"]
              [JObj [("role", JStr "assistant"); ("content", JStr "...")]]
              [("role", JStr "user"); ("content", JStr "second")]
              eq_refl) as [Hlast _].
  - repeat constructor. exists (JStr "assistant"). split; reflexivity.
  - apply Hlast; reflexivity.
Defined.



(** ** The document endpoints *)

Lemma fold_max_bounds (r : Row) (rest : list Row) :
  (id r <= fold_right (fun r' acc => Z.max (id r') acc) (id r) rest)%Z
  /\ Forall (fun x => (id x <= fold_right (fun r' acc => Z.max (id r') acc) (id r) rest)%Z)
            rest.
Proof.
  induction rest as [|x rest [IH1 IH2]]; simpl; [split; [lia|constructor]|].
  split; [lia|]. constructor; [lia|].
  rewrite Forall_forall in *. intros y Hy. specialize (IH2 _ Hy). lia.
Qed.

Lemma next_id_is_fresh (rows : list Row) :
  Forall (fun r => (id r < next_id rows)%Z) rows.
Proof.
  destruct rows as [|r rest]; [constructor|]. unfold next_id.
  destruct (fold_max_bounds r rest) as [H1 H2].
  constructor; [lia|].
  rewrite Forall_forall in *. intros y Hy. specialize (H2 _ Hy). lia.
Qed.

Lemma in_use_spec (i : Z) (rows : list Row) :
  in_use i rows = false <-> ~ In i (map id rows).
Proof.
  unfold in_use. induction rows as [|r rows IH]; simpl; [tauto|].
  destruct (Z.eqb_spec (id r) i); simpl; [intuition discriminate|].
  rewrite IH. tauto.
Qed.

(** A new row id is never one in use, and never beyond the largest there
    is; while the table has room at the top it is [next_id]. *)
Lemma new_rowid_is_fresh (w : World) (rows : list Row) (i : Z) :
  new_rowid w rows = Ok i ->
  in_use i rows = false
  /\ (i <= max_rowid)%Z
  /\ ((next_id rows <= max_rowid)%Z -> i = next_id rows).
Proof.
  unfold new_rowid. destruct (Z.leb_spec (next_id rows) max_rowid) as [Hle|Hgt].
  - intros H. injection H as <-. split; [|split; [exact Hle|reflexivity]].
    apply in_use_spec. intros Hin. apply in_map_iff in Hin.
    destruct Hin as (r & Hid & Hr).
    pose proof (next_id_is_fresh rows) as Hf. rewrite Forall_forall in Hf.
    specialize (Hf r Hr). lia.
  - destruct (random_rowid w) as [c|]; [|discriminate].
    destruct (0 <? c)%Z; simpl; [|discriminate].
    destruct (Z.leb_spec c max_rowid) as [Hc|Hc]; simpl; [|discriminate].
    destruct (in_use c rows) eqn:Eu; simpl; [discriminate|].
    intros Hi. injection Hi as <-. split; [exact Eu|]. split; [exact Hc|lia].
Qed.

Lemma place_permutes (r : Row) (rows : list Row) : Permutation (place r rows) (r :: rows).
Proof.
  destruct (place_splits r rows) as (l1 & l2 & -> & ->).
  symmetry. apply Permutation_middle.
Qed.

Lemma place_appends (r : Row) (rows : list Row) :
  Forall (fun x => (id x < id r)%Z) rows -> place r rows = (rows ++ [r])%list.
Proof.
  induction 1 as [|x rows Hx _ IH]; simpl; [reflexivity|].
  destruct (Z.ltb_spec (id r) (id x)); [lia|]. now rewrite IH.
Qed.

Lemma place_In (r x : Row) (rows : list Row) :
  In x (place r rows) <-> x = r \/ In x rows.
Proof.
  split.
  - intros H. apply (Permutation_in _ (place_permutes r rows)) in H.
    simpl in H. intuition.
  - intros H. apply (Permutation_in _ (Permutation_sym (place_permutes r rows))).
    simpl. intuition.
Qed.

(** A table in increasing order of row id stays so. *)
Lemma place_keeps_order (r : Row) (rows : list Row) :
  in_use (id r) rows = false ->
  StronglySorted (fun a b => (id a < id b)%Z) rows ->
  StronglySorted (fun a b => (id a < id b)%Z) (place r rows).
Proof.
  intros Hfree Hs. induction Hs as [|x rows Hs IH Hall]; simpl.
  - constructor; constructor.
  - unfold in_use in Hfree. simpl in Hfree.
    destruct (Z.eqb_spec (id x) (id r)) as [E|Hne]; simpl in Hfree; [discriminate|].
    destruct (Z.ltb_spec (id r) (id x)) as [Hlt|Hge].
    + constructor; [constructor; assumption|].
      constructor; [exact Hlt|].
      rewrite Forall_forall in *. intros y Hy. specialize (Hall y Hy). lia.
    + constructor; [exact (IH Hfree)|].
      apply Forall_forall. intros y Hy. apply place_In in Hy.
      destruct Hy as [->|Hy]; [lia|].
      rewrite Forall_forall in Hall. exact (Hall y Hy).
Qed.

Lemma js_number_small (i : Z) : (Z.abs i < 2 ^ 53)%Z -> js_number i = i.
Proof.
  intros Hi. unfold js_number.
  destruct (Z.ltb_spec (Z.abs i) (2 ^ 53)); [reflexivity|lia].
Qed.

(** X9. Adding a document whose content is a non-empty text, when the
    embedding call returns, the title can be bound, the insert goes
    through and a row id is found, answers status 200 with that row id as
    a number and puts exactly one row into the table: the content
    verbatim, the embedding as JSON writes it, the title (NULL for a
    missing or empty one) and the current second. While the largest id in
    use is below [2^63 - 1] the row id is one more than it and the row is
    the last of the table; a row id of magnitude below [2^53] is reported
    as it is. *)
Theorem add_stores_the_document
    (w : World) (req_body : list (string * JValue)) (store : list Row)
    (text : string) (vector : list float) (t : option string) (i : Z) :
  lookup "content" req_body = JStr text ->
  text <> "" ->
  embeddings_create w (JStr text) = Ok vector ->
  bind_title w (lookup "title" req_body) = Ok t ->
  insert_fault w = None ->
  new_rowid w store = Ok i ->
  let r := {| id := i; title := t; content := text;
              embedding := JSON_stringify vector; created_at := now w |} in
  serve (post_docs w req_body) store
    = ({| status := 200; body := AddedBody (js_number i) |},
       place r store,
       [EmbeddingCall (JStr text); InsertDocument r])
  /\ (truthy (lookup "title" req_body) = false -> t = None)
  /\ ((next_id store <= max_rowid)%Z ->
      i = next_id store /\ place r store = (store ++ [r])%list)
  /\ ((Z.abs i < 2 ^ 53)%Z -> js_number i = i).
Proof.
  intros Hc Hne He Ht Hi Hid r. split; [|split; [|split]].
  - unfold serve, run, post_docs, try_catch, bind, call_embedding, emit, lift,
      insert_document, ret.
    rewrite Hc. simpl.
    destruct (String.eqb_spec text "") as [E|_]; [contradiction|]. simpl.
    rewrite He. simpl. rewrite Ht. simpl. rewrite Hi, Hid. reflexivity.
  - intros Hfalsy. unfold bind_title, or_else in Ht. rewrite Hfalsy in Ht.
    now injection Ht as <-.
  - intros Hroom. destruct (new_rowid_is_fresh w store i Hid) as (_ & _ & Hnext).
    specialize (Hnext Hroom). split; [exact Hnext|].
    apply place_appends. subst i. apply next_id_is_fresh.
  - apply js_number_small.
Qed.

Lemma add_stores_the_document_witness :
  serve (post_docs demo_world [("title", JStr ""); ("content", JStr "remember this")])
        [demo_row 4 5 [1%float]]
    = ({| status := 200; body := AddedBody 5 |},
       [ demo_row 4 5 [1%float];
         {| id := 5; title := None; content := "remember this";
            embedding := Vector [1%float; 0%float]; created_at := 1700000000 |} ],
       [ EmbeddingCall (JStr "remember this");
         InsertDocument
           {| id := 5; title := None; content := "remember this";
              embedding := Vector [1%float; 0%float]; created_at := 1700000000 |} ]).
Proof.
  refine (proj1 (add_stores_the_document demo_world
           [("title", JStr ""); ("content", JStr "remember this")]
           [demo_row 4 5 [1%float]] "remember this" [1%float; 0%float] None 5
           _ _ _ _ _ _)); try reflexivity.
  discriminate.
Defined.

(** X10. An add is all or nothing: either it answers 200 and the table has
    grown by exactly one row, whose row id was not in use and is the id
    reported (as a number), or it answers 400 or 500 and the table is the
    one before; a failed embedding call, a title that cannot be bound, a
    failed insert or a table without a free row id never leaves a row
    behind. *)
Theorem add_is_all_or_nothing
    (w : World) (req_body : list (string * JValue)) (store : list Row) :
  let '(resp, store', calls) := serve (post_docs w req_body) store in
  (status resp = 200%nat
   /\ exists r l1 l2,
        store = (l1 ++ l2)%list /\ store' = (l1 ++ r :: l2)%list
        /\ in_use (id r) store = false
        /\ body resp = AddedBody (js_number (id r))
        /\ In (InsertDocument r) calls)
  \/ ((status resp = 400%nat \/ status resp = 500%nat) /\ store' = store).
Proof.
  unfold serve, run, post_docs, try_catch, bind, call_embedding, emit, lift,
    insert_document, ret, raise, respond.
  destruct (negb (truthy (lookup "content" req_body))
            || negb (is_string (lookup "content" req_body))); simpl; [auto|].
  destruct (embeddings_create w (lookup "content" req_body)) as [v|e]; simpl; [|auto].
  destruct (bind_title w (lookup "title" req_body)) as [t|e]; simpl; [|auto].
  destruct (insert_fault w) as [e|]; simpl; [auto|].
  destruct (new_rowid w store) as [i|e] eqn:Eid; simpl; [|auto].
  left. split; [reflexivity|].
  set (r := {| id := i; title := t; content := text_of (lookup "content" req_body);
               embedding := JSON_stringify v; created_at := now w |}).
  destruct (place_splits r store) as (l1 & l2 & Hstore & Hplace).
  exists r, l1, l2. split; [exact Hstore|]. split; [exact Hplace|].
  split; [exact (proj1 (new_rowid_is_fresh w store i Eid))|].
  split; [reflexivity|]. right. now left.
Qed.

(** X11. Row ids are never reused: the row a successful add stores has an
    id that no row had before, so a table without two rows of one id, and
    a table in increasing order of id, is still one after the add. While
    the largest id in use is below [2^63 - 1] the new id is larger than
    every id in the table. The id reported is the row's id as a number,
    the same integer when its magnitude is below [2^53]. *)
Theorem added_id_is_fresh
    (w : World) (req_body : list (string * JValue)) (store store' : list Row)
    (calls : list Event) (new_id : Z) :
  serve (post_docs w req_body) store
    = ({| status := 200; body := AddedBody new_id |}, store', calls) ->
  exists r,
    Permutation store' (r :: store)
    /\ ~ In (id r) (map id store)
    /\ new_id = js_number (id r)
    /\ ((Z.abs (id r) < 2 ^ 53)%Z -> new_id = id r)
    /\ ((next_id store <= max_rowid)%Z -> Forall (fun x => (id x < id r)%Z) store)
    /\ (NoDup (map id store) -> NoDup (map id store'))
    /\ (StronglySorted (fun a b => (id a < id b)%Z) store ->
        StronglySorted (fun a b => (id a < id b)%Z) store').
Proof.
  intros Hadd.
  destruct (add_places_a_row _ _ _ _ _ _ Hadd) as (i & t & c & e & Hid & -> & -> & _).
  destruct (new_rowid_is_fresh w store i Hid) as (Hfree & _ & Hnext).
  set (r := {| id := i; title := t; content := c; embedding := e;
               created_at := now w |}).
  exists r. split; [apply place_permutes|].
  split; [now apply in_use_spec|]. split; [reflexivity|].
  split; [intros Hsmall; now apply js_number_small|].
  split; [|split].
  - intros Hroom. simpl. rewrite (Hnext Hroom). apply next_id_is_fresh.
  - intros Hnd.
    apply (Permutation_NoDup (l := map id (r :: store))).
    + symmetry. apply Permutation_map, place_permutes.
    + simpl. constructor; [now apply in_use_spec|exact Hnd].
  - now apply place_keeps_order.
Qed.

Lemma added_id_is_fresh_witness :
  exists r,
    Permutation
      [demo_row 2 5 [1%float]; demo_row 4 5 [1%float];
       {| id := 5; title := None; content := "remember this";
          embedding := Vector [1%float; 0%float]; created_at := 1700000000 |}]
      (r :: [demo_row 2 5 [1%float]; demo_row 4 5 [1%float]])
    /\ ~ In (id r) (map id [demo_row 2 5 [1%float]; demo_row 4 5 [1%float]])
    /\ 5%Z = js_number (id r).
Proof.
  destruct (added_id_is_fresh demo_world [("content", JStr "remember this")]
              [demo_row 2 5 [1%float]; demo_row 4 5 [1%float]]
              [demo_row 2 5 [1%float]; demo_row 4 5 [1%float];
               {| id := 5; title := None; content := "remember this";
                  embedding := Vector [1%float; 0%float];
                  created_at := 1700000000 |}]
              [ EmbeddingCall (JStr "remember this");
                InsertDocument
                  {| id := 5; title := None; content := "remember this";
                     embedding := Vector [1%float; 0%float];
                     created_at := 1700000000 |} ]
              5%Z eq_refl) as (r & Hp & Hfresh & Hid & _).
  exists r. auto.
Defined.

Lemma insert_permutes {A : Type} (before : A -> A -> bool) (x : A) (l : list A) :
  Permutation (insert before x l) (x :: l).
Proof.
  induction l as [|y l IH]; simpl; [reflexivity|].
  destruct (before y x); [|reflexivity].
  rewrite IH. apply perm_swap.
Qed.

Lemma stable_sort_permutes {A : Type} (before : A -> A -> bool) (l : list A) :
  Permutation (stable_sort before l) l.
Proof.
  induction l as [|x l IH]; simpl; [reflexivity|].
  rewrite insert_permutes. now constructor.
Qed.

(** X12. Listing reads and never writes: with the table readable it answers
    200 with one entry for every stored row and no other (id, title,
    snippet and creation second of each), and with the read failing it
    answers 500; either way the table is the one before and the listing
    query is the only call. *)
Theorem listing_shows_every_document
    (w : World) (store : list Row) :
  (select_fault w = None ->
   exists data,
     serve (get_docs w) store
       = ({| status := 200; body := ListBody data |}, store, [SelectListing])
     /\ Permutation data (map listed store))
  /\ (forall e, select_fault w = Some e ->
        serve (get_docs w) store
          = ({| status := 500; body := ErrorBody "failed to list documents" None |},
             store, [SelectListing])).
Proof.
  split.
  - intros Hs. eexists. split.
    + unfold serve, run, get_docs, try_catch, bind, select_listing, emit, ret.
      rewrite Hs. reflexivity.
    + apply Permutation_map. apply stable_sort_permutes.
  - intros e Hs.
    unfold serve, run, get_docs, try_catch, bind, select_listing, emit, ret, raise.
    rewrite Hs. reflexivity.
Qed.

Lemma listing_shows_every_document_witness :
  exists data,
    serve (get_docs demo_world) [demo_row 1 5 [1%float]; demo_row 2 9 [1%float]]
      = ({| status := 200; body := ListBody data |},
         [demo_row 1 5 [1%float]; demo_row 2 9 [1%float]], [SelectListing])
    /\ Permutation data
         (map listed [demo_row 1 5 [1%float]; demo_row 2 9 [1%float]]).
Proof.
  destruct (listing_shows_every_document demo_world
              [demo_row 1 5 [1%float]; demo_row 2 9 [1%float]]) as [Hok _].
  apply Hok. reflexivity.
Defined.

Lemma substring_prefix (n : nat) (c : string) :
  exists rest, c = String.substring 0 n c ++ rest.
Proof.
  revert n. induction c as [|ch c IH]; intros [|n]; simpl;
    try (eexists; reflexivity).
  destruct (IH n) as [rest Hrest]. exists rest. now rewrite <- Hrest.
Qed.

Lemma substring_whole (n : nat) (c : string) :
  (String.length c <= n)%nat -> String.substring 0 n c = c.
Proof.
  revert n. induction c as [|ch c IH]; intros [|n] Hlen; simpl in *;
    try reflexivity; try lia.
  rewrite IH by lia. reflexivity.
Qed.

Lemma chars_app (a b : string) :
  list_ascii_of_string (a ++ b)
  = (list_ascii_of_string a ++ list_ascii_of_string b)%list.
Proof. induction a as [|ch a IH]; simpl; [reflexivity|]. now rewrite IH. Qed.

Lemma up_to_nul_prefix (c : string) : exists rest, c = up_to_nul c ++ rest.
Proof.
  induction c as [|ch c (rest & Hrest)]; simpl; [now exists ""|].
  destruct (Ascii.eqb ch Ascii.zero); simpl; [now eexists|].
  exists rest. now rewrite <- Hrest.
Qed.

Lemma up_to_nul_clean (c : string) :
  ~ In Ascii.zero (list_ascii_of_string (up_to_nul c)).
Proof.
  induction c as [|ch c IH]; simpl; [tauto|].
  destruct (Ascii.eqb_spec ch Ascii.zero); simpl; tauto.
Qed.

Lemma up_to_nul_cut (a b : string) :
  ~ In Ascii.zero (list_ascii_of_string a) ->
  up_to_nul (a ++ String Ascii.zero b) = a.
Proof.
  induction a as [|ch a IH]; simpl; intros Hclean; [reflexivity|].
  destruct (Ascii.eqb_spec ch Ascii.zero) as [->|_]; [tauto|].
  rewrite IH by tauto. reflexivity.
Qed.

Lemma up_to_nul_whole (c : string) :
  ~ In Ascii.zero (list_ascii_of_string c) -> up_to_nul c = c.
Proof.
  induction c as [|ch c IH]; simpl; intros Hclean; [reflexivity|].
  destruct (Ascii.eqb_spec ch Ascii.zero) as [->|_]; [tauto|].
  rewrite IH by tauto. reflexivity.
Qed.

(** X13. The snippet of a listing is the beginning of the content: the
    content always starts with it, it is never longer than 800 characters
    and never holds U+0000. A content of at most 800 characters without
    U+0000 is listed whole; a content with U+0000 is listed up to the
    first one, or up to 800 characters if that is less. *)
Theorem snippet_is_the_beginning (c : string) :
  (exists rest, c = snippet c ++ rest)
  /\ (String.length (snippet c) <= 800)%nat
  /\ ~ In Ascii.zero (list_ascii_of_string (snippet c))
  /\ ((String.length c <= 800)%nat ->
      ~ In Ascii.zero (list_ascii_of_string c) -> snippet c = c)
  /\ (forall a b,
        c = a ++ String Ascii.zero b ->
        ~ In Ascii.zero (list_ascii_of_string a) ->
        snippet c = String.substring 0 800 a).
Proof.
  unfold snippet. split; [|split; [|split; [|split]]].
  - destruct (up_to_nul_prefix c) as [rest1 H1].
    destruct (substring_prefix 800 (up_to_nul c)) as [rest2 H2].
    exists (rest2 ++ rest1). rewrite H1 at 1. rewrite H2 at 1.
    clear. induction (String.substring 0 800 (up_to_nul c)) as [|ch x IH]; simpl;
      [reflexivity|]. now rewrite IH.
  - apply snippet_length.
  - intros Hin. apply (up_to_nul_clean c).
    destruct (substring_prefix 800 (up_to_nul c)) as [rest H]. rewrite H, chars_app.
    apply in_or_app. now left.
  - intros Hlen Hclean. rewrite (up_to_nul_whole c Hclean). now apply substring_whole.
  - intros a b -> Hclean. now rewrite up_to_nul_cut.
Qed.

Lemma snippet_is_the_beginning_witness :
  snippet ("ab" ++ String Ascii.zero "cd") = "ab".
Proof.
  destruct (snippet_is_the_beginning ("ab" ++ String Ascii.zero "cd"))
    as (_ & _ & _ & _ & Hcut).
  rewrite (Hcut "ab" "cd" eq_refl); [reflexivity|].
  simpl. intros [H|[H|[]]]; discriminate H.
Defined.

(* ================================================================= *)
(** * Further properties of the similarity ranker *)

Local Open Scope float_scope.

Lemma score_rows_skips_malformed (q : list float) (rows : list Row) :
  score_rows q rows = score_rows q (filter parses rows).
Proof.
  induction rows as [|r rows IH]; simpl; [reflexivity|].
  unfold parses at 1. destruct (embedding r) as [|d] eqn:E; simpl; [exact IH|].
  rewrite E. simpl. now rewrite IH.
Qed.

(** X14. A row whose stored embedding does not parse is passed over and
    changes nothing: the matches selected from a table are those selected
    from the table without its unparsable rows. *)
Theorem unparsable_rows_change_nothing (qEmbedding : list float) (rows : list Row) :
  rank qEmbedding rows = rank qEmbedding (filter parses rows)
  /\ forall s, In s (rank qEmbedding rows) ->
       exists r, In r rows /\ parses r = true /\ s_id s = id r.
Proof.
  split.
  - unfold rank. now rewrite score_rows_skips_malformed.
  - intros s Hs. unfold rank in Hs. apply top_of_In in Hs. destruct Hs as [Hs _].
    destruct (score_rows_In _ _ _ Hs) as (r & d & Hr & Hd & ->).
    exists r. unfold parses. rewrite Hd. auto.
Qed.

Lemma key_lt_trans (a b c : Z * Z * Z) : key_lt a b -> key_lt b c -> key_lt a c.
Proof.
  destruct a as [[a1 a2] a3], b as [[b1 b2] b3], c as [[c1 c2] c3].
  unfold key_lt. lia.
Qed.

Lemma StronglySorted_app_inv {A : Type} (R : A -> A -> Prop) (l1 l2 : list A) :
  StronglySorted R (l1 ++ l2) ->
  forall x y, In x l1 -> In y l2 -> R x y.
Proof.
  induction l1 as [|z l1 IH]; simpl; intros Hs x y Hx Hy; [contradiction|].
  inversion Hs as [|z' l' Hs' Hall]; subst. destruct Hx as [->|Hx].
  - rewrite Forall_forall in Hall. apply Hall. apply in_or_app. now right.
  - now apply IH.
Qed.

(** X15. The ranker keeps the best: when no stored document's score is NaN,
    a stored document that scores strictly higher than a selected match is
    selected too. *)
Theorem no_better_match_is_left_out
    (qEmbedding : list float) (rows : list Row) (s s' : Scored) :
  Forall (fun x => is_nan (score x) = false) (score_rows qEmbedding rows) ->
  In s (rank qEmbedding rows) ->
  In s' (score_rows qEmbedding rows) ->
  (score s <? score s') = true ->
  In s' (rank qEmbedding rows).
Proof.
  intros Hn Hs Hs' Hlt. unfold rank, top_of in *.
  set (scored := score_rows qEmbedding rows) in *.
  pose proof (array_sort_descending scored Hn) as Hsorted.
  assert (Hmem : Forall (fun x => is_nan (score x) = false)
                        (array_sort by_score_desc scored)).
  { apply Forall_forall. intros x Hx. apply array_sort_In in Hx.
    rewrite Forall_forall in Hn. auto. }
  rewrite (slice_then_filter_sorted K _ Hmem Hsorted) in *.
  set (above := filter (fun x => T <? score x) (array_sort by_score_desc scored)) in *.
  assert (Hsa : In s above).
  { rewrite <- (firstn_skipn K above). apply in_or_app. now left. }
  unfold above in Hsa. apply filter_In in Hsa. destruct Hsa as [Hsin HsT].
  rewrite Forall_forall in Hn, Hmem.
  assert (Ns : is_nan (score s) = false) by auto.
  assert (Ns' : is_nan (score s') = false) by auto.
  assert (Hs'a : In s' above).
  { unfold above. apply filter_In. split; [now apply array_sort_In|].
    apply (ltb_key T (score s') eq_refl Ns').
    apply key_lt_trans with (order_key (Prim2SF (score s))).
    - now apply (ltb_key T (score s) eq_refl Ns).
    - now apply (ltb_key (score s) (score s') Ns Ns'). }
  rewrite <- (firstn_skipn K above) in Hs'a. apply in_app_or in Hs'a.
  destruct Hs'a as [Hin|Hout]; [exact Hin|exfalso].
  assert (Hab : StronglySorted (fun a b => (score a <? score b) = false)
                  (firstn K above ++ skipn K above)).
  { rewrite firstn_skipn. unfold above. now apply StronglySorted_filter. }
  pose proof (StronglySorted_app_inv _ _ _ Hab s s' Hs Hout) as Hge.
  simpl in Hge. congruence.
Qed.

Lemma no_better_match_is_left_out_witness :
  In {| s_id := 2; s_title := Some "note"; s_content := "text"; score := 1 |}
     (rank [1; 0] [demo_row 1 5 [4; 3]; demo_row 2 6 [1; 0]]).
Proof.
  apply (no_better_match_is_left_out [1; 0]
           [demo_row 1 5 [4; 3]; demo_row 2 6 [1; 0]]
           {| s_id := 1; s_title := Some "note"; s_content := "text"; score := 0.8 |}).
  - repeat constructor.
  - vm_compute. right. left. reflexivity.
  - vm_compute. right. left. reflexivity.
  - reflexivity.
Defined.

Lemma score_rows_length (q : list float) (rows : list Row) :
  (List.length (score_rows q rows) <= List.length rows)%nat.
Proof.
  induction rows as [|r rows IH]; simpl; [lia|].
  destruct (JSON_parse (embedding r)); simpl; lia.
Qed.

(** X16. With at most [K = 3] documents stored nothing is cut off: the
    matches selected are exactly the stored documents that parse and score
    above the threshold, NaN scores or not. *)
Theorem small_tables_are_ranked_whole
    (qEmbedding : list float) (rows : list Row) (s : Scored) :
  (List.length rows <= K)%nat ->
  (In s (rank qEmbedding rows)
   <-> In s (score_rows qEmbedding rows) /\ (T <? score s) = true).
Proof.
  intros Hlen. unfold rank, top_of.
  rewrite firstn_all2.
  - rewrite filter_In, array_sort_In. reflexivity.
  - rewrite (Permutation_length (array_sort_permutes _ _)).
    pose proof (score_rows_length qEmbedding rows). lia.
Qed.

Lemma small_tables_are_ranked_whole_witness :
  In {| s_id := 3; s_title := Some "note"; s_content := "text"; score := 1 |}
     (rank [1; 0] [demo_row 1 5 [1]; demo_row 2 6 [2]; demo_row 3 7 [1; 0]]).
Proof.
  apply (small_tables_are_ranked_whole [1; 0]
           [demo_row 1 5 [1]; demo_row 2 6 [2]; demo_row 3 7 [1; 0]]).
  - simpl. unfold K. lia.
  - split; [|reflexivity]. vm_compute. right. right. left. reflexivity.
Defined.

(* ================================================================= *)
(** * Further properties of the similarity *)

Lemma mul_comm64 (x y : float) : x * y = y * x.
Proof.
  apply Prim2SF_inj. rewrite !mul_spec. unfold SF64mul, SFmul.
  destruct (Prim2SF x) as [sx|sx| |sx mx ex]; destruct (Prim2SF y) as [sy|sy| |sy my ey];
    rewrite ?(xorb_comm sx sy); try reflexivity.
  now rewrite Pos.mul_comm, Z.add_comm.
Qed.

Lemma dot_acc_comm64 (a b : list float) (s : float) :
  List.length a = List.length b -> dot_acc s a b = dot_acc s b a.
Proof.
  revert b s. induction a as [|x a IH]; intros [|y b] s Hlen; simpl in *;
    try discriminate; [reflexivity|].
  rewrite (mul_comm64 x y). apply IH. now injection Hlen.
Qed.

(** X17. On vectors of one length the similarity is symmetric in binary64,
    bit for bit: it does not matter which of the two is the query. *)
Theorem cosineSim_is_symmetric (a b : list float) :
  List.length a = List.length b ->
  cosineSim a b = cosineSim b a.
Proof.
  intros Hlen. rewrite !cosineSim_unfold.
  rewrite (orb_comm (is_zero (norm a))), (mul_comm64 (norm a)).
  rewrite !dot_is_dot_acc. now rewrite (dot_acc_comm64 a b).
Qed.

Lemma cosineSim_is_symmetric_witness :
  cosineSim [1; 2; 3] [0.5; -1; 4] = cosineSim [0.5; -1; 4] [1; 2; 3].
Proof. apply cosineSim_is_symmetric. reflexivity. Defined.

Lemma binary_round_aux_sign (s : bool) (m e : Z) (l : location) :
  binary_round_aux prec emax s m e l = S754_nan
  \/ is_a_zero (binary_round_aux prec emax s m e l) = true
  \/ signed_nonzero s (binary_round_aux prec emax s m e l).
Proof.
  unfold binary_round_aux.
  destruct (shr_fexp prec emax m e l) as [mrs e'].
  destruct (shr_fexp prec emax _ e' loc_Exact) as [mrs' e''].
  destruct (shr_m mrs') as [|p|p]; [right; left; reflexivity| |left; reflexivity].
  right; right. destruct (e'' <=? emax - prec)%Z; reflexivity.
Qed.

Lemma SFsqrt_sign (x : spec_float) :
  is_a_zero (SF64sqrt x) = false ->
  SF64sqrt x = S754_nan \/ SFpositive (SF64sqrt x) = true.
Proof.
  destruct x as [s|[|]| |[|] m e]; simpl; auto; try discriminate.
  unfold SF64sqrt, SFsqrt.
  destruct (SFsqrt_core_binary prec emax (Zpos m) e) as [[mz ez] lz].
  destruct (binary_round_aux_sign false mz ez lz) as [->|[Hz|Hs]]; auto.
  - intros Hnz. congruence.
  - intros _. right.
    destruct (binary_round_aux prec emax false mz ez lz) as [?|[|]| |[|] ? ?];
      simpl in Hs; try contradiction; try discriminate; reflexivity.
Qed.

Lemma SFmul_sign (x y : spec_float) :
  x = S754_nan \/ SFpositive x = true ->
  y = S754_nan \/ SFpositive y = true ->
  SF64mul x y = S754_nan \/ SFpositive (SF64mul x y) = true
  \/ is_a_zero (SF64mul x y) = true.
Proof.
  intros [->|Hx]; [left; reflexivity|].
  intros [->|Hy]; [left; destruct x; reflexivity|].
  destruct x as [sx|[|]| |[|] mx ex]; try discriminate Hx;
    destruct y as [sy|[|]| |[|] my ey]; try discriminate Hy;
    try (right; left; reflexivity).
  unfold SF64mul, SFmul. cbn [xorb].
  destruct (binary_round_aux_sign false (Zpos (mx * my)) (ex + ey) loc_Exact)
    as [->|[Hz|Hs]]; auto.
  right; left.
  destruct (binary_round_aux prec emax false _ _ loc_Exact) as [?|[|]| |[|] ? ?];
    simpl in Hs; try contradiction; try discriminate; reflexivity.
Qed.

(** A quotient above a positive threshold, over a divisor that is above
    zero or NaN, has a numerator above zero. *)
Lemma SFdiv_sign (mt : positive) (et : Z) (x y : spec_float) :
  y = S754_nan \/ SFpositive y = true ->
  SFltb (S754_finite false mt et) (SF64div x y) = true ->
  SFltb (S754_zero false) x = true.
Proof.
  intros [->|Hy].
  - destruct x; discriminate.
  - destruct y as [sy|[|]| |[|] my ey]; try discriminate Hy;
      destruct x as [sx|[|]| |[|] mx ex]; try discriminate; try reflexivity.
    unfold SF64div, SFdiv.
    destruct (SFdiv_core_binary prec emax (Zpos mx) ex (Zpos my) ey) as [[mz ez] lz].
    cbn [xorb].
    destruct (binary_round_aux_sign true mz ez lz) as [->|[Hz|Hs]]; [discriminate| |].
    + destruct (binary_round_aux prec emax true mz ez lz); discriminate.
    + destruct (binary_round_aux prec emax true mz ez lz) as [?|[|]| |[|] ? ?];
        simpl in Hs; try contradiction; discriminate.
Qed.

(** The quotient [cosineSim] computes, when it is above the threshold, has
    a numerator above zero. *)
Lemma quotient_above_threshold (a b : list float) :
  is_zero (norm a) = false -> is_zero (norm b) = false ->
  (T <? dot a b / (norm a * norm b)) = true ->
  (0 <? dot a b) = true.
Proof.
  intros Za Zb Hsel.
  rewrite ltb_spec in Hsel |- *. rewrite div_spec, mul_spec in Hsel.
  change (Prim2SF 0) with (S754_zero false).
  assert (HTs : exists mt et, Prim2SF T = S754_finite false mt et)
    by (vm_compute; eauto).
  destruct HTs as (mt & et & HTs). rewrite HTs in Hsel.
  cbn [is_zero binary64] in Za, Zb. rewrite is_zero_spec in Za, Zb.
  unfold norm in *. cbn [fsqrt binary64] in *. rewrite !sqrt_spec in *.
  apply (SFdiv_sign mt et _ _) with (2 := Hsel).
  destruct (SFmul_sign _ _ (SFsqrt_sign _ Za) (SFsqrt_sign _ Zb)) as [E|[E|E]]; auto.
  exfalso.
  pose proof (product_of_roots_is_not_zero (dot a a) (dot b b)) as Hp.
  rewrite !is_zero_spec, mul_spec, !sqrt_spec in Hp.
  specialize (Hp Za Zb). congruence.
Qed.

(** X18. A score above the threshold comes from a positive dot product:
    whenever [cosineSim(a, b) > 0.65], neither norm is zero, [dot(a, b)] is
    above zero, and [b] has at least as many components as [a]. *)
Theorem scores_above_threshold_have_positive_dot (a b : list float) :
  (T <? cosineSim a b) = true ->
  (0 <? dot a b) = true
  /\ is_zero (norm a) = false /\ is_zero (norm b) = false
  /\ (List.length a <= List.length b)%nat.
Proof.
  intros Hsel. rewrite cosineSim_unfold in Hsel.
  assert (HT0 : (T <? 0) = false) by reflexivity.
  destruct (is_zero (norm a)) eqn:Za; cbn [orb] in Hsel; [congruence|].
  destruct (is_zero (norm b)) eqn:Zb; [congruence|].
  pose proof (quotient_above_threshold a b Za Zb Hsel) as Hdot.
  repeat split; auto.
  destruct (le_lt_dec (List.length a) (List.length b)) as [Hle|Hgt]; [exact Hle|].
  rewrite (dot_short a b Hgt) in Hdot. discriminate.
Qed.

Lemma scores_above_threshold_have_positive_dot_witness :
  (0 <? dot [4; 3] [1; 0]) = true.
Proof.
  apply (scores_above_threshold_have_positive_dot [4; 3] [1; 0]). reflexivity.
Defined.

Section ExactSelf.
Local Open Scope R_scope.

(** X19. In exact arithmetic a vector that is not all zeros has similarity
    exactly 1 with itself. *)
Theorem exact_self_similarity_is_one (a : list R) :
  dot a a <> 0 -> cosineSim a a = 1.
Proof.
  intros Hnz. unfold cosineSim, cosineSim_path, norm.
  rewrite !dot_is_dot_acc in *. cbn [num0 fmul fdiv fsqrt is_zero exact_reals] in *.
  pose proof (dot_acc_exact_self_nonneg a) as HA.
  set (A := dot_acc 0 a a) in *.
  assert (Hs : sqrt A <> 0).
  { intros E. apply Hnz. apply sqrt_eq_0; assumption. }
  destruct (Req_dec_T (sqrt A) 0) as [E|_]; [contradiction|]. simpl.
  rewrite sqrt_sqrt by exact HA. now apply Rdiv_diag.
Qed.

Lemma exact_self_similarity_is_one_witness : cosineSim [3; 4] [3; 4] = 1.
Proof.
  apply exact_self_similarity_is_one.
  unfold dot. simpl. lra.
Defined.
End ExactSelf.

(** X20. Every selected match is the row of a stored document whose vector
    has at least as many components as the query's and a positive dot
    product with it; a document with a shorter vector is never retrieved. *)
Theorem matches_have_full_length_vectors
    (qEmbedding : list float) (rows : list Row) (s : Scored) :
  In s (rank qEmbedding rows) ->
  exists r d,
    In r rows /\ embedding r = Vector d
    /\ s_id s = id r /\ s_content s = content r
    /\ score s = cosineSim qEmbedding d
    /\ (List.length qEmbedding <= List.length d)%nat
    /\ (0 <? dot qEmbedding d) = true.
Proof.
  intros Hs. unfold rank in Hs. apply top_of_In in Hs. destruct Hs as [Hs HT].
  destruct (score_rows_In _ _ _ Hs) as (r & d & Hr & Hd & ->).
  simpl in HT. rewrite cosineSim_unfold in HT.
  assert (HT0 : (T <? 0) = false) by reflexivity.
  destruct (is_zero (norm qEmbedding)) eqn:Zq; cbn [orb] in HT; [congruence|].
  destruct (is_zero (norm d)) eqn:Zd; [congruence|].
  pose proof (quotient_above_threshold qEmbedding d Zq Zd HT) as Hdot.
  exists r, d. repeat split; auto.
  destruct (le_lt_dec (List.length qEmbedding) (List.length d)) as [Hle|Hgt];
    [exact Hle|].
  rewrite (dot_short qEmbedding d Hgt) in Hdot. discriminate.
Qed.

Lemma matches_have_full_length_vectors_witness :
  exists r d,
    In r [demo_row 1 5 [4; 3]] /\ embedding r = Vector d
    /\ 1%Z = id r /\ "text"%string = content r
    /\ 0.8 = cosineSim [1; 0] d
    /\ (2 <= List.length d)%nat
    /\ (0 <? dot [1; 0] d) = true.
Proof.
  apply (matches_have_full_length_vectors [1; 0] [demo_row 1 5 [4; 3]]
           {| s_id := 1; s_title := Some "note"; s_content := "text"; score := 0.8 |}).
  vm_compute. left. reflexivity.
Defined.

(* ================================================================= *)
(** * Start-up and the key check *)

Close Scope float_scope.

Lemma env_truthy_key_missing (w : World) (key : option string) (model : string) :
  key_missing (configured w key model) = negb (env_truthy key).
Proof.
  unfold key_missing, env_truthy. simpl. destruct key as [k|]; [|reflexivity].
  now rewrite negb_involutive.
Qed.

(** A start-up that goes on has a key that is set, the key and the model
    are those of the environment, and it has warned exactly when the key
    is empty. *)
Lemma startup_goes_on (env : Env) (console : list Console) (key : option string)
    (model : string) :
  startup env = Configured console key model ->
  key = OPENAI_API_KEY env
  /\ (exists k, key = Some k)
  /\ model = (if env_truthy (OPENAI_MODEL env)
              then match OPENAI_MODEL env with Some m => m | None => "gpt-4" end
              else "gpt-4")
  /\ console = (if negb (env_truthy key) then [ConsoleWarn missing_key_warning] else []).
Proof.
  unfold startup.
  destruct (negb (env_truthy (OPENAI_API_KEY env))
            && (env_is (GITHUB_ACTIONS env) "true"
                || env_is (NODE_ENV env) "production")); [discriminate|].
  destruct (OPENAI_API_KEY env) as [k|]; simpl; [|discriminate].
  intros H. injection H as <- <- <-. eauto.
Qed.

(** X21. Neither the check script nor the server's start-up shows the
    key: two environments that both have a key, or both have none, give
    the same exit code and the same lines of the check script, whatever
    the keys and the other variables are; if they also agree on
    [GITHUB_ACTIONS] and [NODE_ENV] and on whether the key is set at all,
    the start-up of the server exits alike, or goes on alike, and prints
    the same lines. *)
Theorem key_value_is_never_shown (env env' : Env) :
  env_truthy (OPENAI_API_KEY env) = env_truthy (OPENAI_API_KEY env') ->
  check_secret env = check_secret env'
  /\ (GITHUB_ACTIONS env = GITHUB_ACTIONS env' ->
      NODE_ENV env = NODE_ENV env' ->
      (OPENAI_API_KEY env = None <-> OPENAI_API_KEY env' = None) ->
      startup_shows (startup env) = startup_shows (startup env')).
Proof.
  intros Hk. split.
  - unfold check_secret. now rewrite Hk.
  - intros Hci Hprod Hset. unfold startup. rewrite Hk, Hci, Hprod.
    destruct (negb (env_truthy (OPENAI_API_KEY env'))
              && (env_is (GITHUB_ACTIONS env') "true"
                  || env_is (NODE_ENV env') "production")); [reflexivity|].
    destruct (OPENAI_API_KEY env) as [k|], (OPENAI_API_KEY env') as [k'|];
      try reflexivity.
    + destruct Hset as [_ Hset]. discriminate (Hset eq_refl).
    + destruct Hset as [Hset _]. discriminate (Hset eq_refl).
Qed.

Lemma key_value_is_never_shown_witness :
  check_secret {| OPENAI_API_KEY := Some "sk-one"; GITHUB_ACTIONS := Some "true";
                  NODE_ENV := None; OPENAI_MODEL := None |}
  = check_secret {| OPENAI_API_KEY := Some "sk-another"; GITHUB_ACTIONS := None;
                    NODE_ENV := Some "production"; OPENAI_MODEL := Some "gpt-4o" |}.
Proof.
  refine (proj1 (key_value_is_never_shown _ _ _)). reflexivity.
Defined.

(** X22. The check script against the start-up of the server, which reads
    its environment after [dotenv.config()] has added what the [.env]
    file defines. When the script exits with 0 the start-up goes on
    without a warning, with the key the script saw, and the chat endpoint
    is configured. When the script exits with anything else and the file
    brings no key, a start-up under continuous integration or in
    production exits with 1 and the error line; elsewhere it warns, and
    then the construction of the client throws and the process exits with
    1 if the key is unset, and goes on with a chat endpoint that refuses
    every request if the key is the empty string. When the key is unset
    and the file defines one, the start-up goes on with the file's key
    although the script has failed. *)
Theorem check_secret_agrees_with_startup (env file : Env) (w : World) :
  let env' := dotenv_config file env in
  let strict := env_is (GITHUB_ACTIONS env') "true"
                || env_is (NODE_ENV env') "production" in
  (fst (check_secret env) = 0%Z ->
     exists model,
       startup env' = Configured [] (OPENAI_API_KEY env) model
       /\ key_missing (configured w (OPENAI_API_KEY env) model) = false)
  /\ (fst (check_secret env) <> 0%Z ->
      OPENAI_API_KEY env' = OPENAI_API_KEY env ->
      (strict = true -> startup env' = Exited 1 [ConsoleError missing_key_error])
      /\ (strict = false -> OPENAI_API_KEY env = None ->
          startup env' = Exited 1 [ConsoleWarn missing_key_warning;
                                   Uncaught missing_key_exception])
      /\ (strict = false -> OPENAI_API_KEY env = Some "" ->
          exists model,
            startup env' = Configured [ConsoleWarn missing_key_warning] (Some "") model
            /\ key_missing (configured w (Some "") model) = true))
  /\ (forall k,
        OPENAI_API_KEY env = None -> OPENAI_API_KEY file = Some k -> k <> "" ->
        fst (check_secret env) <> 0%Z
        /\ exists model, startup env' = Configured [] (Some k) model).
Proof.
  cbv zeta. unfold check_secret.
  split; [|split].
  - destruct (env_truthy (OPENAI_API_KEY env)) eqn:Hk; [|discriminate]. intros _.
    unfold startup.
    assert (Hsame : OPENAI_API_KEY (dotenv_config file env) = OPENAI_API_KEY env).
    { simpl. destruct (OPENAI_API_KEY env); [reflexivity|discriminate]. }
    rewrite Hsame, Hk. simpl.
    destruct (OPENAI_API_KEY env) as [k|]; [|discriminate]. simpl.
    eexists. split; [reflexivity|]. now rewrite env_truthy_key_missing, Hk.
  - destruct (env_truthy (OPENAI_API_KEY env)) eqn:Hk; [intros H; now contradiction H|].
    intros _ Hsame. unfold startup. rewrite Hsame, Hk. simpl.
    split; [|split].
    + intros ->. reflexivity.
    + intros -> Hnone. rewrite Hnone. reflexivity.
    + intros -> Hempty. rewrite Hempty. simpl.
      eexists. split; [reflexivity|]. reflexivity.
  - intros k Hnone Hfile Hne. rewrite Hnone. simpl. split; [discriminate|].
    unfold startup. simpl. rewrite Hnone, Hfile. simpl.
    destruct (String.eqb_spec k ""); [contradiction|]. simpl.
    eexists. reflexivity.
Qed.

Lemma check_secret_agrees_with_startup_witness :
  exists model,
    startup (dotenv_config
               {| OPENAI_API_KEY := None; GITHUB_ACTIONS := None;
                  NODE_ENV := None; OPENAI_MODEL := None |}
               {| OPENAI_API_KEY := Some "sk-one"; GITHUB_ACTIONS := Some "true";
                  NODE_ENV := None; OPENAI_MODEL := None |})
    = Configured [] (Some "sk-one") model
    /\ key_missing (configured demo_world (Some "sk-one") model) = false.
Proof.
  destruct (check_secret_agrees_with_startup
              {| OPENAI_API_KEY := Some "sk-one"; GITHUB_ACTIONS := Some "true";
                 NODE_ENV := None; OPENAI_MODEL := None |}
              {| OPENAI_API_KEY := None; GITHUB_ACTIONS := None;
                 NODE_ENV := None; OPENAI_MODEL := None |}
              demo_world) as [Hset _].
  apply Hset. reflexivity.
Defined.

(** X23. A server that started without a key refuses every chat request
    with status 500 before doing anything: no call leaves the process and
    the table is not read. The key is then the empty string: with the key
    unset the start-up does not go on. *)
Theorem unconfigured_server_refuses_chat
    (env : Env) (w : World) (console : list Console) (key : option string)
    (model : string) (req_body : list (string * JValue)) (store : list Row) :
  startup env = Configured console key model ->
  env_truthy (OPENAI_API_KEY env) = false ->
  serve (post_chat (configured w key model) req_body) store
  = ({| status := 500;
        body := ErrorBody "Server not configured with OPENAI_API_KEY" None |},
     store, []).
Proof.
  intros Hstart Hk.
  destruct (startup_goes_on _ _ _ _ Hstart) as (-> & _).
  rewrite chat_in_closed_form. unfold chat_outcome.
  now rewrite env_truthy_key_missing, Hk.
Qed.

Lemma unconfigured_server_refuses_chat_witness :
  serve (post_chat (configured demo_world (Some "") "gpt-4") demo_chat) []
  = ({| status := 500;
        body := ErrorBody "Server not configured with OPENAI_API_KEY" None |},
     [], []).
Proof.
  apply (unconfigured_server_refuses_chat
           {| OPENAI_API_KEY := Some ""; GITHUB_ACTIONS := None;
              NODE_ENV := Some "development"; OPENAI_MODEL := None |}
           demo_world [ConsoleWarn missing_key_warning]); reflexivity.
Defined.




(* ================================================================= *)
(** * The page *)

Lemma removelast_cons_snoc {A : Type} (a x : A) (l : list A) :
  removelast (a :: l ++ [x]) = a :: l.
Proof. now rewrite (app_comm_cons l [x] a), removelast_last. Qed.

Lemma Forall_snoc_inv {A : Type} (P : A -> Prop) (l : list A) (x : A) :
  Forall P (l ++ [x]) -> Forall P l.
Proof. intros H. apply Forall_app in H. tauto. Qed.

Lemma request_keeps_order (text : string) (s : App.Session) :
  App.in_order s ->
  App.in_order {| App.page := fst (App.sendMessage_request text (App.page s));
                  App.in_flight := S (App.in_flight s) |}.
Proof.
  intros (rest & Hm & Hr & Hn & _).
  exists (rest ++ [ {| App.role := "user"; App.content := text |}; App.typing ])%list.
  simpl. rewrite Hm. simpl. rewrite <- app_assoc. simpl.
  repeat split.
  - apply Forall_app. split; [exact Hr|].
    constructor; [left; reflexivity|constructor; [right; reflexivity|constructor]].
  - rewrite length_app. simpl. lia.
Qed.

Lemma settle_keeps_order (b : App.Browser) (f : App.Fetched) (p : App.Page) (n : nat) :
  App.in_order {| App.page := p; App.in_flight := S n |} ->
  App.in_order {| App.page := App.sendMessage_settle b f p; App.in_flight := n |}.
Proof.
  intros (rest & Hm & Hr & Hn & _). simpl in *.
  assert (Hone : forall l : list App.Message, (1 <= List.length l)%nat ->
                   exists l' x, l = (l' ++ [x])%list).
  { intros l Hl. destruct (exists_last (l := l)) as (l' & x & E);
      [destruct l; simpl in Hl; [lia|discriminate]|eauto]. }
  destruct (Hone rest ltac:(lia)) as (r1 & x & ->).
  rewrite length_app in Hn. simpl in Hn.
  destruct (Hone r1 ltac:(lia)) as (r2 & y & ->).
  rewrite length_app in Hn. simpl in Hn.
  pose proof (Forall_snoc_inv _ _ _ Hr) as Hr1.
  pose proof (Forall_snoc_inv _ _ _ Hr1) as Hr2.
  assert (Hpop : removelast (App.messages p) = App.system_prompt :: r2 ++ [y])
    by (rewrite Hm; apply removelast_cons_snoc).
  assert (Hpop2 : removelast (removelast (App.messages p)) = App.system_prompt :: r2)
    by (rewrite Hpop; apply removelast_cons_snoc).
  assert (Hsingle : forall text,
            App.in_order
              {| App.page := App.render (App.push (App.says text) (App.pop p));
                 App.in_flight := n |}).
  { intros text. exists ((r2 ++ [y]) ++ [App.says text])%list. simpl. rewrite Hpop.
    repeat split.
    - apply Forall_app. split; [exact Hr1|]. constructor; [right; reflexivity|constructor].
    - rewrite !length_app. simpl. lia. }
  assert (Hdouble : forall text,
            App.in_order
              {| App.page := App.render (App.push (App.says text) (App.pop (App.pop p)));
                 App.in_flight := n |}).
  { intros text. exists (r2 ++ [App.says text])%list. simpl. rewrite Hpop2.
    repeat split.
    - apply Forall_app. split; [exact Hr2|]. constructor; [right; reflexivity|constructor].
    - rewrite !length_app. simpl. lia. }
  unfold App.sendMessage_settle.
  destruct f as [msg|[|] data]; auto.
  destruct (App.reply_of data); auto.
Qed.

Lemma act_keeps_order (b : App.Browser) (s : App.Session) (a : App.Action) :
  App.in_order s -> App.in_order (App.act b s a).
Proof.
  intros Hs. destruct a as [v|v| |f]; simpl.
  - destruct Hs as (rest & Hm & Hr & Hn & Hc). exists rest. simpl. auto.
  - destruct Hs as (rest & Hm & Hr & Hn & Hc). exists rest. simpl. auto.
  - unfold App.submit.
    destruct (String.eqb (App.trim (App.input (App.page s))) "").
    + destruct s. exact Hs.
    + apply (request_keeps_order _
               {| App.page := App.set_input "" (App.page s);
                  App.in_flight := App.in_flight s |}).
      destruct Hs as (rest & Hm & Hr & Hn & Hc). exists rest. simpl. auto.
  - destruct s as [p [|n]]; simpl; [exact Hs|]. now apply settle_keeps_order.
Qed.

Lemma sessions_stay_in_order (b : App.Browser) (actions : list App.Action)
    (s : App.Session) :
  App.in_order s -> App.in_order (fold_left (App.act b) actions s).
Proof.
  revert s. induction actions as [|a actions IH]; intros s Hs; simpl; [exact Hs|].
  apply IH. now apply act_keeps_order.
Qed.

(** X25. Whatever the user does and in whatever order requests settle, the
    system prompt stays the first entry of the conversation and is never
    shown; every other entry is the user's or the assistant's, and the
    chat shows exactly those, each with its role as its class. *)
Theorem page_never_shows_the_system_prompt
    (b : App.Browser) (input_value model_value : string) (actions : list App.Action) :
  let p := App.page (App.session b input_value model_value actions) in
  exists rest,
    App.messages p = App.system_prompt :: rest
    /\ Forall (fun m => App.role m = "user" \/ App.role m = "assistant") rest
    /\ App.chatEl p
       = map (fun m => {| App.classList := ["message"; App.role m];
                          App.textContent := App.content m |}) rest.
Proof.
  cbv zeta.
  destruct (sessions_stay_in_order b actions
              {| App.page := App.loaded input_value model_value; App.in_flight := 0 |})
    as (rest & Hm & Hr & _ & Hc).
  { exists []. simpl. repeat split; [constructor|lia]. }
  exists rest. fold (App.session b input_value model_value actions) in Hm, Hc.
  repeat split; [exact Hm|exact Hr|].
  rewrite Hc, Hm. unfold App.renderMessages. simpl.
  apply map_ext_in. intros m Hin. rewrite Forall_forall in Hr.
  destruct (Hr m Hin) as [-> | ->]; reflexivity.
Qed.

Lemma request_messages (text : string) (p : App.Page) :
  App.messages (fst (App.sendMessage_request text p))
  = (App.messages p ++ [{| App.role := "user"; App.content := text |}; App.typing])%list.
Proof. simpl. now rewrite <- app_assoc. Qed.

Lemma settle_messages (b : App.Browser) (f : App.Fetched) (p : App.Page) :
  App.messages (App.sendMessage_settle b f p)
  = match f with
    | App.Rejected message =>
        removelast (App.messages p) ++ [App.says ("Error: " ++ message)]
    | App.Resolved false data =>
        removelast (App.messages p) ++ [App.says ("Error: " ++ App.error_message b data)]
    | App.Resolved true data =>
        match App.reply_of data with
        | Some reply => removelast (App.messages p) ++ [App.says reply]
        | None =>
            removelast (removelast (App.messages p))
              ++ [App.says ("Error: " ++ App.type_error b data)]
        end
    end%list.
Proof.
  destruct f as [msg|[|] data]; simpl; try reflexivity.
  destruct (App.reply_of data); reflexivity.
Qed.

Lemma settle_renders (b : App.Browser) (f : App.Fetched) (p : App.Page) :
  App.chatEl (App.sendMessage_settle b f p)
  = App.renderMessages (App.messages (App.sendMessage_settle b f p)).
Proof.
  destruct f as [msg|[|] data]; simpl; try reflexivity.
  destruct (App.reply_of data); reflexivity.
Qed.

Lemma removelast_two {A : Type} (l : list A) (x y : A) :
  removelast (l ++ [x; y]) = (l ++ [x])%list
  /\ removelast (removelast (l ++ [x; y])) = l.
Proof.
  assert (E : (l ++ [x; y] = (l ++ [x]) ++ [y])%list) by now rewrite <- app_assoc.
  rewrite E, !removelast_last. auto.
Qed.

(** X26. A send that has settled leaves the user's message and one answer
    behind it, never the placeholder: the reply trimmed, or [Error: ] and
    the error's message. The exception is a response that is OK but holds
    no text reply: then the user's message is removed as well and only
    the error remains. The chat shows the conversation as it is then. *)
Theorem settled_send_leaves_one_answer
    (b : App.Browser) (fetch : list (string * JValue) -> App.Fetched)
    (text : string) (p : App.Page) :
  let user := {| App.role := "user"; App.content := text |} in
  let p' := App.sendMessage b fetch text p in
  App.chatEl p' = App.renderMessages (App.messages p')
  /\ App.messages p'
     = (App.messages p
        ++ match fetch (snd (App.sendMessage_request text p)) with
           | App.Rejected message => [user; App.says ("Error: " ++ message)]
           | App.Resolved false data =>
               [user; App.says ("Error: " ++ App.error_message b data)]
           | App.Resolved true data =>
               match App.reply_of data with
               | Some reply => [user; App.says reply]
               | None => [App.says ("Error: " ++ App.type_error b data)]
               end
           end)%list.
Proof.
  cbv zeta. unfold App.sendMessage.
  destruct (App.sendMessage_request text p) as [p1 body] eqn:E.
  pose proof (request_messages text p) as Hm. rewrite E in Hm. simpl in Hm. simpl snd.
  split; [apply settle_renders|].
  rewrite settle_messages, Hm.
  destruct (removelast_two (App.messages p)
              {| App.role := "user"; App.content := text |} App.typing) as [H1 H2].
  destruct (fetch body) as [msg|[|] data]; rewrite ?H2, ?H1, <- ?app_assoc;
    try reflexivity.
  destruct (App.reply_of data); rewrite ?H2, ?H1, <- ?app_assoc; reflexivity.
Qed.


Lemma chat_response_shape (w : World) (req_body : list (string * JValue))
    (store : list Row) :
  let resp := fst (fst (serve (post_chat w req_body) store)) in
  (status resp = 200%nat /\ exists r, body resp = ReplyBody r)
  \/ ((status resp = 400 \/ status resp = 403 \/ status resp = 500)%nat
      /\ exists e d, body resp = ErrorBody e d /\ String.eqb e "" = false).
Proof.
  cbv zeta. rewrite chat_in_closed_form. unfold chat_outcome.
  destruct (key_missing w); [right; simpl; eauto 8|].
  destruct (negb (truthy (lookup "messages" req_body))
            || negb (isArray (lookup "messages" req_body))); [right; simpl; eauto 8|].
  destruct (find_user (List.rev (elements (lookup "messages" req_body)))) as [u|e];
    [|right; simpl; eauto 8].
  destruct (last_content u) as [c|e]; [|right; simpl; eauto 8].
  destruct (flagged w c); [right; simpl; eauto 8|].
  destruct (filter_not_system (elements (lookup "messages" req_body))) as [kept|e];
    [|right; simpl; eauto 8].
  simpl.
  destruct (chat_completions_create w _ _) as [content|e]; simpl;
    [left; eauto|right; eauto 8].
Qed.

(** X27. Against this server a send always ends with the user's message and
    one answer: the server's reply trimmed when the status is 200, and
    [Error: ] followed by the server's error text otherwise. The server
    never sends an OK response without a text reply, so the page never
    removes the user's message. *)
Theorem page_shows_the_servers_answer
    (b : App.Browser) (date_text : Z -> string) (w : World) (store : list Row)
    (text : string) (p : App.Page) :
  let resp := fst (fst (serve (post_chat w (snd (App.sendMessage_request text p))) store)) in
  let p' := App.sendMessage b (fetch_chat date_text w store) text p in
  exists answer,
    App.messages p'
    = (App.messages p ++ [{| App.role := "user"; App.content := text |};
                          App.says answer])%list
    /\ ((status resp = 200%nat
         /\ exists r, body resp = ReplyBody r /\ answer = App.trim r)
        \/ (status resp <> 200%nat
            /\ exists e d, body resp = ErrorBody e d /\ answer = "Error: " ++ e)).
Proof.
  cbv zeta. unfold App.sendMessage.
  pose proof (request_messages text p) as Hm.
  destruct (App.sendMessage_request text p) as [p1 req] eqn:E.
  simpl fst in Hm. simpl snd.
  rewrite settle_messages, Hm.
  destruct (removelast_two (App.messages p)
              {| App.role := "user"; App.content := text |} App.typing) as [H1 _].
  rewrite !H1. clear H1 Hm. unfold fetch_chat.
  destruct (chat_response_shape w req store) as [(Hs & r & Hb)|(Hs & e & d & Hb & He)];
    cbv zeta in *;
    set (resp := fst (fst (serve (post_chat w req) store))) in *.
  - exists (App.trim r). unfold response_ok. rewrite Hs, Hb. simpl. split; [now rewrite <- app_assoc|].
    left. eauto.
  - exists ("Error: " ++ e).
    assert (Hok : response_ok resp = false)
      by (unfold response_ok; destruct Hs as [-> | [-> | ->]]; reflexivity).
    rewrite Hok, Hb.
    assert (Hmsg : forall data,
              data = body_json date_text (ErrorBody e d) ->
              App.error_message b data = e).
    { intros data ->. unfold App.error_message, or_else.
      destruct d; simpl; rewrite He; reflexivity. }
    rewrite (Hmsg _ eq_refl). split; [now rewrite <- app_assoc|].
    right. split; [destruct Hs as [-> | [-> | ->]]; discriminate|eauto].
Qed.

Lemma completion_call_messages
    (w : World) (req_body : list (string * JValue)) (store : list Row)
    (model : JValue) (msgs : list JValue) :
  In (CompletionCall model msgs) (snd (serve (post_chat w req_body) store)) ->
  exists contextText kept,
    filter_not_system (elements (lookup "messages" req_body)) = Ok kept
    /\ msgs = system_message contextText :: kept.
Proof.
  rewrite chat_in_closed_form. unfold chat_outcome.
  destruct (key_missing w); [simpl; tauto|].
  destruct (negb (truthy (lookup "messages" req_body))
            || negb (isArray (lookup "messages" req_body))); [simpl; tauto|].
  destruct (find_user (List.rev (elements (lookup "messages" req_body)))) as [u|e];
    [|simpl; tauto].
  destruct (last_content u) as [c|e]; [|simpl; tauto].
  destruct (flagged w c); [simpl; intros [H|[]]; discriminate H|].
  pose proof (retrieval_makes_no_model_call w c store) as Hno.
  destruct (filter_not_system (elements (lookup "messages" req_body))) as [kept|e];
    simpl; intros [H|H]; try discriminate H.
  - apply in_app_or in H. destruct H as [H|[H|[]]]; [elim (Hno _ _ H)|].
    injection H as _ <-. eauto.
  - elim (Hno _ _ H).
Qed.

Lemma filter_not_system_of_page (msgs : list App.Message) :
  filter_not_system (map App.to_json msgs)
  = Ok (map App.to_json
          (filter (fun m => negb (String.eqb (App.role m) "system")) msgs)).
Proof.
  induction msgs as [|m msgs IH]; simpl; [reflexivity|].
  rewrite IH. destruct (String.eqb (App.role m) "system"); reflexivity.
Qed.

Lemma filter_keeps_all {A : Type} (f : A -> bool) (l : list A) :
  Forall (fun x => f x = true) l -> filter f l = l.
Proof.
  induction 1 as [|x l Hx _ IH]; simpl; [reflexivity|]. now rewrite Hx, IH.
Qed.

(** X28. What the server makes of a message sent from the page: the text
    just typed is the content it moderates, although the placeholder comes
    after it in the request; and the model, if it is called, is given the
    server's system message in place of the page's, followed by the
    conversation, the new message, and the placeholder [...] as the last
    assistant message. *)
Theorem served_page_message
    (w : World) (store : list Row) (text : string) (p : App.Page)
    (rest : list App.Message) :
  key_missing w = false ->
  App.messages p = App.system_prompt :: rest ->
  Forall (fun m => App.role m <> "system") rest ->
  let calls := snd (serve (post_chat w (snd (App.sendMessage_request text p))) store) in
  (exists more, calls = ModerationCall (JStr text) :: more)
  /\ forall model msgs,
       In (CompletionCall model msgs) calls ->
       exists contextText,
         msgs = system_message contextText
                :: map App.to_json
                     (rest ++ [{| App.role := "user"; App.content := text |};
                               App.typing])%list.
Proof.
  intros Hk Hm Hr. cbv zeta.
  set (req := snd (App.sendMessage_request text p)).
  set (sent := (App.messages p
                ++ [{| App.role := "user"; App.content := text |}; App.typing])%list).
  assert (Hreq : lookup "messages" req = JArr (map App.to_json sent)).
  { unfold req, sent. simpl. now rewrite <- app_assoc. }
  split.
  - apply (chat_starts_with_moderation w req store (map App.to_json sent)
             (App.to_json {| App.role := "user"; App.content := text |}) (JStr text)
             Hk Hreq); [|reflexivity].
    unfold sent. rewrite map_app, rev_app_distr. reflexivity.
  - intros model msgs Hin.
    destruct (completion_call_messages _ _ _ _ _ Hin) as (ctx & kept & Hf & ->).
    exists ctx. f_equal. rewrite Hreq in Hf. simpl in Hf.
    rewrite filter_not_system_of_page in Hf. injection Hf as <-. f_equal.
    unfold sent. rewrite Hm. simpl. rewrite filter_app. simpl.
    rewrite filter_keeps_all; [reflexivity|].
    apply Forall_forall. intros m Hmem. rewrite Forall_forall in Hr.
    specialize (Hr m Hmem). destruct (String.eqb_spec (App.role m) "system");
      [contradiction|reflexivity].
Qed.

Lemma served_page_message_witness :
  exists more,
    snd (serve (post_chat demo_world
                  (snd (App.sendMessage_request "hello" (App.loaded "" "")))) [])
    = ModerationCall (JStr "hello") :: more.
Proof.
  destruct (served_page_message demo_world [] "hello" (App.loaded "" "") [])
    as [Hmod _].
  - reflexivity.
  - reflexivity.
  - constructor.
  - exact Hmod.
Defined.

(** X29. The page never sends what the server refuses as malformed: a
    submitted form and a click on the add button either send nothing or
    send a request that is not answered with status 400. *)
Theorem page_requests_are_well_formed (w : World) (store : list Row) :
  (forall p p' req_body,
     App.submit p = (p', Some req_body) ->
     status (fst (fst (serve (post_chat w req_body) store))) <> 400%nat)
  /\ (forall docTitle docContent req_body,
        App.add_doc_request docTitle docContent = Some req_body ->
        status (fst (fst (serve (post_docs w req_body) store))) <> 400%nat).
Proof.
  split.
  - intros p p' req Hs. unfold App.submit in Hs.
    destruct (String.eqb (App.trim (App.input p)) ""); [discriminate|].
    injection Hs as _ <-.
    rewrite chat_in_closed_form. unfold chat_outcome.
    destruct (key_missing w); [discriminate|].
    simpl lookup. cbn [truthy isArray negb orb elements].
    destruct (find_user _) as [u|e]; [|discriminate].
    destruct (last_content u) as [c|e]; [|discriminate].
    destruct (flagged w c); [discriminate|].
    destruct (filter_not_system _) as [kept|e]; [|discriminate].
    simpl. destruct (chat_completions_create w _ _); discriminate.
  - intros t c req Ha. unfold App.add_doc_request in Ha.
    destruct (String.eqb (App.trim c) "") eqn:Ec; [discriminate|].
    injection Ha as <-.
    unfold serve, run, post_docs, try_catch, bind, call_embedding, emit, lift,
      insert_document, ret, raise, respond.
    change (lookup "content" [("title", JStr (App.trim t));
                              ("content", JStr (App.trim c))])
      with (JStr (App.trim c)).
    cbn [truthy is_string negb orb]. rewrite Ec. simpl.
    destruct (embeddings_create w _) as [v|e]; simpl; [|discriminate].
    destruct (bind_title w _) as [t'|e]; simpl; [|discriminate].
    destruct (insert_fault w); simpl; [discriminate|].
    destruct (new_rowid w store); simpl; discriminate.
Qed.

Lemma page_requests_are_well_formed_witness :
  status (fst (fst (serve (post_docs demo_world
                             [("title", JStr ""); ("content", JStr "a note")]) [])))
  <> 400%nat.
Proof.
  destruct (page_requests_are_well_formed demo_world []) as [_ Hadd].
  apply (Hadd "  " " a note "). reflexivity.
Defined.

(** X30. Two sends in flight at once lose the first reply: when a second
    message is sent before the first request settles and both are answered
    with a reply, the conversation ends as the first message, the
    placeholder, the second message and the second reply. *)
Theorem overlapping_sends_lose_a_reply
    (b : App.Browser) (first second reply1 reply2 : string) (p : App.Page) :
  let p1 := fst (App.sendMessage_request first p) in
  let p2 := fst (App.sendMessage_request second p1) in
  let p3 := App.sendMessage_settle b
              (App.Resolved true (JObj [("reply", JStr reply1)])) p2 in
  let p4 := App.sendMessage_settle b
              (App.Resolved true (JObj [("reply", JStr reply2)])) p3 in
  App.messages p4
  = (App.messages p
     ++ [ {| App.role := "user"; App.content := first |}; App.typing;
          {| App.role := "user"; App.content := second |};
          App.says (App.trim reply2) ])%list
  /\ App.chatEl p4 = App.renderMessages (App.messages p4).
Proof.
  cbv zeta. split; [|apply settle_renders].
  rewrite !settle_messages. simpl App.reply_of. cbv iota.
  rewrite !request_messages, !removelast_last.
  destruct (removelast_two
              (App.messages p ++ [{| App.role := "user"; App.content := first |};
                                  App.typing])
              {| App.role := "user"; App.content := second |} App.typing) as [H1 _].
  rewrite H1, <- !app_assoc. reflexivity.
Qed.
